(** * FleCSALE: a shallow embedding of the Maire hydro tasks

    The tasks of [apps/maire_hydro/tasks.h] and the edge geometry of the
    Burton mesh are embedded as pure functions on an explicit mesh state.
    [real_t] is kept abstract: the arithmetic of the code is a class of
    operations without laws, so a statement proved here holds for every
    interpretation of the operations; laws are assumed only where a
    statement names them. *)

From Stdlib Require Import String Ascii Decimal DecimalString DecimalNat.
From Stdlib Require Import List Arith Bool Lia Ring.
Import ListNotations.

Set Implicit Arguments.

(** ** Arithmetic of [real_t] *)

Class real_ops (real_t : Type) : Type := {
  r0 : real_t;                          (* the literal 0 *)
  radd : real_t -> real_t -> real_t;    (* operator+ *)
  rsub : real_t -> real_t -> real_t;    (* operator- *)
  rmul : real_t -> real_t -> real_t;    (* operator* *)
  rdiv : real_t -> real_t -> real_t;    (* operator/ *)
  rabs : real_t -> real_t;              (* std::abs *)
  rsqrt : real_t -> real_t;             (* std::sqrt *)
  rlt : real_t -> real_t -> bool;       (* operator< *)
  rsize : nat -> real_t                 (* conversion of a size_t *)
}.

Declare Scope real_scope.
Delimit Scope real_scope with real.
Infix "+" := radd : real_scope.
Infix "-" := rsub : real_scope.
Infix "*" := rmul : real_scope.
Infix "/" := rdiv : real_scope.

(** ** Arrays indexed by entity id or component *)

(** [a[i] = x] on a dense array. *)
Definition upd {A : Type} (f : nat -> A) (i : nat) (x : A) : nat -> A :=
  fun j => if Nat.eqb j i then x else f j.

(** [for (d = 0; d < n; ++d) x[d] = g(d, x[d])]. *)
Definition for_each_dim {A : Type} (n : nat) (g : nat -> A -> A)
  (x : nat -> A) : nat -> A :=
  fold_left (fun acc d => upd acc d (g d (acc d))) (seq 0 n) x.

(** [container.front()]; entity 0 stands for the front of an empty range. *)
Definition front (l : list nat) : nat := hd 0 l.

(** ** std::map<tag_t, V>: an association list kept in ascending key order *)

Definition tag_t := nat.

Fixpoint smap_find {V : Type} (k : tag_t) (m : list (tag_t * V)) : option V :=
  match m with
  | [] => None
  | (k', v) :: m' => if Nat.eqb k k' then Some v else smap_find k m'
  end.

(** [m[k] = f(m.count(k) ? m[k] : nothing)], inserting [k] at its place. *)
Fixpoint smap_upsert {V : Type} (k : tag_t) (f : option V -> V)
  (m : list (tag_t * V)) : list (tag_t * V) :=
  match m with
  | [] => [(k, f None)]
  | (k', v) :: m' =>
      if Nat.ltb k k' then (k, f None) :: m
      else if Nat.eqb k k' then (k, f (Some v)) :: m'
      else (k', v) :: smap_upsert k f m'
  end.

Section Hydro.

Set Default Proof Using "Type".

Context {real_t : Type} {ops : real_ops real_t}.

(** [T::num_dimensions] *)
Variable num_dimensions : nat.

Local Open Scope real_scope.

(** [math::vector<real_t,N>] and [math::matrix<real_t,N,N>], by component. *)
Definition vector_t : Type := nat -> real_t.
Definition matrix_t : Type := nat -> nat -> real_t.

(** [x = 0] for a vector, [A = 0] for a matrix. *)
Definition vzero : vector_t := fun _ => r0.
Definition mzero : matrix_t := fun _ _ => r0.

(** Left-to-right sum starting at 0, the order in which the loops add. *)
Definition sum_list (xs : list real_t) : real_t := fold_left radd xs r0.

(** Left-to-right sum of a list whose first element starts the sum. *)
Definition sum1 (xs : list real_t) : option real_t :=
  match xs with
  | [] => None
  | x :: xs' => Some (fold_left radd xs' x)
  end.

(** [std::max(a, b)]: [(a < b) ? b : a]. *)
Definition std_max (a b : real_t) : real_t := if rlt a b then b else a.

(** [std::min_element] over [x :: xs]: position and value of the first
    smallest element, [it] moving only on a strict [<]. *)
Fixpoint min_element_from (it : nat) (best : real_t) (i : nat)
  (xs : list real_t) : nat * real_t :=
  match xs with
  | [] => (it, best)
  | x :: xs' =>
      if rlt x best then min_element_from i x (S i) xs'
      else min_element_from it best (S i) xs'
  end.

Definition min_element (x : real_t) (xs : list real_t) : nat * real_t :=
  min_element_from 0 x 1 xs.

(** ** Mesh topology (read-only after construction) *)

Record mesh_topology : Type := {
  cells : list nat;                        (* mesh.cells() *)
  vertices : list nat;                     (* mesh.vertices() *)
  corners : list nat;                      (* mesh.corners() *)
  cells_of_vertex : nat -> list nat;       (* mesh.cells(v) *)
  corners_of_vertex : nat -> list nat;     (* mesh.corners(v) *)
  wedges_of_vertex : nat -> list nat;      (* mesh.wedges(v) *)
  corners_of_cell : nat -> list nat;       (* mesh.corners(c) *)
  cells_of_corner : nat -> list nat;       (* mesh.cells(cn) *)
  vertices_of_corner : nat -> list nat;    (* mesh.vertices(cn) *)
  wedges_of_corner : nat -> list nat;      (* mesh.wedges(cn) *)
  faces_of_wedge : nat -> list nat;        (* mesh.faces(w) *)
  cells_of_wedge : nat -> list nat;        (* mesh.cells(w) *)
  vertices_of_edge : nat -> list nat;      (* entities<0,0>(edge) *)
  vertex_is_boundary : nat -> bool;        (* vt->is_boundary() *)
  wedge_is_boundary : nat -> bool;         (* w->is_boundary() *)
  vertex_tags : nat -> list tag_t;         (* vt->tags() *)
  face_tags : nat -> list tag_t            (* f->tags() *)
}.

(** ** Boundary conditions ([boundary_condition_t], [boundary_map_t]) *)

Record boundary_condition_t : Type := {
  has_prescribed_velocity : bool;
  has_prescribed_pressure : bool;
  has_symmetry : bool;
  velocity : vector_t -> real_t -> vector_t;
  pressure : vector_t -> real_t -> real_t
}.

(** [boundary_map.at(tag)] throws on an absent tag: [None]. *)
Definition boundary_map_t : Type := tag_t -> option boundary_condition_t.

(** ** State *)

Record time_constants_t : Type := {
  accoustic : real_t;
  volume : real_t;
  growth : real_t
}.

(** Modelled from the spec: [flux_data_t] of [ale/eqns/lagrange_eqns.h] is
    not among the sources; section 4.6 gives the residual its four rates
    dM/dt, d(Mu)/dt, d(ME)/dt and dV/dt. *)
Record flux_data_t : Type := {
  dmass_dt : real_t;
  dmomentum_dt : vector_t;
  denergy_dt : real_t;
  dvolume_dt : real_t
}.

(** The geometric cache: the fields registered under the [mesh] name space. *)
Record geometry_t : Type := {
  cell_volume : nat -> real_t;
  cell_min_length : nat -> real_t;
  wedge_facet_normal : nat -> vector_t;
  wedge_facet_area : nat -> real_t;
  wedge_facet_centroid : nat -> vector_t
}.

Record hydro_state : Type := {
  (* cell state, version 0 *)
  cell_mass : nat -> real_t;
  cell_pressure : nat -> real_t;
  cell_velocity : nat -> vector_t;
  cell_density : nat -> real_t;
  cell_internal_energy : nat -> real_t;
  cell_temperature : nat -> real_t;
  cell_sound_speed : nat -> real_t;
  (* version 1 of the two fields that have one *)
  cell_velocity_1 : nat -> vector_t;
  cell_internal_energy_1 : nat -> real_t;
  cell_residual : nat -> flux_data_t;
  (* vertex and corner fields *)
  node_velocity : nat -> vector_t;
  node_coordinates : nat -> vector_t;
  corner_matrix : nat -> matrix_t;
  corner_normal : nat -> vector_t;
  (* the mesh itself *)
  coordinates : nat -> vector_t;      (* vt->coordinates() *)
  geometry : geometry_t;
  (* globals *)
  time_step : real_t;
  cfl : time_constants_t;
  soln_time : real_t                  (* mesh.time() *)
}.

Definition set_cell_velocity (s : hydro_state) (f : nat -> vector_t) :=
  {| cell_mass := cell_mass s; cell_pressure := cell_pressure s;
     cell_velocity := f; cell_density := cell_density s;
     cell_internal_energy := cell_internal_energy s;
     cell_temperature := cell_temperature s;
     cell_sound_speed := cell_sound_speed s;
     cell_velocity_1 := cell_velocity_1 s;
     cell_internal_energy_1 := cell_internal_energy_1 s;
     cell_residual := cell_residual s; node_velocity := node_velocity s;
     node_coordinates := node_coordinates s;
     corner_matrix := corner_matrix s; corner_normal := corner_normal s;
     coordinates := coordinates s; geometry := geometry s;
     time_step := time_step s; cfl := cfl s; soln_time := soln_time s |}.

Definition set_cell_internal_energy (s : hydro_state) (f : nat -> real_t) :=
  {| cell_mass := cell_mass s; cell_pressure := cell_pressure s;
     cell_velocity := cell_velocity s; cell_density := cell_density s;
     cell_internal_energy := f;
     cell_temperature := cell_temperature s;
     cell_sound_speed := cell_sound_speed s;
     cell_velocity_1 := cell_velocity_1 s;
     cell_internal_energy_1 := cell_internal_energy_1 s;
     cell_residual := cell_residual s; node_velocity := node_velocity s;
     node_coordinates := node_coordinates s;
     corner_matrix := corner_matrix s; corner_normal := corner_normal s;
     coordinates := coordinates s; geometry := geometry s;
     time_step := time_step s; cfl := cfl s; soln_time := soln_time s |}.

Definition set_cell_velocity_1 (s : hydro_state) (f : nat -> vector_t) :=
  {| cell_mass := cell_mass s; cell_pressure := cell_pressure s;
     cell_velocity := cell_velocity s; cell_density := cell_density s;
     cell_internal_energy := cell_internal_energy s;
     cell_temperature := cell_temperature s;
     cell_sound_speed := cell_sound_speed s;
     cell_velocity_1 := f;
     cell_internal_energy_1 := cell_internal_energy_1 s;
     cell_residual := cell_residual s; node_velocity := node_velocity s;
     node_coordinates := node_coordinates s;
     corner_matrix := corner_matrix s; corner_normal := corner_normal s;
     coordinates := coordinates s; geometry := geometry s;
     time_step := time_step s; cfl := cfl s; soln_time := soln_time s |}.

Definition set_cell_internal_energy_1 (s : hydro_state) (f : nat -> real_t) :=
  {| cell_mass := cell_mass s; cell_pressure := cell_pressure s;
     cell_velocity := cell_velocity s; cell_density := cell_density s;
     cell_internal_energy := cell_internal_energy s;
     cell_temperature := cell_temperature s;
     cell_sound_speed := cell_sound_speed s;
     cell_velocity_1 := cell_velocity_1 s;
     cell_internal_energy_1 := f;
     cell_residual := cell_residual s; node_velocity := node_velocity s;
     node_coordinates := node_coordinates s;
     corner_matrix := corner_matrix s; corner_normal := corner_normal s;
     coordinates := coordinates s; geometry := geometry s;
     time_step := time_step s; cfl := cfl s; soln_time := soln_time s |}.

Definition set_cell_residual (s : hydro_state) (f : nat -> flux_data_t) :=
  {| cell_mass := cell_mass s; cell_pressure := cell_pressure s;
     cell_velocity := cell_velocity s; cell_density := cell_density s;
     cell_internal_energy := cell_internal_energy s;
     cell_temperature := cell_temperature s;
     cell_sound_speed := cell_sound_speed s;
     cell_velocity_1 := cell_velocity_1 s;
     cell_internal_energy_1 := cell_internal_energy_1 s;
     cell_residual := f; node_velocity := node_velocity s;
     node_coordinates := node_coordinates s;
     corner_matrix := corner_matrix s; corner_normal := corner_normal s;
     coordinates := coordinates s; geometry := geometry s;
     time_step := time_step s; cfl := cfl s; soln_time := soln_time s |}.

Definition set_node_velocity (s : hydro_state) (f : nat -> vector_t) :=
  {| cell_mass := cell_mass s; cell_pressure := cell_pressure s;
     cell_velocity := cell_velocity s; cell_density := cell_density s;
     cell_internal_energy := cell_internal_energy s;
     cell_temperature := cell_temperature s;
     cell_sound_speed := cell_sound_speed s;
     cell_velocity_1 := cell_velocity_1 s;
     cell_internal_energy_1 := cell_internal_energy_1 s;
     cell_residual := cell_residual s; node_velocity := f;
     node_coordinates := node_coordinates s;
     corner_matrix := corner_matrix s; corner_normal := corner_normal s;
     coordinates := coordinates s; geometry := geometry s;
     time_step := time_step s; cfl := cfl s; soln_time := soln_time s |}.

Definition set_node_coordinates (s : hydro_state) (f : nat -> vector_t) :=
  {| cell_mass := cell_mass s; cell_pressure := cell_pressure s;
     cell_velocity := cell_velocity s; cell_density := cell_density s;
     cell_internal_energy := cell_internal_energy s;
     cell_temperature := cell_temperature s;
     cell_sound_speed := cell_sound_speed s;
     cell_velocity_1 := cell_velocity_1 s;
     cell_internal_energy_1 := cell_internal_energy_1 s;
     cell_residual := cell_residual s; node_velocity := node_velocity s;
     node_coordinates := f;
     corner_matrix := corner_matrix s; corner_normal := corner_normal s;
     coordinates := coordinates s; geometry := geometry s;
     time_step := time_step s; cfl := cfl s; soln_time := soln_time s |}.

Definition set_corner_matrix (s : hydro_state) (f : nat -> matrix_t) :=
  {| cell_mass := cell_mass s; cell_pressure := cell_pressure s;
     cell_velocity := cell_velocity s; cell_density := cell_density s;
     cell_internal_energy := cell_internal_energy s;
     cell_temperature := cell_temperature s;
     cell_sound_speed := cell_sound_speed s;
     cell_velocity_1 := cell_velocity_1 s;
     cell_internal_energy_1 := cell_internal_energy_1 s;
     cell_residual := cell_residual s; node_velocity := node_velocity s;
     node_coordinates := node_coordinates s;
     corner_matrix := f; corner_normal := corner_normal s;
     coordinates := coordinates s; geometry := geometry s;
     time_step := time_step s; cfl := cfl s; soln_time := soln_time s |}.

Definition set_corner_normal (s : hydro_state) (f : nat -> vector_t) :=
  {| cell_mass := cell_mass s; cell_pressure := cell_pressure s;
     cell_velocity := cell_velocity s; cell_density := cell_density s;
     cell_internal_energy := cell_internal_energy s;
     cell_temperature := cell_temperature s;
     cell_sound_speed := cell_sound_speed s;
     cell_velocity_1 := cell_velocity_1 s;
     cell_internal_energy_1 := cell_internal_energy_1 s;
     cell_residual := cell_residual s; node_velocity := node_velocity s;
     node_coordinates := node_coordinates s;
     corner_matrix := corner_matrix s; corner_normal := f;
     coordinates := coordinates s; geometry := geometry s;
     time_step := time_step s; cfl := cfl s; soln_time := soln_time s |}.

Definition set_coordinates (s : hydro_state) (f : nat -> vector_t) :=
  {| cell_mass := cell_mass s; cell_pressure := cell_pressure s;
     cell_velocity := cell_velocity s; cell_density := cell_density s;
     cell_internal_energy := cell_internal_energy s;
     cell_temperature := cell_temperature s;
     cell_sound_speed := cell_sound_speed s;
     cell_velocity_1 := cell_velocity_1 s;
     cell_internal_energy_1 := cell_internal_energy_1 s;
     cell_residual := cell_residual s; node_velocity := node_velocity s;
     node_coordinates := node_coordinates s;
     corner_matrix := corner_matrix s; corner_normal := corner_normal s;
     coordinates := f; geometry := geometry s;
     time_step := time_step s; cfl := cfl s; soln_time := soln_time s |}.

Definition set_geometry (s : hydro_state) (g : geometry_t) :=
  {| cell_mass := cell_mass s; cell_pressure := cell_pressure s;
     cell_velocity := cell_velocity s; cell_density := cell_density s;
     cell_internal_energy := cell_internal_energy s;
     cell_temperature := cell_temperature s;
     cell_sound_speed := cell_sound_speed s;
     cell_velocity_1 := cell_velocity_1 s;
     cell_internal_energy_1 := cell_internal_energy_1 s;
     cell_residual := cell_residual s; node_velocity := node_velocity s;
     node_coordinates := node_coordinates s;
     corner_matrix := corner_matrix s; corner_normal := corner_normal s;
     coordinates := coordinates s; geometry := g;
     time_step := time_step s; cfl := cfl s; soln_time := soln_time s |}.

Definition set_time_step (s : hydro_state) (dt : real_t) :=
  {| cell_mass := cell_mass s; cell_pressure := cell_pressure s;
     cell_velocity := cell_velocity s; cell_density := cell_density s;
     cell_internal_energy := cell_internal_energy s;
     cell_temperature := cell_temperature s;
     cell_sound_speed := cell_sound_speed s;
     cell_velocity_1 := cell_velocity_1 s;
     cell_internal_energy_1 := cell_internal_energy_1 s;
     cell_residual := cell_residual s; node_velocity := node_velocity s;
     node_coordinates := node_coordinates s;
     corner_matrix := corner_matrix s; corner_normal := corner_normal s;
     coordinates := coordinates s; geometry := geometry s;
     time_step := dt; cfl := cfl s; soln_time := soln_time s |}.

(** ** Coordinates and solution snapshots (tasks.h, 730-899) *)

(** [mesh.update_geometry()] is not among the sources: it recomputes the
    geometric cache from the topology and the current coordinates. *)
Variable compute_geometry : mesh_topology -> (nat -> vector_t) -> geometry_t.

Definition update_geometry (m : mesh_topology) (s : hydro_state) :=
  set_geometry s (compute_geometry m (coordinates s)).

Definition move_mesh (m : mesh_topology) (coef : real_t) (s : hydro_state)
  : hydro_state :=
  let fact := coef * time_step s in
  let s1 :=
    fold_left
      (fun acc vt =>
         set_coordinates acc
           (upd (coordinates acc) vt
              (for_each_dim num_dimensions
                 (fun d x => x + fact * node_velocity acc vt d)
                 (coordinates acc vt))))
      (vertices m) s in
  update_geometry m s1.

Definition save_coordinates (m : mesh_topology) (s : hydro_state)
  : hydro_state :=
  fold_left
    (fun acc vt =>
       set_node_coordinates acc
         (upd (node_coordinates acc) vt (coordinates acc vt)))
    (vertices m) s.

Definition restore_coordinates (m : mesh_topology) (s : hydro_state)
  : hydro_state :=
  fold_left
    (fun acc vt =>
       set_coordinates acc
         (upd (coordinates acc) vt (node_coordinates acc vt)))
    (vertices m) s.

(** [vel0[c] = vel[c]; ener0[c] = ener[c];] *)
Definition save_solution_step (acc : hydro_state) (c : nat) : hydro_state :=
  let acc1 :=
    set_cell_velocity_1 acc
      (upd (cell_velocity_1 acc) c (cell_velocity acc c)) in
  set_cell_internal_energy_1 acc1
    (upd (cell_internal_energy_1 acc1) c (cell_internal_energy acc1 c)).

Definition save_solution (m : mesh_topology) (s : hydro_state)
  : hydro_state :=
  fold_left save_solution_step (cells m) s.

(** [vel[c] = vel0[c]; ener[c] = ener0[c];] *)
Definition restore_solution_step (acc : hydro_state) (c : nat)
  : hydro_state :=
  let acc1 :=
    set_cell_velocity acc
      (upd (cell_velocity acc) c (cell_velocity_1 acc c)) in
  set_cell_internal_energy acc1
    (upd (cell_internal_energy acc1) c (cell_internal_energy_1 acc1 c)).

Definition restore_solution (m : mesh_topology) (s : hydro_state)
  : hydro_state :=
  fold_left restore_solution_step (cells m) s.

(** Every field other than the two version-1 snapshots is the same in [s]
    and [s']. *)
Definition same_but_snapshot (s s' : hydro_state) : Prop :=
  cell_mass s' = cell_mass s /\ cell_pressure s' = cell_pressure s /\
  cell_velocity s' = cell_velocity s /\ cell_density s' = cell_density s /\
  cell_internal_energy s' = cell_internal_energy s /\
  cell_temperature s' = cell_temperature s /\
  cell_sound_speed s' = cell_sound_speed s /\
  cell_residual s' = cell_residual s /\
  node_velocity s' = node_velocity s /\
  node_coordinates s' = node_coordinates s /\
  corner_matrix s' = corner_matrix s /\ corner_normal s' = corner_normal s /\
  coordinates s' = coordinates s /\ geometry s' = geometry s /\
  time_step s' = time_step s /\ cfl s' = cfl s /\ soln_time s' = soln_time s.

(** Every field other than version 0 of [cell_velocity] and
    [cell_internal_energy] is the same in [s] and [s']. *)
Definition same_but_working (s s' : hydro_state) : Prop :=
  cell_mass s' = cell_mass s /\ cell_pressure s' = cell_pressure s /\
  cell_density s' = cell_density s /\
  cell_temperature s' = cell_temperature s /\
  cell_sound_speed s' = cell_sound_speed s /\
  cell_velocity_1 s' = cell_velocity_1 s /\
  cell_internal_energy_1 s' = cell_internal_energy_1 s /\
  cell_residual s' = cell_residual s /\
  node_velocity s' = node_velocity s /\
  node_coordinates s' = node_coordinates s /\
  corner_matrix s' = corner_matrix s /\ corner_normal s' = corner_normal s /\
  coordinates s' = coordinates s /\ geometry s' = geometry s /\
  time_step s' = time_step s /\ cfl s' = cfl s /\ soln_time s' = soln_time s.

(** ** math::vector and math::matrix helpers

    [ale/math] is not among the sources; its compound assignments act by
    component, over the [num_dimensions] components an object has. *)

(** [x += y] *)
Definition vector_add (x y : vector_t) : vector_t :=
  for_each_dim num_dimensions (fun d xd => xd + y d) x.

(** [x /= a] *)
Definition vector_div (x : vector_t) (a : real_t) : vector_t :=
  for_each_dim num_dimensions (fun _ xd => xd / a) x.

(** [A += B] *)
Definition matrix_add (A B : matrix_t) : matrix_t :=
  for_each_dim num_dimensions
    (fun i row => for_each_dim num_dimensions (fun j aij => aij + B i j) row)
    A.

Definition sqr (x : real_t) : real_t := x * x.

Definition dot_product (a b : vector_t) : real_t :=
  sum_list (map (fun d => a d * b d) (seq 0 num_dimensions)).

(** Row [i] of the product [A x]. *)
Definition mat_vec (A : matrix_t) (x : vector_t) (i : nat) : real_t :=
  sum_list (map (fun j => A i j * x j) (seq 0 num_dimensions)).

(** Modelled from the spec: [math::outer_product(a, b, C, fact)] is not
    among the sources; the corner assembly of section 4.5 accumulates
    [fact * (a (x) b)] into [C]. *)
Definition outer_product (a b : vector_t) (C : matrix_t) (fact : real_t)
  : matrix_t :=
  for_each_dim num_dimensions
    (fun i row =>
       for_each_dim num_dimensions (fun j cij => cij + fact * (a i * b j)) row)
    C.

(** Modelled from the spec: [ax_plus_y(A, x, y)] is not among the sources;
    sections 4.5 and 4.6 use it for [y += A x]. *)
Definition ax_plus_y (A : matrix_t) (x y : vector_t) : vector_t :=
  for_each_dim num_dimensions (fun i yi => yi + mat_vec A x i) y.

(** ** estimate_nodal_state (tasks.h, 232-260) *)

(** The loop over the cells of a vertex: [vertex_vel[v] += cell_vel[c]]. *)
Definition estimate_cell_step (v : nat) (a : hydro_state) (c : nat)
  : hydro_state :=
  set_node_velocity a
    (upd (node_velocity a) v
       (vector_add (node_velocity a v) (cell_velocity a c))).

(** The body of the loop over the vertices. *)
Definition estimate_vertex_step (m : mesh_topology) (acc : hydro_state)
  (v : nat) : hydro_state :=
  let acc0 := set_node_velocity acc (upd (node_velocity acc) v vzero) in
  let cs := cells_of_vertex m v in
  let acc1 := fold_left (estimate_cell_step v) cs acc0 in
  set_node_velocity acc1
    (upd (node_velocity acc1) v
       (vector_div (node_velocity acc1 v) (rsize (length cs)))).

Definition estimate_nodal_state (m : mesh_topology) (s : hydro_state)
  : hydro_state :=
  fold_left (estimate_vertex_step m) (vertices m) s.

(** ** evaluate_corner_coef (tasks.h, 268-352) *)

(** The body of the loop over the wedges of a corner. *)
Definition corner_wedge_step (cn : nat) (zc : real_t) (acc : hydro_state)
  (w : nat) : hydro_state :=
  let n := wedge_facet_normal (geometry acc) w in
  let l := wedge_facet_area (geometry acc) w in
  let acc1 :=
    set_corner_matrix acc
      (upd (corner_matrix acc) cn
         (outer_product n n (corner_matrix acc cn) (zc * l))) in
  set_corner_normal acc1
    (upd (corner_normal acc1) cn
       (for_each_dim num_dimensions (fun d x => x + l * n d)
          (corner_normal acc1 cn))).

(** The body of the loop over the corners. *)
Definition corner_step (m : mesh_topology) (acc : hydro_state) (cn : nat)
  : hydro_state :=
  let acc0 :=
    set_corner_normal
      (set_corner_matrix acc (upd (corner_matrix acc) cn mzero))
      (upd (corner_normal acc) cn vzero) in
  let cl := front (cells_of_corner m cn) in
  let dc := cell_density acc0 cl in
  let ac := cell_sound_speed acc0 cl in
  let zc := dc * ac in
  fold_left (corner_wedge_step cn zc) (wedges_of_corner m cn) acc0.

Definition evaluate_corner_coef (m : mesh_topology) (s : hydro_state)
  : hydro_state :=
  fold_left (corner_step m) (corners m) s.

(** ** evaluate_forces (tasks.h, 553-620) *)

(** [dudt[cl] = 0.0] *)
Definition flux_zero : flux_data_t :=
  {| dmass_dt := r0; dmomentum_dt := vzero; denergy_dt := r0;
     dvolume_dt := r0 |}.

(** Modelled from the spec: [eqns_t::compute_update] is not among the
    sources; by section 4.6 a corner takes its force from the momentum
    rate, the work of the force at the nodal velocity from the energy rate,
    and adds [N . u_v] to the volume rate. *)
Definition compute_update (u force n : vector_t) (dudt : flux_data_t)
  : flux_data_t :=
  {| dmass_dt := dmass_dt dudt;
     dmomentum_dt :=
       for_each_dim num_dimensions (fun d x => x - force d)
         (dmomentum_dt dudt);
     denergy_dt := denergy_dt dudt - dot_product force u;
     dvolume_dt := dvolume_dt dudt + dot_product n u |}.

(** The force of one corner: the two loops that fill [force] and
    [delta_u], then [ax_plus_y]. *)
Definition corner_force (m : mesh_topology) (s : hydro_state) (cl cn : nat)
  : vector_t :=
  let pc := cell_pressure s cl in
  let uc := cell_velocity s cl in
  let pt := front (vertices_of_corner m cn) in
  let fd :=
    fold_left
      (fun (fd : vector_t * vector_t) d =>
         (upd (fst fd) d (pc * corner_normal s cn d),
          upd (snd fd) d (uc d - node_velocity s pt d)))
      (seq 0 num_dimensions) (vzero, vzero) in
  ax_plus_y (corner_matrix s cn) (snd fd) (fst fd).

Definition force_step (m : mesh_topology) (cl : nat) (acc : hydro_state)
  (cn : nat) : hydro_state :=
  let pt := front (vertices_of_corner m cn) in
  let force := corner_force m acc cl cn in
  set_cell_residual acc
    (upd (cell_residual acc) cl
       (compute_update (node_velocity acc pt) force (corner_normal acc cn)
          (cell_residual acc cl))).

(** The body of the loop over the cells. *)
Definition cell_force_step (m : mesh_topology) (acc : hydro_state)
  (cl : nat) : hydro_state :=
  let acc0 := set_cell_residual acc (upd (cell_residual acc) cl flux_zero) in
  fold_left (force_step m cl) (corners_of_cell m cl) acc0.

Definition evaluate_forces (m : mesh_topology) (s : hydro_state)
  : hydro_state :=
  fold_left (cell_force_step m) (cells m) s.

(** The subcell force of section 4.6 for the corner [cn] of the cell [c]:
    [F_cn = p_c N_cn + M_cn (u_c - u_v)], [v] the vertex of the corner. *)
Definition subcell_force (m : mesh_topology) (s : hydro_state) (c cn : nat)
  (d : nat) : real_t :=
  let v := front (vertices_of_corner m cn) in
  cell_pressure s c * corner_normal s cn d
  + mat_vec (corner_matrix s cn)
      (fun j => cell_velocity s c j - node_velocity s v j) d.

(** ** evaluate_time_step (tasks.h, 142-224) *)

(** Modelled from the spec: [eqns_t::volumetric_rate_of_change] is not
    among the sources; it reads dV/dt of the residual (section 4.6). *)
Definition volumetric_rate_of_change (dudt : flux_data_t) : real_t :=
  dvolume_dt dudt.

(** The reduction loop: [(dt_acc_inv, dt_vol_inv)]. *)
Definition inverse_time_scales (m : mesh_topology) (s : hydro_state)
  : real_t * real_t :=
  fold_left
    (fun (acc : real_t * real_t) c =>
       let dti :=
         cell_sound_speed s c / cell_min_length (geometry s) c
         / accoustic (cfl s) in
       let dt_acc_inv := std_max dti (fst acc) in
       let dVdt := volumetric_rate_of_change (cell_residual s c) in
       let dti := rabs dVdt / cell_volume (geometry s) c / volume (cfl s) in
       (dt_acc_inv, std_max dti (snd acc)))
    (cells m) (r0, r0).

Definition dt_acc (m : mesh_topology) (s : hydro_state) : real_t :=
  accoustic (cfl s) / fst (inverse_time_scales m s).

Definition dt_vol (m : mesh_topology) (s : hydro_state) : real_t :=
  volume (cfl s) / snd (inverse_time_scales m s).

Definition dt_growth (s : hydro_state) : real_t :=
  growth (cfl s) * time_step s.

(** [None] is the abort of the failed [assert] (or of the runtime error of
    the [default] label); otherwise the new state and [limit_string]. *)
Definition evaluate_time_step (m : mesh_topology) (s : hydro_state)
  : option (hydro_state * string) :=
  let inv := inverse_time_scales m s in
  if rlt r0 (fst inv) && rlt r0 (snd inv) then
    let it := min_element (dt_acc m s) [dt_vol m s; dt_growth s] in
    match fst it with
    | 0 => Some (set_time_step s (snd it), "accoustic"%string)
    | 1 => Some (set_time_step s (snd it), "volume"%string)
    | 2 => Some (set_time_step s (snd it), "growth"%string)
    | _ => None
    end
  else None.

(** The build with [NDEBUG], for which tasks.h itself has its
    [#ifndef NDEBUG] blocks: [assert] expands to nothing and the three
    limits are taken whatever the inverse time scales are. *)
Definition evaluate_time_step_ndebug (m : mesh_topology) (s : hydro_state)
  : option (hydro_state * string) :=
  let it := min_element (dt_acc m s) [dt_vol m s; dt_growth s] in
  match fst it with
  | 0 => Some (set_time_step s (snd it), "accoustic"%string)
  | 1 => Some (set_time_step s (snd it), "volume"%string)
  | 2 => Some (set_time_step s (snd it), "growth"%string)
  | _ => None
  end.

(** ** evaluate_nodal_state (tasks.h, 360-545) *)

(** [math::solve(Mp, rhs)] and [ale::linalg::qr(A_view, b_view)] are not
    among the sources. [qr n A b] is what [qr] leaves in [b_view] for an
    [n] by [n] system. *)
Variable solve : matrix_t -> vector_t -> vector_t.
Variable qr : nat -> (nat -> nat -> real_t) -> (nat -> real_t) -> nat -> real_t.

(** The loop over the corners of a vertex: [(Mp, rhs)]. *)
Definition point_system (m : mesh_topology) (s : hydro_state) (vt : nat)
  : matrix_t * vector_t :=
  fold_left
    (fun (sys : matrix_t * vector_t) cn =>
       let cl := front (cells_of_corner m cn) in
       let pc := cell_pressure s cl in
       let uc := cell_velocity s cl in
       let Mp := matrix_add (fst sys) (corner_matrix s cn) in
       let rhs :=
         for_each_dim num_dimensions
           (fun d x => x + pc * corner_normal s cn d) (snd sys) in
       (Mp, ax_plus_y (corner_matrix s cn) uc rhs))
    (corners_of_vertex m vt) (mzero, vzero).

(** [std::find_if] over the tags of a vertex with the lambda that calls
    [boundary_map.at(id)]: [None] when [at] throws, [Some None] for
    [point_tags.end()]. *)
Fixpoint find_velocity_bc (bm : boundary_map_t) (tags : list tag_t)
  : option (option tag_t) :=
  match tags with
  | [] => Some None
  | id :: rest =>
      match bm id with
      | None => None
      | Some b =>
          if has_prescribed_velocity b then Some (Some id)
          else find_velocity_bc bm rest
      end
  end.

(** [filter_boundary(mesh.wedges(vt))] *)
Definition filter_boundary (m : mesh_topology) (ws : list nat) : list nat :=
  filter (wedge_is_boundary m) ws.

(** The accumulation into [symmetry_normals[tag]]. *)
Definition add_symmetry_normal (l : real_t) (n : vector_t)
  (old : option vector_t) : vector_t :=
  match old with
  | Some tmp => for_each_dim num_dimensions (fun d x => x + l * n d) tmp
  | None => for_each_dim num_dimensions (fun d _ => l * n d) vzero
  end.

(** The body of the loop over the tags of the face of a boundary wedge,
    on [(rhs, symmetry_normals)]. *)
Definition tag_step (bm : boundary_map_t) (s : hydro_state) (w : nat)
  (acc : option (vector_t * list (tag_t * vector_t))) (tag : tag_t)
  : option (vector_t * list (tag_t * vector_t)) :=
  match acc with
  | None => None
  | Some (rhs, sn) =>
      match bm tag with
      | None => None
      | Some b =>
          let n := wedge_facet_normal (geometry s) w in
          let l := wedge_facet_area (geometry s) w in
          if has_prescribed_pressure b then
            let x := wedge_facet_centroid (geometry s) w in
            let fact := l * pressure b x (soln_time s) in
            Some (for_each_dim num_dimensions (fun d r => r - fact * n d) rhs,
                  sn)
          else if has_symmetry b then
            Some (rhs, smap_upsert tag (add_symmetry_normal l n) sn)
          else Some (rhs, sn)
      end
  end.

Definition wedge_step (m : mesh_topology) (bm : boundary_map_t)
  (s : hydro_state) (acc : option (vector_t * list (tag_t * vector_t)))
  (w : nat) : option (vector_t * list (tag_t * vector_t)) :=
  fold_left (tag_step bm s w) (face_tags m (front (faces_of_wedge m w))) acc.

(** The loop over the boundary wedges of a vertex. *)
Definition boundary_conditions (m : mesh_topology) (bm : boundary_map_t)
  (s : hydro_state) (vt : nat) (rhs : vector_t)
  : option (vector_t * list (tag_t * vector_t)) :=
  fold_left (wedge_step m bm s)
    (filter_boundary m (wedges_of_vertex m vt)) (Some (rhs, [])).

(** [A_view(i, j) = x] through the two-index view. *)
Definition view_set (A : nat -> nat -> real_t) (i j : nat) (x : real_t)
  : nat -> nat -> real_t :=
  upd A i (upd (A i) j x).

(** The grown system: [(A_view, b_view)] before the call of [qr]. *)
Definition symmetry_system (Mp : matrix_t) (rhs : vector_t)
  (sn : list (tag_t * vector_t)) : (nat -> nat -> real_t) * (nat -> real_t) :=
  let num_dims := num_dimensions in
  let b :=
    fold_left (fun b d => upd b d (rhs d)) (seq 0 num_dims) (fun _ => r0) in
  let A1 :=
    fold_left
      (fun A i =>
         fold_left (fun A j => view_set A i j (Mp i j)) (seq 0 num_dims) A)
      (seq 0 num_dims) (fun _ _ => r0) in
  let A2 :=
    fold_left
      (fun A i =>
         snd (fold_left
                (fun (jA : nat * (nat -> nat -> real_t)) n =>
                   (S (fst jA), view_set (snd jA) i (fst jA) (snd n i)))
                sn (num_dims, A)))
      (seq 0 num_dims) A1 in
  let A3 :=
    snd (fold_left
           (fun (iA : nat * (nat -> nat -> real_t)) n =>
              (S (fst iA),
               fold_left (fun A j => view_set A (fst iA) j (snd n j))
                 (seq 0 num_dims) (snd iA)))
           sn (num_dims, A2)) in
  (A3, b).

(** The body of the loop over the vertices: the new [vertex_velocity[vt]],
    [None] when [boundary_map.at] throws. *)
Definition nodal_velocity (m : mesh_topology) (bm : boundary_map_t)
  (s : hydro_state) (vt : nat) : option vector_t :=
  let sys := point_system m s vt in
  let Mp := fst sys in
  let rhs := snd sys in
  if vertex_is_boundary m vt then
    match find_velocity_bc bm (vertex_tags m vt) with
    | None => None
    | Some (Some vel_bc) =>
        match bm vel_bc with
        | None => None
        | Some b => Some (velocity b (coordinates s vt) (soln_time s))
        end
    | Some None =>
        match boundary_conditions m bm s vt rhs with
        | None => None
        | Some rs =>
            let rhs' := fst rs in
            let sn := snd rs in
            match sn with
            | [] => Some (solve Mp rhs')
            | _ :: _ =>
                let num_rows := (num_dimensions + length sn)%nat in
                let Ab := symmetry_system Mp rhs' sn in
                let b' := qr num_rows (fst Ab) (snd Ab) in
                Some (for_each_dim num_dimensions (fun d (_ : real_t) => b' d)
                        (node_velocity s vt))
            end
        end
    end
  else Some (solve Mp rhs).

(** One iteration of the loop over the vertices. *)
Definition vertex_step (m : mesh_topology) (bm : boundary_map_t)
  (a : hydro_state) (vt : nat) : option hydro_state :=
  match nodal_velocity m bm a vt with
  | None => None
  | Some u => Some (set_node_velocity a (upd (node_velocity a) vt u))
  end.

(** A loop whose body may throw. *)
Definition fold_throw {S : Type} (step : S -> nat -> option S)
  (es : list nat) (s : option S) : option S :=
  fold_left
    (fun acc e => match acc with None => None | Some a => step a e end)
    es s.

Definition evaluate_nodal_state (m : mesh_topology) (bm : boundary_map_t)
  (s : hydro_state) : option hydro_state :=
  fold_throw (vertex_step m bm) (vertices m) (Some s).

(** Every tag the loop looks up is a key of the boundary map. *)
Definition boundary_map_covers (m : mesh_topology) (bm : boundary_map_t)
  : Prop :=
  (forall v t, In v (vertices m) -> In t (vertex_tags m v) ->
               bm t <> None) /\
  (forall v w t, In v (vertices m) -> In w (wedges_of_vertex m v) ->
                 In t (face_tags m (front (faces_of_wedge m w))) ->
                 bm t <> None).

(** What the vertex loop reads and never writes. *)
Definition nodal_inputs (s s' : hydro_state) : Prop :=
  cell_pressure s' = cell_pressure s /\ cell_velocity s' = cell_velocity s /\
  corner_matrix s' = corner_matrix s /\ corner_normal s' = corner_normal s /\
  coordinates s' = coordinates s /\ geometry s' = geometry s /\
  soln_time s' = soln_time s.

(** The keys of a [std::map] are strictly ascending. *)
Fixpoint smap_sorted {V : Type} (m : list (tag_t * V)) : Prop :=
  match m with
  | [] => True
  | (k, _) :: m' =>
      (forall k', In k' (map fst m') -> (k < k')%nat) /\ smap_sorted m'
  end.

(** A tag whose condition takes the symmetry branch of the [if]/[else if]:
    no prescribed pressure, and symmetry. *)
Definition is_symmetry_tag (bm : boundary_map_t) (tag : tag_t) : bool :=
  match bm tag with
  | Some b => negb (has_prescribed_pressure b) && has_symmetry b
  | None => false
  end.

(** The boundary wedges of the vertex [v] whose face carries [tag]. *)
Definition tagged_wedges (m : mesh_topology) (v : nat) (tag : tag_t)
  : list nat :=
  filter
    (fun w => existsb (Nat.eqb tag) (face_tags m (front (faces_of_wedge m w))))
    (filter_boundary m (wedges_of_vertex m v)).

(** The saddle-point matrix of section 4.5: [[M, S^T], [S, 0]], the rows
    of [S] being the constraint normals. *)
Definition saddle_point (Mp : matrix_t) (normals : list vector_t)
  (i j : nat) : real_t :=
  if (i <? num_dimensions)%nat then
    if (j <? num_dimensions)%nat then Mp i j
    else nth (j - num_dimensions) normals vzero i
  else
    if (j <? num_dimensions)%nat then nth (i - num_dimensions) normals vzero j
    else r0.

(** ** Edge length (burton_2d_edge_t::length, burton_3d_edge_t::length) *)

Definition burton_2d_edge_length (m : mesh_topology) (s : hydro_state)
  (e : nat) : real_t :=
  let vs := vertices_of_edge m e in
  let a := coordinates s (nth 0 vs 0) in
  let b := coordinates s (nth 1 vs 0) in
  rsqrt (sqr (a 0 - b 0) + sqr (a 1 - b 1)).

Definition burton_3d_edge_length (m : mesh_topology) (s : hydro_state)
  (e : nat) : real_t :=
  let vs := vertices_of_edge m e in
  let a := coordinates s (nth 0 vs 0) in
  let b := coordinates s (nth 1 vs 0) in
  rsqrt (sqr (a 0 - b 0) + sqr (a 1 - b 1)).

(** The Euclidean distance of two points in [dims] dimensions: the square
    root of the sum, over all [dims] coordinates, of the squared
    differences. *)
Definition euclidean_distance (dims : nat) (a b : vector_t) : real_t :=
  match sum1 (map (fun d => sqr (a d - b d)) (seq 0 dims)) with
  | Some x => rsqrt x
  | None => rsqrt r0
  end.

(** ** initial_conditions (tasks.h, 33-67) *)

Definition set_cell_mass (s : hydro_state) (f : nat -> real_t) :=
  {| cell_mass := f; cell_pressure := cell_pressure s;
     cell_velocity := cell_velocity s; cell_density := cell_density s;
     cell_internal_energy := cell_internal_energy s;
     cell_temperature := cell_temperature s;
     cell_sound_speed := cell_sound_speed s;
     cell_velocity_1 := cell_velocity_1 s;
     cell_internal_energy_1 := cell_internal_energy_1 s;
     cell_residual := cell_residual s; node_velocity := node_velocity s;
     node_coordinates := node_coordinates s;
     corner_matrix := corner_matrix s; corner_normal := corner_normal s;
     coordinates := coordinates s; geometry := geometry s;
     time_step := time_step s; cfl := cfl s; soln_time := soln_time s |}.

Definition set_cell_pressure (s : hydro_state) (f : nat -> real_t) :=
  {| cell_mass := cell_mass s; cell_pressure := f;
     cell_velocity := cell_velocity s; cell_density := cell_density s;
     cell_internal_energy := cell_internal_energy s;
     cell_temperature := cell_temperature s;
     cell_sound_speed := cell_sound_speed s;
     cell_velocity_1 := cell_velocity_1 s;
     cell_internal_energy_1 := cell_internal_energy_1 s;
     cell_residual := cell_residual s; node_velocity := node_velocity s;
     node_coordinates := node_coordinates s;
     corner_matrix := corner_matrix s; corner_normal := corner_normal s;
     coordinates := coordinates s; geometry := geometry s;
     time_step := time_step s; cfl := cfl s; soln_time := soln_time s |}.

(** The body of the loop over the cells:
    [std::tie(d, v[c], p[c]) = ics(xc[c], soln_time); M[c] = d*vol[c];].
    [xc] is the [cell_centroid] field of the mesh, [t] the time read
    before the loop. *)
Definition initial_conditions_step (xc : nat -> vector_t)
  (ics : vector_t -> real_t -> real_t * vector_t * real_t) (t : real_t)
  (acc : hydro_state) (c : nat) : hydro_state :=
  let r := ics (xc c) t in
  let d := fst (fst r) in
  let acc1 := set_cell_velocity acc (upd (cell_velocity acc) c (snd (fst r))) in
  let acc2 := set_cell_pressure acc1 (upd (cell_pressure acc1) c (snd r)) in
  set_cell_mass acc2
    (upd (cell_mass acc2) c (d * cell_volume (geometry acc2) c)).

Definition initial_conditions (m : mesh_topology) (xc : nat -> vector_t)
  (ics : vector_t -> real_t -> real_t * vector_t * real_t) (s : hydro_state)
  : hydro_state :=
  fold_left (initial_conditions_step xc ics (soln_time s)) (cells m) s.

(** ** output (tasks.h, 907-929) *)

(** [std::setw(w)] with [std::setfill(fill)] on a right-aligned field: the
    text is padded on the left up to [w] characters, never cut. *)
Definition fill_string (n : nat) (fill : ascii) : string :=
  string_of_list_ascii (repeat fill n).

Definition setw_setfill (w : nat) (fill : ascii) (text : string) : string :=
  (fill_string (w - String.length text) fill ++ text)%string.

(** [ss << cnt] of an unsigned counter: its decimal digits. *)
Definition decimal_digits (cnt : nat) : string :=
  NilEmpty.string_of_uint (Nat.to_uint cnt).

(** The file name [output] builds and passes to [mesh::write_mesh];
    [None] when it returns before writing. [cnt] is
    [mesh.time_step_counter()]. *)
Definition output (cnt : nat) (prefix postfix : string) (output_freq : nat)
  : option string :=
  if (output_freq <? 1)%nat then None
  else if negb (Nat.eqb (cnt mod output_freq) 0) then None
  else
    Some (prefix ++ setw_setfill 7 "0"%char (decimal_digits cnt)
          ++ ("." ++ postfix))%string.

(** Reading a field of decimal digits back. *)
Definition read_decimal (text : string) : option nat :=
  option_map Nat.of_uint (NilEmpty.uint_of_string text).

(** ** burton_quadrilateral_t (burton_entity_types.h) *)

(** [create_entities(dim, e, v, vertex_count)]: the vertex ids written to
    [e] and the returned counts; [None] when an [assert] fails. *)
Definition quad_create_entities (dim : nat) (v : list nat)
  : option (list nat * list nat) :=
  if negb (Nat.eqb dim 1) then None
  else if negb (Nat.eqb (length v) 4) then None
  else
    Some ([nth 0 v 0; nth 1 v 0; nth 1 v 0; nth 2 v 0;
           nth 2 v 0; nth 3 v 0; nth 3 v 0; nth 0 v 0]%nat,
          [2; 2; 2; 2]%nat).

(** [create_bound_entities(from, to, dim, ent_ids, ent_counts, c)] of the
    two-dimensional quadrilateral: the ids written to [c] and the returned
    counts; [None] when the [assert] fails or the runtime error is raised.
    [ent_counts[0]] is the length of [ent_ids[0]]. *)
Definition quad_create_bound_entities (dim : nat) (ent_ids : list (list nat))
  : option (list nat * list nat) :=
  let vertex k := nth k (nth 0 ent_ids []) 0%nat in
  let edge k := nth k (nth 1 ent_ids []) 0%nat in
  if negb (Nat.eqb (length (nth 0 ent_ids [])) 4) then None
  else
    match dim with
    | 1%nat =>
        Some ([vertex 0; edge 0; edge 3;
               vertex 1; edge 1; edge 0;
               vertex 2; edge 2; edge 1;
               vertex 3; edge 3; edge 2]%nat,
              [3; 3; 3; 3]%nat)
    | _ => None
    end.

(** The two ends of the [k]-th edge written by [create_entities]. *)
Definition edge_ends (e : list nat) (k : nat) : nat * nat :=
  (nth (2 * k) e 0%nat, nth (2 * k + 1) e 0%nat).

(** ** min_length (burton_2d_cell_t, burton_3d_face_t, burton_3d_cell_t) *)

(** [math::abs] of a vector is not among the sources. *)
Variable vector_abs : vector_t -> real_t.

(** [std::min(a, b)]: [(b < a) ? b : a]. *)
Definition std_min (a b : real_t) : real_t := if rlt b a then b else a.

(** [pi - pj] *)
Definition vector_sub (x y : vector_t) : vector_t :=
  for_each_dim num_dimensions (fun d xd => xd - y d) x.

(** The two loops over the vertices of the element, from the reference
    length [init]. *)
Definition min_length_pairs (s : hydro_state) (vs : list nat) (init : real_t)
  : real_t :=
  fold_left
    (fun ml vi =>
       fold_left
         (fun ml vj =>
            if Nat.eqb vi vj then ml
            else
              std_min
                (vector_abs (vector_sub (coordinates s vi) (coordinates s vj)))
                ml)
         vs ml)
    vs init.

(** [vs] and [es] are the vertices and the edges of the element,
    [entities<0,0>(this)] and [entities<1,0>(this)]. *)
Definition burton_2d_cell_min_length (m : mesh_topology) (s : hydro_state)
  (vs es : list nat) : real_t :=
  min_length_pairs s vs (burton_2d_edge_length m s (front es)).


(** ** Frames and intermediate quantities of the proofs *)

(** What the corner loop reads and never writes. *)
Definition corner_inputs (s s' : hydro_state) : Prop :=
  geometry s' = geometry s /\ cell_density s' = cell_density s /\
  cell_sound_speed s' = cell_sound_speed s.

(** What the force loop reads and never writes. *)
Definition force_inputs (s s' : hydro_state) : Prop :=
  cell_pressure s' = cell_pressure s /\ cell_velocity s' = cell_velocity s /\
  node_velocity s' = node_velocity s /\ corner_matrix s' = corner_matrix s /\
  corner_normal s' = corner_normal s.

(** The tags of a list that take the symmetry branch for [tag]. *)
Definition symmetry_hits (bm : boundary_map_t) (tag : tag_t)
  (ts : list tag_t) : list tag_t :=
  filter (fun t => Nat.eqb t tag && is_symmetry_tag bm t) ts.

(** The normal of a tag after one more wedge. *)
Definition normal_step (s : hydro_state) (o : option vector_t) (w : nat)
  : option vector_t :=
  Some (add_symmetry_normal (wedge_facet_area (geometry s) w)
          (wedge_facet_normal (geometry s) w) o).

(** The wedges that add to the normal of [tag], one entry per hit. *)
Definition normal_wedges (m : mesh_topology) (bm : boundary_map_t)
  (tag : tag_t) (ws : list nat) : list nat :=
  flat_map
    (fun w =>
       map (fun _ => w)
         (symmetry_hits bm tag (face_tags m (front (faces_of_wedge m w)))))
    ws.

(** Every field other than [node_velocity] is the same in [s] and [s']. *)
Definition same_but_node_velocity (s s' : hydro_state) : Prop :=
  cell_mass s' = cell_mass s /\ cell_pressure s' = cell_pressure s /\
  cell_velocity s' = cell_velocity s /\ cell_density s' = cell_density s /\
  cell_internal_energy s' = cell_internal_energy s /\
  cell_temperature s' = cell_temperature s /\
  cell_sound_speed s' = cell_sound_speed s /\
  cell_velocity_1 s' = cell_velocity_1 s /\
  cell_internal_energy_1 s' = cell_internal_energy_1 s /\
  cell_residual s' = cell_residual s /\
  node_coordinates s' = node_coordinates s /\
  corner_matrix s' = corner_matrix s /\ corner_normal s' = corner_normal s /\
  coordinates s' = coordinates s /\ geometry s' = geometry s /\
  time_step s' = time_step s /\ cfl s' = cfl s /\ soln_time s' = soln_time s.

(** Every field other than [corner_matrix] and [corner_normal] is the same
    in [s] and [s']. *)
Definition same_but_corner_fields (s s' : hydro_state) : Prop :=
  cell_mass s' = cell_mass s /\ cell_pressure s' = cell_pressure s /\
  cell_velocity s' = cell_velocity s /\ cell_density s' = cell_density s /\
  cell_internal_energy s' = cell_internal_energy s /\
  cell_temperature s' = cell_temperature s /\
  cell_sound_speed s' = cell_sound_speed s /\
  cell_velocity_1 s' = cell_velocity_1 s /\
  cell_internal_energy_1 s' = cell_internal_energy_1 s /\
  cell_residual s' = cell_residual s /\
  node_velocity s' = node_velocity s /\
  node_coordinates s' = node_coordinates s /\
  coordinates s' = coordinates s /\ geometry s' = geometry s /\
  time_step s' = time_step s /\ cfl s' = cfl s /\ soln_time s' = soln_time s.

(** Every field other than [cell_mass], [cell_velocity] and
    [cell_pressure] is the same in [s] and [s']. *)
Definition same_but_initial_fields (s s' : hydro_state) : Prop :=
  cell_density s' = cell_density s /\
  cell_internal_energy s' = cell_internal_energy s /\
  cell_temperature s' = cell_temperature s /\
  cell_sound_speed s' = cell_sound_speed s /\
  cell_velocity_1 s' = cell_velocity_1 s /\
  cell_internal_energy_1 s' = cell_internal_energy_1 s /\
  cell_residual s' = cell_residual s /\
  node_velocity s' = node_velocity s /\
  node_coordinates s' = node_coordinates s /\
  corner_matrix s' = corner_matrix s /\ corner_normal s' = corner_normal s /\
  coordinates s' = coordinates s /\ geometry s' = geometry s /\
  time_step s' = time_step s /\ cfl s' = cfl s /\ soln_time s' = soln_time s.

(** Every field other than [cell_residual] is the same in [s] and [s']. *)
Definition same_but_residual (s s' : hydro_state) : Prop :=
  cell_mass s' = cell_mass s /\ cell_pressure s' = cell_pressure s /\
  cell_velocity s' = cell_velocity s /\ cell_density s' = cell_density s /\
  cell_internal_energy s' = cell_internal_energy s /\
  cell_temperature s' = cell_temperature s /\
  cell_sound_speed s' = cell_sound_speed s /\
  cell_velocity_1 s' = cell_velocity_1 s /\
  cell_internal_energy_1 s' = cell_internal_energy_1 s /\
  node_velocity s' = node_velocity s /\
  node_coordinates s' = node_coordinates s /\
  corner_matrix s' = corner_matrix s /\ corner_normal s' = corner_normal s /\
  coordinates s' = coordinates s /\ geometry s' = geometry s /\
  time_step s' = time_step s /\ cfl s' = cfl s /\ soln_time s' = soln_time s.

(** The step factor of [move_mesh]. *)
Definition move_vertex_step (fact : real_t) (acc : hydro_state) (vt : nat)
  : hydro_state :=
  set_coordinates acc
    (upd (coordinates acc) vt
       (for_each_dim num_dimensions
          (fun d x => x + fact * node_velocity acc vt d)
          (coordinates acc vt))).

(** The prescribed-pressure conditions met by the loop over the boundary
    wedges [ws] and the tags of their faces, in the order of the loop. *)
Definition pressure_hits (m : mesh_topology) (bm : boundary_map_t)
  (ws : list nat) : list (nat * boundary_condition_t) :=
  flat_map
    (fun w =>
       flat_map
         (fun tag =>
            match bm tag with
            | Some b => if has_prescribed_pressure b then [(w, b)] else []
            | None => []
            end)
         (face_tags m (front (faces_of_wedge m w))))
    ws.

(** [rhs[d] -= l * pressure(x, t) * n[d]] for one hit. *)
Definition pressure_term (s : hydro_state) (d : nat) (x : real_t)
  (wb : nat * boundary_condition_t) : real_t :=
  x - wedge_facet_area (geometry s) (fst wb)
      * pressure (snd wb) (wedge_facet_centroid (geometry s) (fst wb))
          (soln_time s)
      * wedge_facet_normal (geometry s) (fst wb) d.

(** The inverse acoustic and volumetric time scales of one cell, as the
    reduction loop of [evaluate_time_step] computes them. *)
Definition inverse_acoustic_scale (s : hydro_state) (c : nat) : real_t :=
  cell_sound_speed s c / cell_min_length (geometry s) c / accoustic (cfl s).

Definition inverse_volumetric_scale (s : hydro_state) (c : nat) : real_t :=
  rabs (volumetric_rate_of_change (cell_residual s c))
  / cell_volume (geometry s) c / volume (cfl s).

(** The reduction [dt_vol_inv = std::max(dti, dt_vol_inv)] over the
    cells [cs], from 0. *)
Definition dt_vol_inv_over (s : hydro_state) (cs : list nat) : real_t :=
  fold_left (fun mx c => std_max (inverse_volumetric_scale s c) mx) cs r0.

(** The distances [abs(pi - pj)] the two loops of [min_length] visit. *)
Definition vertex_distance (s : hydro_state) (vi vj : nat) : real_t :=
  vector_abs (vector_sub (coordinates s vi) (coordinates s vj)).

Definition pair_distances (s : hydro_state) (vs : list nat) : list real_t :=
  flat_map
    (fun vi =>
       flat_map
         (fun vj => if Nat.eqb vi vj then [] else [vertex_distance s vi vj])
         vs)
    vs.

(** The entries of the point system [(Mp, rhs)] of a vertex, as the loop
    over its corners adds them up from 0. *)
Definition point_matrix_entry (m : mesh_topology) (s : hydro_state)
  (vt i j : nat) : real_t :=
  fold_left (fun x cn => x + corner_matrix s cn i j)
    (corners_of_vertex m vt) r0.

Definition point_rhs_entry (m : mesh_topology) (s : hydro_state)
  (vt d : nat) : real_t :=
  fold_left
    (fun x cn =>
       x + cell_pressure s (front (cells_of_corner m cn)) * corner_normal s cn d
       + mat_vec (corner_matrix s cn)
           (cell_velocity s (front (cells_of_corner m cn))) d)
    (corners_of_vertex m vt) r0.

(** * Properties *)

(** ** Arrays and loops *)

Lemma upd_same (A : Type) (f : nat -> A) (i : nat) (x : A) :
  upd f i x i = x.
Proof. unfold upd. now rewrite Nat.eqb_refl. Qed.

Lemma upd_other (A : Type) (f : nat -> A) (i j : nat) (x : A) :
  j <> i -> upd f i x j = f j.
Proof.
  intro Hne. unfold upd.
  destruct (Nat.eqb_spec j i) as [Heq | _]; [contradiction | reflexivity].
Qed.

Lemma for_each_dim_from (A : Type) (g : nat -> A -> A) (n a : nat)
  (x : nat -> A) (d : nat) :
  fold_left (fun acc d => upd acc d (g d (acc d))) (seq a n) x d =
  if (a <=? d)%nat && (d <? a + n)%nat then g d (x d) else x d.
Proof.
  revert a x. induction n as [| n IH]; intros a x; simpl.
  - replace (d <? a + 0)%nat with (d <? a)%nat by (f_equal; lia).
    destruct (Nat.leb_spec a d), (Nat.ltb_spec d a); simpl; trivial; lia.
  - rewrite IH.
    destruct (Nat.eq_dec d a) as [-> | Hne].
    + rewrite upd_same.
      replace (S a <=? a)%nat with false by (symmetry; apply Nat.leb_gt; lia).
      replace (a <=? a)%nat with true by (symmetry; apply Nat.leb_le; lia).
      replace (a <? a + S n)%nat with true by (symmetry; apply Nat.ltb_lt; lia).
      reflexivity.
    + rewrite upd_other by assumption.
      replace (d <? S a + n)%nat with (d <? a + S n)%nat by (f_equal; lia).
      destruct (Nat.leb_spec (S a) d), (Nat.leb_spec a d); simpl; trivial; lia.
Qed.

(** A loop over the components rewrites exactly the components below its
    bound. *)
Lemma for_each_dim_spec (A : Type) (n : nat) (g : nat -> A -> A)
  (x : nat -> A) (d : nat) :
  for_each_dim n g x d = if (d <? n)%nat then g d (x d) else x d.
Proof.
  unfold for_each_dim. rewrite for_each_dim_from. reflexivity.
Qed.

Lemma for_each_dim_below (A : Type) (n : nat) (g : nat -> A -> A)
  (x : nat -> A) (d : nat) :
  (d < n)%nat -> for_each_dim n g x d = g d (x d).
Proof.
  intro Hd. rewrite for_each_dim_spec.
  now replace (d <? n)%nat with true by (symmetry; apply Nat.ltb_lt; lia).
Qed.

(** A loop over entities whose body, under an invariant [inv] it keeps,
    writes entry [e] of [get] with a value satisfying [Q e] and leaves the
    other entries: after the loop every listed entity satisfies [Q]. *)
Lemma entity_loop (S V : Type) (step : S -> nat -> S) (get : S -> nat -> V)
  (inv : S -> Prop) (Q : nat -> V -> Prop) :
  (forall s e, inv s -> inv (step s e)) ->
  (forall s e, inv s -> Q e (get (step s e) e)) ->
  (forall s e e', e' <> e -> get (step s e) e' = get s e') ->
  forall es s, inv s ->
    inv (fold_left step es s) /\
    forall e, In e es -> Q e (get (fold_left step es s) e).
Proof.
  intros Hinv Hwrite Hother.
  assert (Hskip : forall es s e, ~ In e es ->
                    get (fold_left step es s) e = get s e).
  { induction es as [| a es IH]; intros s e Hn; cbn [fold_left].
    - reflexivity.
    - rewrite IH by (intro H; apply Hn; now right).
      apply Hother. intro Heq. apply Hn. now left. }
  induction es as [| a es IH]; intros s Hs; cbn [fold_left].
  - split; [exact Hs | intros e []].
  - destruct (IH (step s a) (Hinv s a Hs)) as [Hi Hq].
    split; [exact Hi |]. intros e Hin.
    destruct (in_dec Nat.eq_dec e es) as [Hes | Hnes].
    + now apply Hq.
    + destruct Hin as [-> | Hin]; [| contradiction].
      rewrite Hskip by assumption. now apply Hwrite.
Qed.

(** ** Coordinates: save, move, restore *)

Lemma save_coordinates_fold (vs : list nat) (s : hydro_state) :
  let s' :=
    fold_left
      (fun acc vt =>
         set_node_coordinates acc
           (upd (node_coordinates acc) vt (coordinates acc vt))) vs s in
  coordinates s' = coordinates s /\
  forall v, node_coordinates s' v =
            if existsb (Nat.eqb v) vs then coordinates s v
            else node_coordinates s v.
Proof.
  revert s. induction vs as [| a vs IH]; intros s; simpl.
  - split; reflexivity.
  - destruct (IH (set_node_coordinates s
                    (upd (node_coordinates s) a (coordinates s a))))
      as [Hc Hn].
    simpl in Hc, Hn. split; [exact Hc |].
    intro v. rewrite Hn. unfold upd.
    destruct (Nat.eqb_spec v a) as [-> | _]; simpl.
    + now destruct (existsb (Nat.eqb a) vs).
    + reflexivity.
Qed.

Lemma move_vertices_fold (fact : real_t) (vs : list nat) (s : hydro_state) :
  let s' :=
    fold_left
      (fun acc vt =>
         set_coordinates acc
           (upd (coordinates acc) vt
              (for_each_dim num_dimensions
                 (fun d x => x + fact * node_velocity acc vt d)
                 (coordinates acc vt)))) vs s in
  node_coordinates s' = node_coordinates s.
Proof.
  revert s. induction vs as [| a vs IH]; intros s; simpl.
  - reflexivity.
  - rewrite IH. reflexivity.
Qed.

Lemma move_mesh_node_coordinates (m : mesh_topology) (coef : real_t)
  (s : hydro_state) :
  node_coordinates (move_mesh m coef s) = node_coordinates s.
Proof.
  unfold move_mesh, update_geometry. simpl.
  apply move_vertices_fold.
Qed.

Lemma restore_coordinates_fold (vs : list nat) (s : hydro_state) :
  let s' :=
    fold_left
      (fun acc vt =>
         set_coordinates acc
           (upd (coordinates acc) vt (node_coordinates acc vt))) vs s in
  node_coordinates s' = node_coordinates s /\
  forall v, coordinates s' v =
            if existsb (Nat.eqb v) vs then node_coordinates s v
            else coordinates s v.
Proof.
  revert s. induction vs as [| a vs IH]; intros s; simpl.
  - split; reflexivity.
  - destruct (IH (set_coordinates s
                    (upd (coordinates s) a (node_coordinates s a))))
      as [Hn Hc].
    simpl in Hc, Hn. split; [exact Hn |].
    intro v. rewrite Hc. unfold upd.
    destruct (Nat.eqb_spec v a) as [-> | _]; simpl.
    + now destruct (existsb (Nat.eqb a) vs).
    + reflexivity.
Qed.

Lemma existsb_eqb_In (v : nat) (vs : list nat) :
  In v vs -> existsb (Nat.eqb v) vs = true.
Proof.
  intro Hin. apply existsb_exists. exists v. split; [exact Hin |].
  apply Nat.eqb_refl.
Qed.

(** C8. For every topology, state and step factor, [save_coordinates],
    then [move_mesh], then [restore_coordinates] gives every vertex of the
    mesh the coordinate vector it had before [save_coordinates]: the very
    same value, no arithmetic is applied to it. *)
Theorem save_move_restore_coordinates (m : mesh_topology) (coef : real_t)
  (s : hydro_state) (v : nat) :
  In v (vertices m) ->
  coordinates
    (restore_coordinates m (move_mesh m coef (save_coordinates m s))) v =
  coordinates s v.
Proof.
  intro Hin. unfold restore_coordinates.
  destruct (restore_coordinates_fold (vertices m)
              (move_mesh m coef (save_coordinates m s))) as [_ Hc].
  rewrite Hc, (existsb_eqb_In _ _ Hin).
  rewrite move_mesh_node_coordinates. unfold save_coordinates.
  destruct (save_coordinates_fold (vertices m) s) as [_ Hn].
  now rewrite Hn, (existsb_eqb_In _ _ Hin).
Qed.

(** ** Solution snapshots *)

Lemma same_but_snapshot_refl (s : hydro_state) : same_but_snapshot s s.
Proof. unfold same_but_snapshot. repeat split. Qed.

Lemma same_but_working_refl (s : hydro_state) : same_but_working s s.
Proof. unfold same_but_working. repeat split. Qed.

Ltac frame_trans H :=
  let rec go H :=
    lazymatch type of H with
    | _ /\ _ =>
        let H1 := fresh in let H2 := fresh in
        destruct H as [H1 H2];
        split; [exact (eq_trans H1 eq_refl) | go H2]
    | _ => exact (eq_trans H eq_refl)
    end in
  go H.

Lemma save_solution_fold (cs : list nat) (s : hydro_state) :
  same_but_snapshot s (fold_left save_solution_step cs s) /\
  forall c,
    cell_velocity_1 (fold_left save_solution_step cs s) c =
      (if existsb (Nat.eqb c) cs then cell_velocity s c
       else cell_velocity_1 s c) /\
    cell_internal_energy_1 (fold_left save_solution_step cs s) c =
      (if existsb (Nat.eqb c) cs then cell_internal_energy s c
       else cell_internal_energy_1 s c).
Proof.
  revert s. induction cs as [| a cs IH]; intros s.
  - split; [apply same_but_snapshot_refl | intro c; split; reflexivity].
  - cbn [fold_left]. destruct (IH (save_solution_step s a)) as [Hf Hc].
    split.
    + unfold same_but_snapshot in *. frame_trans Hf.
    + intro c. destruct (Hc c) as [Hv He]. rewrite Hv, He.
      cbn [existsb]. unfold save_solution_step; cbn. unfold upd.
      destruct (Nat.eqb_spec c a) as [-> | _]; cbn.
      * now destruct (existsb (Nat.eqb a) cs).
      * split; reflexivity.
Qed.

Lemma restore_solution_fold (cs : list nat) (s : hydro_state) :
  same_but_working s (fold_left restore_solution_step cs s) /\
  forall c,
    cell_velocity (fold_left restore_solution_step cs s) c =
      (if existsb (Nat.eqb c) cs then cell_velocity_1 s c
       else cell_velocity s c) /\
    cell_internal_energy (fold_left restore_solution_step cs s) c =
      (if existsb (Nat.eqb c) cs then cell_internal_energy_1 s c
       else cell_internal_energy s c).
Proof.
  revert s. induction cs as [| a cs IH]; intros s.
  - split; [apply same_but_working_refl | intro c; split; reflexivity].
  - cbn [fold_left]. destruct (IH (restore_solution_step s a)) as [Hf Hc].
    split.
    + unfold same_but_working in *. frame_trans Hf.
    + intro c. destruct (Hc c) as [Hv He]. rewrite Hv, He.
      cbn [existsb]. unfold restore_solution_step; cbn. unfold upd.
      destruct (Nat.eqb_spec c a) as [-> | _]; cbn.
      * now destruct (existsb (Nat.eqb a) cs).
      * split; reflexivity.
Qed.

(** C10. [save_solution] writes version 1 of [cell_velocity] and of
    [cell_internal_energy], for every cell of the mesh, with the version 0
    values, and [restore_solution] writes version 0 of these two fields
    with the version 1 values; each of them leaves every other field of
    the state as it was (mass, volume and the rest of the geometry,
    pressure, density, temperature, sound speed, the residual, all vertex
    and corner fields, the coordinates and the globals), and the entries
    of cells outside the mesh too. *)
Theorem save_restore_solution_frame (m : mesh_topology) (s : hydro_state) :
  (same_but_snapshot s (save_solution m s) /\
   forall c,
     (In c (cells m) ->
      cell_velocity_1 (save_solution m s) c = cell_velocity s c /\
      cell_internal_energy_1 (save_solution m s) c =
        cell_internal_energy s c) /\
     (~ In c (cells m) ->
      cell_velocity_1 (save_solution m s) c = cell_velocity_1 s c /\
      cell_internal_energy_1 (save_solution m s) c =
        cell_internal_energy_1 s c)) /\
  (same_but_working s (restore_solution m s) /\
   forall c,
     (In c (cells m) ->
      cell_velocity (restore_solution m s) c = cell_velocity_1 s c /\
      cell_internal_energy (restore_solution m s) c =
        cell_internal_energy_1 s c) /\
     (~ In c (cells m) ->
      cell_velocity (restore_solution m s) c = cell_velocity s c /\
      cell_internal_energy (restore_solution m s) c =
        cell_internal_energy s c)).
Proof.
  assert (Hnot : forall c cs, ~ In c cs -> existsb (Nat.eqb c) cs = false).
  { intros c cs Hn. destruct (existsb (Nat.eqb c) cs) eqn:E; trivial.
    apply existsb_exists in E. destruct E as [x [Hx Hcx]].
    apply Nat.eqb_eq in Hcx. subst x. contradiction. }
  split.
  - destruct (save_solution_fold (cells m) s) as [Hf Hc].
    split; [exact Hf |]. intro c. fold (save_solution m s) in Hc.
    destruct (Hc c) as [Hv He]. split; intro Hin.
    + rewrite (existsb_eqb_In _ _ Hin) in Hv, He. now split.
    + rewrite (Hnot _ _ Hin) in Hv, He. now split.
  - destruct (restore_solution_fold (cells m) s) as [Hf Hc].
    split; [exact Hf |]. intro c. fold (restore_solution m s) in Hc.
    destruct (Hc c) as [Hv He]. split; intro Hin.
    + rewrite (existsb_eqb_In _ _ Hin) in Hv, He. now split.
    + rewrite (Hnot _ _ Hin) in Hv, He. now split.
Qed.

(** ** estimate_nodal_state *)

Lemma estimate_cell_fold (v : nat) (cs : list nat) (a : hydro_state) :
  cell_velocity (fold_left (estimate_cell_step v) cs a) = cell_velocity a /\
  (forall v', v' <> v ->
     node_velocity (fold_left (estimate_cell_step v) cs a) v' =
     node_velocity a v') /\
  forall d, (d < num_dimensions)%nat ->
    node_velocity (fold_left (estimate_cell_step v) cs a) v d =
    fold_left radd (map (fun c => cell_velocity a c d) cs)
      (node_velocity a v d).
Proof.
  revert a. induction cs as [| c cs IH]; intros a; cbn [fold_left map].
  - repeat split.
  - destruct (IH (estimate_cell_step v a c)) as [Hc [Ho Hv]].
    split; [exact Hc |]. split.
    + intros v' Hne. rewrite (Ho v' Hne). cbn. now apply upd_other.
    + intros d Hd. rewrite (Hv d Hd). cbn. rewrite upd_same.
      unfold vector_add. now rewrite for_each_dim_below.
Qed.

Lemma estimate_vertex_step_spec (m : mesh_topology) (s : hydro_state)
  (v : nat) :
  cell_velocity (estimate_vertex_step m s v) = cell_velocity s /\
  (forall v', v' <> v ->
     node_velocity (estimate_vertex_step m s v) v' = node_velocity s v') /\
  forall d, (d < num_dimensions)%nat ->
    node_velocity (estimate_vertex_step m s v) v d =
    sum_list (map (fun c => cell_velocity s c d) (cells_of_vertex m v))
    / rsize (length (cells_of_vertex m v)).
Proof.
  unfold estimate_vertex_step.
  set (acc0 := set_node_velocity s (upd (node_velocity s) v vzero)).
  destruct (estimate_cell_fold v (cells_of_vertex m v) acc0) as [Hc [Ho Hv]].
  split; [exact Hc |]. split.
  - intros v' Hne. cbn. rewrite upd_other by assumption.
    rewrite (Ho v' Hne). subst acc0. cbn. now apply upd_other.
  - intros d Hd. cbn. rewrite upd_same. unfold vector_div.
    rewrite for_each_dim_below by assumption. rewrite (Hv d Hd).
    subst acc0. cbn. rewrite upd_same. reflexivity.
Qed.

(** C9. For every vertex [v] of the mesh with at least one incident cell,
    each component of the velocity [estimate_nodal_state] leaves at [v] is
    the sum of that component of the velocities of the cells incident to
    [v], taken in the order of [mesh.cells(v)] from 0, divided by their
    number; so two states whose cell velocities agree on these cells get
    the same velocity at [v], whatever their other fields hold. *)
Theorem estimate_nodal_state_mean (m : mesh_topology) (s : hydro_state)
  (v d : nat) :
  In v (vertices m) -> cells_of_vertex m v <> [] ->
  (d < num_dimensions)%nat ->
  node_velocity (estimate_nodal_state m s) v d =
    sum_list (map (fun c => cell_velocity s c d) (cells_of_vertex m v))
    / rsize (length (cells_of_vertex m v)) /\
  forall s2,
    (forall c, In c (cells_of_vertex m v) ->
               cell_velocity s2 c d = cell_velocity s c d) ->
    node_velocity (estimate_nodal_state m s2) v d =
    node_velocity (estimate_nodal_state m s) v d.
Proof.
  intros Hv _ Hd.
  assert (Hmean : forall s0,
            node_velocity (estimate_nodal_state m s0) v d =
            sum_list (map (fun c => cell_velocity s0 c d)
                        (cells_of_vertex m v))
            / rsize (length (cells_of_vertex m v))).
  { intro s0. unfold estimate_nodal_state.
    destruct (entity_loop (estimate_vertex_step m) node_velocity
                (fun a => cell_velocity a = cell_velocity s0)
                (fun e u =>
                   forall d, (d < num_dimensions)%nat ->
                     u d =
                     sum_list (map (fun c => cell_velocity s0 c d)
                                 (cells_of_vertex m e))
                     / rsize (length (cells_of_vertex m e))))
      with (es := vertices m) (s := s0) as [_ Hq].
    - intros a e Ha.
      destruct (estimate_vertex_step_spec m a e) as [Hc _]. congruence.
    - intros a e Ha d' Hd'.
      destruct (estimate_vertex_step_spec m a e) as [_ [_ Hw]].
      rewrite (Hw d' Hd'), Ha. reflexivity.
    - intros a e e' Hne.
      destruct (estimate_vertex_step_spec m a e) as [_ [Ho _]]. now apply Ho.
    - reflexivity.
    - now apply Hq. }
  split; [apply Hmean |].
  intros s2 Hagree. rewrite !Hmean. f_equal. f_equal.
  apply map_ext_in. exact Hagree.
Qed.

(** ** evaluate_corner_coef *)

Lemma outer_product_spec (a b : vector_t) (C : matrix_t) (fact : real_t)
  (i j : nat) :
  (i < num_dimensions)%nat -> (j < num_dimensions)%nat ->
  outer_product a b C fact i j = C i j + fact * (a i * b j).
Proof.
  intros Hi Hj. unfold outer_product.
  rewrite for_each_dim_below by assumption.
  now rewrite for_each_dim_below by assumption.
Qed.

Lemma corner_wedge_fold (cn : nat) (zc : real_t) (ws : list nat)
  (acc : hydro_state) :
  corner_inputs acc (fold_left (corner_wedge_step cn zc) ws acc) /\
  (forall cn', cn' <> cn ->
     corner_matrix (fold_left (corner_wedge_step cn zc) ws acc) cn' =
       corner_matrix acc cn' /\
     corner_normal (fold_left (corner_wedge_step cn zc) ws acc) cn' =
       corner_normal acc cn') /\
  (forall i j, (i < num_dimensions)%nat -> (j < num_dimensions)%nat ->
     corner_matrix (fold_left (corner_wedge_step cn zc) ws acc) cn i j =
     fold_left radd
       (map (fun w =>
               zc * wedge_facet_area (geometry acc) w
               * (wedge_facet_normal (geometry acc) w i
                  * wedge_facet_normal (geometry acc) w j)) ws)
       (corner_matrix acc cn i j)) /\
  (forall d, (d < num_dimensions)%nat ->
     corner_normal (fold_left (corner_wedge_step cn zc) ws acc) cn d =
     fold_left radd
       (map (fun w =>
               wedge_facet_area (geometry acc) w
               * wedge_facet_normal (geometry acc) w d) ws)
       (corner_normal acc cn d)).
Proof.
  revert acc. induction ws as [| w ws IH]; intros acc; cbn [fold_left map].
  - unfold corner_inputs. repeat split.
  - destruct (IH (corner_wedge_step cn zc acc w)) as [Hin [Ho [Hm Hn]]].
    split; [| split; [| split]].
    + unfold corner_inputs in *. frame_trans Hin.
    + intros cn' Hne. destruct (Ho cn' Hne) as [H1 H2].
      rewrite H1, H2. cbn. now rewrite !upd_other by assumption.
    + intros i j Hi Hj. rewrite (Hm i j Hi Hj). cbn. rewrite upd_same.
      now rewrite outer_product_spec by assumption.
    + intros d Hd. rewrite (Hn d Hd). cbn. rewrite upd_same.
      now rewrite for_each_dim_below by assumption.
Qed.

Lemma corner_step_spec (m : mesh_topology) (s : hydro_state) (cn : nat) :
  corner_inputs s (corner_step m s cn) /\
  (forall cn', cn' <> cn ->
     corner_matrix (corner_step m s cn) cn' = corner_matrix s cn' /\
     corner_normal (corner_step m s cn) cn' = corner_normal s cn') /\
  (forall i j, (i < num_dimensions)%nat -> (j < num_dimensions)%nat ->
     corner_matrix (corner_step m s cn) cn i j =
     sum_list
       (map (fun w =>
               cell_density s (front (cells_of_corner m cn))
               * cell_sound_speed s (front (cells_of_corner m cn))
               * wedge_facet_area (geometry s) w
               * (wedge_facet_normal (geometry s) w i
                  * wedge_facet_normal (geometry s) w j))
          (wedges_of_corner m cn))) /\
  (forall d, (d < num_dimensions)%nat ->
     corner_normal (corner_step m s cn) cn d =
     sum_list
       (map (fun w =>
               wedge_facet_area (geometry s) w
               * wedge_facet_normal (geometry s) w d)
          (wedges_of_corner m cn))).
Proof.
  unfold corner_step.
  set (acc0 := set_corner_normal _ _).
  set (zc := _ * _).
  destruct (corner_wedge_fold cn zc (wedges_of_corner m cn) acc0)
    as [Hin [Ho [Hm Hn]]].
  split; [| split; [| split]].
  - exact Hin.
  - intros cn' Hne. destruct (Ho cn' Hne) as [H1 H2]. rewrite H1, H2.
    subst acc0. cbn. now rewrite !upd_other by assumption.
  - intros i j Hi Hj. rewrite (Hm i j Hi Hj). subst acc0 zc. cbn.
    rewrite upd_same. reflexivity.
  - intros d Hd. rewrite (Hn d Hd). subst acc0. cbn.
    rewrite upd_same. reflexivity.
Qed.

(** C1. For every corner [cn] of the mesh, with [c] its cell,
    [evaluate_corner_coef] takes the impedance [z = rho_c * a_c] (density
    times sound speed of the cell, no velocity-jump term) and leaves in the
    corner matrix the sum over the wedges [w] of [cn] of
    [z * l_w * (n_w (x) n_w)] and in the corner normal the sum over these
    wedges of [l_w * n_w], with [l_w] and [n_w] the facet area and the facet
    normal of the wedge; the sums run in the order of [mesh.wedges(cn)]. *)
Theorem evaluate_corner_coef_sums (m : mesh_topology) (s : hydro_state)
  (cn : nat) :
  In cn (corners m) ->
  let c := front (cells_of_corner m cn) in
  let z := cell_density s c * cell_sound_speed s c in
  let l := wedge_facet_area (geometry s) in
  let n := wedge_facet_normal (geometry s) in
  (forall i j, (i < num_dimensions)%nat -> (j < num_dimensions)%nat ->
     corner_matrix (evaluate_corner_coef m s) cn i j =
     sum_list (map (fun w => z * l w * (n w i * n w j))
                 (wedges_of_corner m cn))) /\
  (forall d, (d < num_dimensions)%nat ->
     corner_normal (evaluate_corner_coef m s) cn d =
     sum_list (map (fun w => l w * n w d) (wedges_of_corner m cn))).
Proof.
  intros Hcn c z l n. unfold evaluate_corner_coef.
  destruct (entity_loop (corner_step m)
              (fun a e => (corner_matrix a e, corner_normal a e))
              (corner_inputs s)
              (fun e Mn =>
                 (forall i j,
                     (i < num_dimensions)%nat -> (j < num_dimensions)%nat ->
                     fst Mn i j =
                     sum_list
                       (map (fun w =>
                               cell_density s (front (cells_of_corner m e))
                               * cell_sound_speed s
                                   (front (cells_of_corner m e))
                               * wedge_facet_area (geometry s) w
                               * (wedge_facet_normal (geometry s) w i
                                  * wedge_facet_normal (geometry s) w j))
                          (wedges_of_corner m e))) /\
                 (forall d, (d < num_dimensions)%nat ->
                     snd Mn d =
                     sum_list
                       (map (fun w =>
                               wedge_facet_area (geometry s) w
                               * wedge_facet_normal (geometry s) w d)
                          (wedges_of_corner m e)))))
    with (es := corners m) (s := s) as [_ Hq].
  - intros a e Ha. destruct (corner_step_spec m a e) as [Hin _].
    unfold corner_inputs in *. destruct Ha as [G [D A]], Hin as [G' [D' A']].
    repeat split; congruence.
  - intros a e [G [D A]]. destruct (corner_step_spec m a e) as [_ [_ [Hm Hn]]].
    cbn [fst snd]. split.
    + intros i j Hi Hj. rewrite (Hm i j Hi Hj), G, D, A. reflexivity.
    + intros d Hd. rewrite (Hn d Hd), G. reflexivity.
  - intros a e e' Hne. destruct (corner_step_spec m a e) as [_ [Ho _]].
    destruct (Ho e' Hne) as [H1 H2]. now rewrite H1, H2.
  - unfold corner_inputs. repeat split.
  - destruct (Hq cn Hcn) as [Hm Hn]. cbn [fst snd] in Hm, Hn.
    split; assumption.
Qed.

(** ** evaluate_forces *)

Lemma sum_list_map_ext (f g : nat -> real_t) (l : list nat) :
  (forall d, In d l -> f d = g d) ->
  sum_list (map f l) = sum_list (map g l).
Proof. intro H. f_equal. now apply map_ext_in. Qed.

Lemma dot_product_ext (a a' b : vector_t) :
  (forall d, (d < num_dimensions)%nat -> a d = a' d) ->
  dot_product a b = dot_product a' b.
Proof.
  intro H. unfold dot_product. apply sum_list_map_ext.
  intros d Hd. apply in_seq in Hd. rewrite H by lia. reflexivity.
Qed.

Lemma mat_vec_ext (A : matrix_t) (x x' : vector_t) (i : nat) :
  (forall d, (d < num_dimensions)%nat -> x d = x' d) ->
  mat_vec A x i = mat_vec A x' i.
Proof.
  intro H. unfold mat_vec. apply sum_list_map_ext.
  intros d Hd. apply in_seq in Hd. rewrite H by lia. reflexivity.
Qed.

Lemma pair_fill_fold (f g : nat -> real_t) (l : list nat) (x y : vector_t) :
  fold_left
    (fun (fd : vector_t * vector_t) d =>
       (upd (fst fd) d (f d), upd (snd fd) d (g d))) l (x, y) =
  (fold_left (fun acc d => upd acc d (f d)) l x,
   fold_left (fun acc d => upd acc d (g d)) l y).
Proof.
  revert x y. induction l as [| d l IH]; intros x y; cbn [fold_left fst snd].
  - reflexivity.
  - apply IH.
Qed.

Lemma fill_fold_below (f : nat -> real_t) (n : nat) (x : vector_t) (d : nat) :
  (d < n)%nat ->
  fold_left (fun acc d0 => upd acc d0 (f d0)) (seq 0 n) x d = f d.
Proof.
  intro Hd. exact (for_each_dim_below (fun d0 (_ : real_t) => f d0) x Hd).
Qed.

Lemma corner_force_spec (m : mesh_topology) (s : hydro_state) (cl cn d : nat) :
  (d < num_dimensions)%nat ->
  corner_force m s cl cn d = subcell_force m s cl cn d.
Proof.
  intro Hd. unfold corner_force, subcell_force. rewrite pair_fill_fold.
  cbn [fst snd]. unfold ax_plus_y.
  rewrite for_each_dim_below by assumption.
  rewrite fill_fold_below by assumption. f_equal.
  apply mat_vec_ext. intros j Hj.
  now rewrite fill_fold_below by assumption.
Qed.

Lemma subcell_force_inputs (m : mesh_topology) (s s' : hydro_state)
  (c cn d : nat) :
  force_inputs s s' -> subcell_force m s' c cn d = subcell_force m s c cn d.
Proof.
  intros [Hp [Hu [Hv [Hm Hn]]]]. unfold subcell_force.
  now rewrite Hp, Hu, Hv, Hm, Hn.
Qed.

Lemma force_fold (m : mesh_topology) (s0 : hydro_state) (cl : nat)
  (cns : list nat) (acc : hydro_state) :
  force_inputs s0 acc ->
  force_inputs s0 (fold_left (force_step m cl) cns acc) /\
  (forall c', c' <> cl ->
     cell_residual (fold_left (force_step m cl) cns acc) c' =
     cell_residual acc c') /\
  (forall d, (d < num_dimensions)%nat ->
     dmomentum_dt (cell_residual (fold_left (force_step m cl) cns acc) cl) d =
     fold_left (fun x cn => x - subcell_force m s0 cl cn d) cns
       (dmomentum_dt (cell_residual acc cl) d)) /\
  denergy_dt (cell_residual (fold_left (force_step m cl) cns acc) cl) =
  fold_left
    (fun x cn =>
       x - dot_product (subcell_force m s0 cl cn)
             (node_velocity s0 (front (vertices_of_corner m cn))))
    cns (denergy_dt (cell_residual acc cl)).
Proof.
  revert acc. induction cns as [| cn cns IH]; intros acc Hacc;
    cbn [fold_left].
  - repeat split; apply Hacc.
  - assert (Hstep : force_inputs s0 (force_step m cl acc cn)).
    { unfold force_inputs in *. cbn. exact Hacc. }
    destruct (IH _ Hstep) as [Hin [Ho [Hm He]]].
    split; [exact Hin |]. split; [| split].
    + intros c' Hne. rewrite (Ho c' Hne). cbn. now apply upd_other.
    + intros d Hd. rewrite (Hm d Hd). cbn. rewrite upd_same. cbn.
      rewrite for_each_dim_below by assumption.
      rewrite corner_force_spec by assumption.
      now rewrite (subcell_force_inputs m cl cn d Hacc).
    + rewrite He. cbn. rewrite upd_same. cbn.
      destruct Hacc as [Hp [Hu [Hv [HM HN]]]]. rewrite Hv.
      f_equal. f_equal. apply dot_product_ext. intros d Hd.
      rewrite corner_force_spec by assumption.
      apply subcell_force_inputs. unfold force_inputs. auto.
Qed.

(** C3. For every cell [c] of the mesh and every corner [cn] of [c], with
    [v] the vertex of the corner, [evaluate_forces] computes the force
    [F_cn = p_c * N_cn + M_cn * (u_c - u_v)] from the pressure and velocity
    of the cell, the nodal velocity of [v] and the corner matrix and
    normal; the residual of the cell is reset and the forces of the
    corners of [c] are accumulated into it: each force is taken from the
    momentum rate, and its work at the nodal velocity from the energy
    rate. *)
Theorem evaluate_forces_subcell (m : mesh_topology) (s : hydro_state)
  (cl : nat) :
  In cl (cells m) ->
  (forall cn d, (d < num_dimensions)%nat ->
     corner_force m s cl cn d =
     cell_pressure s cl * corner_normal s cn d
     + mat_vec (corner_matrix s cn)
         (fun j =>
            cell_velocity s cl j
            - node_velocity s (front (vertices_of_corner m cn)) j) d) /\
  (forall d, (d < num_dimensions)%nat ->
     dmomentum_dt (cell_residual (evaluate_forces m s) cl) d =
     fold_left (fun x cn => x - subcell_force m s cl cn d)
       (corners_of_cell m cl) r0) /\
  denergy_dt (cell_residual (evaluate_forces m s) cl) =
  fold_left
    (fun x cn =>
       x - dot_product (subcell_force m s cl cn)
             (node_velocity s (front (vertices_of_corner m cn))))
    (corners_of_cell m cl) r0.
Proof.
  intro Hcl. split.
  { intros cn d Hd. now rewrite corner_force_spec. }
  unfold evaluate_forces.
  destruct (entity_loop (cell_force_step m) cell_residual
              (force_inputs s)
              (fun e r =>
                 (forall d, (d < num_dimensions)%nat ->
                    dmomentum_dt r d =
                    fold_left (fun x cn => x - subcell_force m s e cn d)
                      (corners_of_cell m e) r0) /\
                 denergy_dt r =
                 fold_left
                   (fun x cn =>
                      x - dot_product (subcell_force m s e cn)
                            (node_velocity s
                               (front (vertices_of_corner m cn))))
                   (corners_of_cell m e) r0))
    with (es := cells m) (s := s) as [_ Hq].
  - intros a e Ha. unfold cell_force_step.
    now apply (force_fold m e (corners_of_cell m e)).
  - intros a e Ha. unfold cell_force_step.
    set (acc0 := set_cell_residual a _).
    assert (H0 : force_inputs s acc0) by exact Ha.
    destruct (force_fold m e (corners_of_cell m e) H0) as [_ [_ [Hm He]]].
    split.
    + intros d Hd. rewrite (Hm d Hd). subst acc0. cbn.
      rewrite upd_same. reflexivity.
    + rewrite He. subst acc0. cbn. rewrite upd_same. reflexivity.
  - intros a e e' Hne. unfold cell_force_step.
    set (acc0 := set_cell_residual a _).
    assert (H0 : force_inputs a acc0) by (unfold force_inputs; cbn; auto).
    destruct (force_fold m e (corners_of_cell m e) H0) as [_ [Ho _]].
    rewrite (Ho e' Hne). subst acc0. cbn. now apply upd_other.
  - unfold force_inputs. auto.
  - exact (Hq cl Hcl).
Qed.

(** ** evaluate_time_step *)

Lemma min_element_three (a v g : real_t) :
  (forall x, rlt x x = false) ->
  (forall x y z, rlt x y = true -> rlt y z = true -> rlt x z = true) ->
  let it := min_element a [v; g] in
  (fst it = 0%nat /\ snd it = a \/ fst it = 1%nat /\ snd it = v \/
   fst it = 2%nat /\ snd it = g) /\
  rlt a (snd it) = false /\ rlt v (snd it) = false /\
  rlt g (snd it) = false.
Proof.
  intros Hirr Htr. unfold min_element. cbn [min_element_from].
  assert (Hasym : forall x y, rlt x y = true -> rlt y x = false).
  { intros x y Hxy. destruct (rlt y x) eqn:E; trivial.
    rewrite <- (Hirr x). symmetry. now apply Htr with y. }
  assert (Hneg : forall x y z, rlt x y = true -> rlt z y = false ->
                               rlt z x = false).
  { intros x y z Hxy Hzy. destruct (rlt z x) eqn:E; trivial.
    rewrite <- Hzy. symmetry. now apply Htr with x. }
  destruct (rlt v a) eqn:Eva; destruct (rlt g _) eqn:Eg; cbn [fst snd].
  - split; [right; right; now split |].
    repeat split; auto. apply Hneg with v; auto.
  - split; [right; left; now split |]. repeat split; auto.
  - split; [right; right; now split |].
    repeat split; auto. now apply Hneg with a.
  - split; [left; now split |]. repeat split; auto.
Qed.

(** C4. The growth limit of [evaluate_time_step] is the product
    [cfl->growth * time_step] of the growth constant and the previous
    step; when the assertion on the inverse time scales holds, and [<] is
    irreflexive and transitive, the task returns with the new step one of
    the acoustic, volumetric and growth limits that none of the three is
    below. *)
Theorem evaluate_time_step_minimum (m : mesh_topology) (s : hydro_state) :
  (forall x, rlt x x = false) ->
  (forall x y z, rlt x y = true -> rlt y z = true -> rlt x z = true) ->
  rlt r0 (fst (inverse_time_scales m s)) = true ->
  rlt r0 (snd (inverse_time_scales m s)) = true ->
  dt_growth s = growth (cfl s) * time_step s /\
  exists dt name,
    evaluate_time_step m s = Some (set_time_step s dt, name) /\
    In dt [dt_acc m s; dt_vol m s; dt_growth s] /\
    rlt (dt_acc m s) dt = false /\ rlt (dt_vol m s) dt = false /\
    rlt (dt_growth s) dt = false.
Proof.
  intros Hirr Htr Ha Hv. split; [reflexivity |].
  unfold evaluate_time_step. rewrite Ha, Hv. cbn [andb].
  destruct (min_element_three (dt_acc m s) (dt_vol m s) (dt_growth s)
              Hirr Htr) as [Hpos [H1 [H2 H3]]].
  destruct Hpos as [[Hi Hx] | [[Hi Hx] | [Hi Hx]]]; rewrite Hi;
    eexists; eexists; (split; [reflexivity |]);
    (split; [rewrite Hx | repeat split; assumption]).
  - left. reflexivity.
  - right. left. reflexivity.
  - right. right. left. reflexivity.
Qed.

Lemma zero_volume_rate_fold (s : hydro_state) (cs : list nat)
  (acc : real_t * real_t) :
  rabs r0 = r0 -> (forall x, x <> r0 -> r0 / x = r0) ->
  rlt r0 r0 = false ->
  (forall c, In c cs ->
     volumetric_rate_of_change (cell_residual s c) = r0 /\
     cell_volume (geometry s) c <> r0) ->
  volume (cfl s) <> r0 ->
  snd acc = r0 ->
  snd (fold_left
         (fun (acc : real_t * real_t) c =>
            let dti :=
              cell_sound_speed s c / cell_min_length (geometry s) c
              / accoustic (cfl s) in
            let dt_acc_inv := std_max dti (fst acc) in
            let dVdt := volumetric_rate_of_change (cell_residual s c) in
            let dti :=
              rabs dVdt / cell_volume (geometry s) c / volume (cfl s) in
            (dt_acc_inv, std_max dti (snd acc))) cs acc) = r0.
Proof.
  intros Habs Hdiv Hlt Hcs Hcfl. revert acc.
  induction cs as [| c cs IH]; intros acc Hacc; cbn [fold_left].
  - exact Hacc.
  - apply IH.
    + intros c' Hc'. apply Hcs. now right.
    + cbn [snd]. destruct (Hcs c (or_introl eq_refl)) as [Hrate Hvol].
      rewrite Hrate, Habs, (Hdiv _ Hvol), (Hdiv _ Hcfl), Hacc.
      unfold std_max. now rewrite Hlt.
Qed.

(** The build with assertions: when every cell of the mesh has dV/dt = 0
    (volumes and the volume constant not 0, |0| = 0, 0/x = 0 and not
    0 < 0), the inverse volumetric time scale [dt_vol_inv] is 0 after the
    loop and the debugging assertion [dt_acc_inv > 0 && dt_vol_inv > 0]
    stops the run. *)
Lemma evaluate_time_step_zero_volume_rate (m : mesh_topology)
  (s : hydro_state) :
  rabs r0 = r0 -> (forall x, x <> r0 -> r0 / x = r0) ->
  rlt r0 r0 = false ->
  (forall c, In c (cells m) ->
     volumetric_rate_of_change (cell_residual s c) = r0 /\
     cell_volume (geometry s) c <> r0) ->
  volume (cfl s) <> r0 ->
  snd (inverse_time_scales m s) = r0 /\ evaluate_time_step m s = None.
Proof.
  intros Habs Hdiv Hlt Hcs Hcfl.
  assert (Hz : snd (inverse_time_scales m s) = r0).
  { unfold inverse_time_scales.
    now apply zero_volume_rate_fold. }
  split; [exact Hz |].
  unfold evaluate_time_step. rewrite Hz, Hlt.
  now rewrite andb_false_r.
Qed.

(** ** evaluate_nodal_state: the loop and the prescribed velocity *)

Lemma fold_throw_none (S : Type) (step : S -> nat -> option S)
  (es : list nat) : fold_throw step es None = None.
Proof. induction es as [| e es IH]; [reflexivity | exact IH]. Qed.

(** [entity_loop] for a body that may throw: when the body returns on
    every listed entity, so does the loop. *)
Lemma entity_loop_throw (S V : Type) (step : S -> nat -> option S)
  (get : S -> nat -> V) (inv : S -> Prop) (ok : nat -> Prop)
  (Q : nat -> V -> Prop) :
  (forall s e, inv s -> ok e ->
     exists s', step s e = Some s' /\ inv s' /\ Q e (get s' e) /\
                forall e', e' <> e -> get s' e' = get s e') ->
  forall es s, inv s -> (forall e, In e es -> ok e) ->
    exists s', fold_throw step es (Some s) = Some s' /\ inv s' /\
               (forall e, In e es -> Q e (get s' e)) /\
               forall e, ~ In e es -> get s' e = get s e.
Proof.
  intros Hstep. induction es as [| a es IH]; intros s Hs Hok.
  - exists s. repeat split; trivial. intros e [].
  - destruct (Hstep s a Hs (Hok a (or_introl eq_refl)))
      as [s1 [E1 [I1 [Q1 O1]]]].
    destruct (IH s1 I1 (fun e H => Hok e (or_intror H)))
      as [s' [E' [I' [Q' O']]]].
    exists s'. unfold fold_throw in *. cbn [fold_left]. rewrite E1.
    split; [exact E' |]. split; [exact I' |]. split.
    + intros e Hin. destruct (in_dec Nat.eq_dec e es) as [Hes | Hnes].
      * now apply Q'.
      * destruct Hin as [-> | Hin]; [| contradiction].
        rewrite (O' e Hnes). exact Q1.
    + intros e Hn. rewrite O'.
      * apply O1. intro Heq. apply Hn. now left.
      * intro H. apply Hn. now right.
Qed.

Lemma find_velocity_bc_covered (bm : boundary_map_t) (tags : list tag_t) :
  (forall t, In t tags -> bm t <> None) ->
  (find_velocity_bc bm tags = Some None /\
   forall t b, In t tags -> bm t = Some b ->
               has_prescribed_velocity b = false) \/
  exists pre t post b,
    find_velocity_bc bm tags = Some (Some t) /\ tags = pre ++ t :: post /\
    bm t = Some b /\ has_prescribed_velocity b = true /\
    forall t' b', In t' pre -> bm t' = Some b' ->
                  has_prescribed_velocity b' = false.
Proof.
  induction tags as [| t tags IH]; intro Hcov.
  - left. split; [reflexivity | intros t b []].
  - cbn [find_velocity_bc].
    destruct (bm t) as [b |] eqn:Et.
    2:{ exfalso. apply (Hcov t); [now left | exact Et]. }
    destruct (has_prescribed_velocity b) eqn:Ev.
    + right. exists [], t, tags, b. repeat split; trivial.
      intros t' b' [].
    + destruct (IH (fun t' H => Hcov t' (or_intror H)))
        as [[Hf Hall] | [pre [t1 [post [b1 [Hf [Ht [Hb [Hv Hpre]]]]]]]]].
      * left. split; [exact Hf |]. intros t' b' [<- | Hin] Hb'.
        -- congruence.
        -- now apply (Hall t' b').
      * right. exists (t :: pre), t1, post, b1.
        repeat split; trivial.
        -- now rewrite Ht.
        -- intros t' b' [<- | Hin] Hb'; [congruence |].
           now apply (Hpre t' b').
Qed.

Lemma tag_fold_covered (bm : boundary_map_t) (s : hydro_state) (w : nat)
  (ts : list tag_t) (rhs : vector_t) (sn : list (tag_t * vector_t)) :
  (forall t, In t ts -> bm t <> None) ->
  exists rhs' sn',
    fold_left (tag_step bm s w) ts (Some (rhs, sn)) = Some (rhs', sn').
Proof.
  revert rhs sn. induction ts as [| t ts IH]; intros rhs sn Hcov.
  - now exists rhs, sn.
  - cbn [fold_left tag_step].
    destruct (bm t) as [b |] eqn:Et.
    2:{ exfalso. apply (Hcov t); [now left | exact Et]. }
    destruct (has_prescribed_pressure b); [| destruct (has_symmetry b)];
      apply IH; intros t' H; apply Hcov; now right.
Qed.

Lemma wedge_fold_covered (m : mesh_topology) (bm : boundary_map_t)
  (s : hydro_state) (ws : list nat) (rhs : vector_t)
  (sn : list (tag_t * vector_t)) :
  (forall w t, In w ws ->
     In t (face_tags m (front (faces_of_wedge m w))) -> bm t <> None) ->
  exists rhs' sn',
    fold_left (wedge_step m bm s) ws (Some (rhs, sn)) = Some (rhs', sn').
Proof.
  revert rhs sn. induction ws as [| w ws IH]; intros rhs sn Hcov.
  - now exists rhs, sn.
  - cbn [fold_left]. unfold wedge_step at 2.
    destruct (tag_fold_covered bm s w
                (face_tags m (front (faces_of_wedge m w))) rhs sn)
      as [rhs1 [sn1 E1]].
    { intros t Ht. apply (Hcov w t); [now left | exact Ht]. }
    rewrite E1. apply IH. intros w' t Hw. apply Hcov. now right.
Qed.

Lemma boundary_conditions_covered (m : mesh_topology) (bm : boundary_map_t)
  (s : hydro_state) (v : nat) (rhs : vector_t) :
  boundary_map_covers m bm -> In v (vertices m) ->
  exists rhs' sn, boundary_conditions m bm s v rhs = Some (rhs', sn).
Proof.
  intros [_ Hcov] Hv. unfold boundary_conditions.
  apply wedge_fold_covered. intros w t Hw.
  apply (Hcov v w t Hv). unfold filter_boundary in Hw.
  now apply filter_In in Hw.
Qed.

Lemma nodal_velocity_covered (m : mesh_topology) (bm : boundary_map_t)
  (s : hydro_state) (v : nat) :
  boundary_map_covers m bm -> In v (vertices m) ->
  exists u, nodal_velocity m bm s v = Some u.
Proof.
  intros Hcov Hv. unfold nodal_velocity.
  destruct (vertex_is_boundary m v); [| eauto].
  destruct (find_velocity_bc_covered bm (vertex_tags m v))
    as [[Hf _] | [pre [t [post [b [Hf [_ [Hb _]]]]]]]].
  { intros t Ht. destruct Hcov as [Hc _]. now apply (Hc v t). }
  - rewrite Hf.
    destruct (@boundary_conditions_covered m bm s v
                (snd (point_system m s v)) Hcov Hv) as [rhs' [sn E]].
    rewrite E. cbn [fst snd]. destruct sn; eauto.
  - rewrite Hf, Hb. eauto.
Qed.

(** The loop returns when the boundary map covers the tags, and then every
    vertex of the mesh holds what the body computes for it from a state
    with the fields the loop reads. *)
Lemma evaluate_nodal_state_vertices (m : mesh_topology)
  (bm : boundary_map_t) (s : hydro_state) :
  boundary_map_covers m bm ->
  exists s',
    evaluate_nodal_state m bm s = Some s' /\ nodal_inputs s s' /\
    forall v, In v (vertices m) ->
      exists a, nodal_inputs s a /\
                nodal_velocity m bm a v = Some (node_velocity s' v).
Proof.
  intro Hcov. unfold evaluate_nodal_state.
  destruct (entity_loop_throw (vertex_step m bm) node_velocity
              (nodal_inputs s) (fun v => In v (vertices m))
              (fun v u => exists a, nodal_inputs s a /\
                                    nodal_velocity m bm a v = Some u))
    with (es := vertices m) (s := s) as [s' [E [I [Q _]]]].
  - intros a e Ha He.
    destruct (@nodal_velocity_covered m bm a e Hcov He) as [u Eu].
    exists (set_node_velocity a (upd (node_velocity a) e u)).
    unfold vertex_step. rewrite Eu. split; [reflexivity |].
    split; [exact Ha |]. split.
    + exists a. cbn. rewrite upd_same. now split.
    + intros e' Hne. cbn. now apply upd_other.
  - unfold nodal_inputs. repeat split.
  - auto.
  - exists s'. auto.
Qed.

(** C6. For every boundary vertex [v] of the mesh one of whose tags
    carries a prescribed-velocity condition (the boundary map holding a
    condition for every tag the loop looks up), [evaluate_nodal_state]
    returns and the velocity of [v] is the value of the velocity callback
    of the first such tag of [v] at the coordinates of [v] and the solution
    time: the whole vector is the value of the callback, neither
    [math::solve] nor [qr] nor any wedge or pressure term enters it. *)
Theorem prescribed_velocity_vertex (m : mesh_topology) (bm : boundary_map_t)
  (s : hydro_state) (v : nat) :
  boundary_map_covers m bm -> In v (vertices m) ->
  vertex_is_boundary m v = true ->
  (exists t b, In t (vertex_tags m v) /\ bm t = Some b /\
               has_prescribed_velocity b = true) ->
  exists s' pre t post b,
    evaluate_nodal_state m bm s = Some s' /\
    vertex_tags m v = pre ++ t :: post /\ bm t = Some b /\
    has_prescribed_velocity b = true /\
    (forall t' b', In t' pre -> bm t' = Some b' ->
                   has_prescribed_velocity b' = false) /\
    node_velocity s' v = velocity b (coordinates s v) (soln_time s).
Proof.
  intros Hcov Hv Hbnd [t0 [b0 [Ht0 [Hb0 Hv0]]]].
  destruct (@evaluate_nodal_state_vertices m bm s Hcov) as [s' [E [_ Hq]]].
  destruct (Hq v Hv) as [a [Ha Hu]].
  destruct (find_velocity_bc_covered bm (vertex_tags m v))
    as [[_ Hall] | [pre [t [post [b [Hf [Ht [Hb [Hvel Hpre]]]]]]]]].
  { intros t Ht. destruct Hcov as [Hc _]. now apply (Hc v t). }
  - rewrite (Hall t0 b0 Ht0 Hb0) in Hv0. discriminate.
  - exists s', pre, t, post, b. repeat split; trivial.
    unfold nodal_velocity in Hu. rewrite Hbnd, Hf, Hb in Hu.
    destruct Ha as [_ [_ [_ [_ [Hc [_ Ht']]]]]].
    rewrite Hc, Ht' in Hu. now inversion Hu.
Qed.

(** ** std::map *)

Lemma smap_find_above (V : Type) (k : tag_t) (m : list (tag_t * V)) :
  (forall k', In k' (map fst m) -> (k < k')%nat) -> smap_find k m = None.
Proof.
  induction m as [| [k0 v0] m IH]; intro Habove; cbn [smap_find].
  - reflexivity.
  - assert (k < k0)%nat by (apply Habove; now left).
    destruct (Nat.eqb_spec k k0); [lia |].
    apply IH. intros k' Hk'. apply Habove. now right.
Qed.

Lemma smap_find_upsert_same (V : Type) (k : tag_t) (f : option V -> V)
  (m : list (tag_t * V)) :
  smap_sorted m -> smap_find k (smap_upsert k f m) = Some (f (smap_find k m)).
Proof.
  induction m as [| [k0 v0] m IH]; intro Hs; cbn [smap_upsert smap_find].
  - now rewrite Nat.eqb_refl.
  - destruct Hs as [Habove Hs].
    destruct (Nat.ltb_spec k k0) as [Hlt | Hge].
    + cbn [smap_find]. rewrite Nat.eqb_refl.
      destruct (Nat.eqb_spec k k0); [lia |].
      rewrite smap_find_above; [reflexivity |].
      intros k' Hk'. specialize (Habove k' Hk'). lia.
    + destruct (Nat.eqb_spec k k0) as [-> | Hne]; cbn [smap_find].
      * now rewrite Nat.eqb_refl.
      * destruct (Nat.eqb_spec k k0); [contradiction |]. now apply IH.
Qed.

Lemma smap_find_upsert_other (V : Type) (k k' : tag_t) (f : option V -> V)
  (m : list (tag_t * V)) :
  k' <> k -> smap_find k' (smap_upsert k f m) = smap_find k' m.
Proof.
  intro Hne. induction m as [| [k0 v0] m IH]; cbn [smap_upsert smap_find].
  - destruct (Nat.eqb_spec k' k); [contradiction | reflexivity].
  - destruct (Nat.ltb_spec k k0) as [Hlt | Hge].
    + cbn [smap_find]. destruct (Nat.eqb_spec k' k); [contradiction |].
      reflexivity.
    + destruct (Nat.eqb_spec k k0) as [-> | Hne0]; cbn [smap_find].
      * destruct (Nat.eqb_spec k' k0); [contradiction | reflexivity].
      * destruct (Nat.eqb_spec k' k0); [reflexivity | exact IH].
Qed.

Ltac split_ors :=
  repeat match goal with
         | H : _ \/ _ |- _ => destruct H
         | H : False |- _ => destruct H
         end;
  subst; cbn [In]; auto.

Lemma smap_upsert_keys (V : Type) (k k' : tag_t) (f : option V -> V)
  (m : list (tag_t * V)) :
  In k' (map fst (smap_upsert k f m)) <-> k' = k \/ In k' (map fst m).
Proof.
  induction m as [| [k0 v0] m IH]; cbn [smap_upsert map fst In].
  - split; intro H; split_ors.
  - destruct (Nat.ltb_spec k k0) as [Hlt | Hge]; cbn [map fst In].
    + split; intro H; split_ors.
    + destruct (Nat.eqb_spec k k0) as [-> | Hne0]; cbn [map fst In].
      * split; intro H; split_ors.
      * rewrite IH. split; intro H; split_ors.
Qed.

Lemma smap_upsert_sorted (V : Type) (k : tag_t) (f : option V -> V)
  (m : list (tag_t * V)) :
  smap_sorted m -> smap_sorted (smap_upsert k f m).
Proof.
  induction m as [| [k0 v0] m IH]; intro Hs; cbn [smap_upsert].
  - cbn. split; [intros k' [] | exact I].
  - destruct Hs as [Habove Hs].
    destruct (Nat.ltb_spec k k0) as [Hlt | Hge].
    + cbn [smap_sorted]. split; [| now split].
      cbn [map fst]. intros k' [<- | Hk']; [exact Hlt |].
      specialize (Habove k' Hk'). lia.
    + destruct (Nat.eqb_spec k k0) as [-> | Hne0]; cbn [smap_sorted].
      * now split.
      * split; [| now apply IH].
        intros k' Hk'. apply smap_upsert_keys in Hk'.
        destruct Hk' as [-> | Hk']; [lia | now apply Habove].
Qed.

Lemma smap_sorted_NoDup (V : Type) (m : list (tag_t * V)) :
  smap_sorted m -> NoDup (map fst m).
Proof.
  induction m as [| [k0 v0] m IH]; intro Hs; cbn [map fst].
  - constructor.
  - destruct Hs as [Habove Hs]. constructor; [| now apply IH].
    intro Hin. specialize (Habove k0 Hin). lia.
Qed.

Lemma smap_find_keys (V : Type) (k : tag_t) (m : list (tag_t * V)) :
  In k (map fst m) <-> smap_find k m <> None.
Proof.
  induction m as [| [k0 v0] m IH]; cbn [map fst In smap_find].
  - split; [intros [] | congruence].
  - destruct (Nat.eqb_spec k k0) as [-> | Hne].
    + split; [discriminate | now left].
    + rewrite <- IH. split; [intros [H | H]; congruence | now right].
Qed.

(** ** The symmetry normals of a boundary vertex *)

Lemma symmetry_hits_cons (bm : boundary_map_t) (tag t : tag_t)
  (ts : list tag_t) :
  symmetry_hits bm tag (t :: ts) =
  if Nat.eqb t tag && is_symmetry_tag bm t
  then t :: symmetry_hits bm tag ts else symmetry_hits bm tag ts.
Proof. reflexivity. Qed.

Lemma tag_fold_none (bm : boundary_map_t) (s : hydro_state) (w : nat)
  (ts : list tag_t) : fold_left (tag_step bm s w) ts None = None.
Proof. induction ts as [| t ts IH]; [reflexivity | exact IH]. Qed.

Lemma wedge_fold_none (m : mesh_topology) (bm : boundary_map_t)
  (s : hydro_state) (ws : list nat) :
  fold_left (wedge_step m bm s) ws None = None.
Proof.
  induction ws as [| w ws IH]; [reflexivity |].
  cbn [fold_left]. unfold wedge_step at 2. now rewrite tag_fold_none.
Qed.

Lemma tag_fold_normals (bm : boundary_map_t) (s : hydro_state) (w : nat)
  (ts : list tag_t) (rhs : vector_t) (sn : list (tag_t * vector_t))
  (rhs' : vector_t) (sn' : list (tag_t * vector_t)) :
  smap_sorted sn ->
  fold_left (tag_step bm s w) ts (Some (rhs, sn)) = Some (rhs', sn') ->
  smap_sorted sn' /\
  forall tag,
    smap_find tag sn' =
    fold_left (normal_step s) (map (fun _ => w) (symmetry_hits bm tag ts))
      (smap_find tag sn).
Proof.
  revert rhs sn. induction ts as [| t ts IH]; intros rhs sn Hs E.
  - cbn in E. inversion E; subst. split; [exact Hs | reflexivity].
  - cbn [fold_left] in E. unfold tag_step at 2 in E.
    destruct (bm t) as [b |] eqn:Et.
    2:{ rewrite tag_fold_none in E. discriminate. }
    assert (Hsym : is_symmetry_tag bm t =
                   negb (has_prescribed_pressure b) && has_symmetry b).
    { unfold is_symmetry_tag. now rewrite Et. }
    destruct (has_prescribed_pressure b) eqn:Ep;
      [| destruct (has_symmetry b) eqn:Ey]; cbn [negb andb] in Hsym.
    + destruct (IH _ _ Hs E) as [Hs' Hf]. split; [exact Hs' |].
      intro tag. rewrite (Hf tag), symmetry_hits_cons, Hsym.
      now rewrite andb_false_r.
    + destruct (IH _ _ (smap_upsert_sorted t _ sn Hs) E) as [Hs' Hf].
      split; [exact Hs' |]. intro tag.
      rewrite (Hf tag), symmetry_hits_cons, Hsym, andb_true_r.
      destruct (Nat.eqb_spec t tag) as [-> | Hne]; cbn [map fold_left].
      * now rewrite smap_find_upsert_same.
      * rewrite smap_find_upsert_other by congruence. reflexivity.
    + destruct (IH _ _ Hs E) as [Hs' Hf]. split; [exact Hs' |].
      intro tag. rewrite (Hf tag), symmetry_hits_cons, Hsym.
      now rewrite andb_false_r.
Qed.

Lemma wedge_fold_normals (m : mesh_topology) (bm : boundary_map_t)
  (s : hydro_state) (ws : list nat) (rhs : vector_t)
  (sn : list (tag_t * vector_t)) (rhs' : vector_t)
  (sn' : list (tag_t * vector_t)) :
  smap_sorted sn ->
  fold_left (wedge_step m bm s) ws (Some (rhs, sn)) = Some (rhs', sn') ->
  smap_sorted sn' /\
  forall tag,
    smap_find tag sn' =
    fold_left (normal_step s) (normal_wedges m bm tag ws) (smap_find tag sn).
Proof.
  revert rhs sn. induction ws as [| w ws IH]; intros rhs sn Hs E.
  - cbn in E. inversion E; subst. split; [exact Hs | reflexivity].
  - cbn [fold_left] in E. unfold wedge_step at 2 in E.
    destruct (fold_left (tag_step bm s w)
                (face_tags m (front (faces_of_wedge m w))) (Some (rhs, sn)))
      as [[rhs1 sn1] |] eqn:E1.
    2:{ rewrite wedge_fold_none in E. discriminate. }
    destruct (@tag_fold_normals _ _ _ _ _ _ _ _ Hs E1) as [Hs1 Hf1].
    destruct (IH _ _ Hs1 E) as [Hs' Hf].
    split; [exact Hs' |]. intro tag. rewrite (Hf tag), (Hf1 tag).
    unfold normal_wedges. cbn [flat_map]. now rewrite fold_left_app.
Qed.

Lemma symmetry_hits_NoDup (bm : boundary_map_t) (tag : tag_t)
  (ts : list tag_t) :
  NoDup ts ->
  symmetry_hits bm tag ts =
  if is_symmetry_tag bm tag && existsb (Nat.eqb tag) ts then [tag] else [].
Proof.
  induction ts as [| t ts IH]; intro Hnd.
  - now rewrite andb_false_r.
  - inversion Hnd as [| ? ? Hnotin Hnd']; subst.
    rewrite symmetry_hits_cons, (IH Hnd'). cbn [existsb].
    destruct (Nat.eqb_spec t tag) as [-> | Hne].
    + rewrite Nat.eqb_refl.
      assert (Hex : existsb (Nat.eqb tag) ts = false).
      { destruct (existsb (Nat.eqb tag) ts) eqn:E; trivial.
        apply existsb_exists in E. destruct E as [x [Hx Hxe]].
        apply Nat.eqb_eq in Hxe. subst x. contradiction. }
      rewrite Hex, andb_false_r. cbn [andb orb].
      now destruct (is_symmetry_tag bm tag).
    + destruct (Nat.eqb_spec tag t); [congruence |]. reflexivity.
Qed.

Lemma normal_wedges_tagged (m : mesh_topology) (bm : boundary_map_t)
  (tag : tag_t) (ws : list nat) :
  (forall f, NoDup (face_tags m f)) ->
  normal_wedges m bm tag ws =
  if is_symmetry_tag bm tag
  then filter
         (fun w =>
            existsb (Nat.eqb tag) (face_tags m (front (faces_of_wedge m w))))
         ws
  else [].
Proof.
  intro Hnd. unfold normal_wedges.
  induction ws as [| w ws IH]; cbn [flat_map filter].
  - now destruct (is_symmetry_tag bm tag).
  - rewrite IH, symmetry_hits_NoDup by apply Hnd.
    destruct (is_symmetry_tag bm tag); cbn [andb]; [| reflexivity].
    now destruct (existsb (Nat.eqb tag) _).
Qed.

Lemma normal_fold_some (s : hydro_state) (ws : list nat) (x : vector_t) :
  exists nv,
    fold_left (normal_step s) ws (Some x) = Some nv /\
    forall d, (d < num_dimensions)%nat ->
      nv d =
      fold_left radd
        (map (fun w =>
                wedge_facet_area (geometry s) w
                * wedge_facet_normal (geometry s) w d) ws) (x d).
Proof.
  revert x. induction ws as [| w ws IH]; intro x; cbn [fold_left map].
  - exists x. now split.
  - unfold normal_step at 2. cbn [add_symmetry_normal].
    destruct (IH (for_each_dim num_dimensions
                    (fun d x0 =>
                       x0 + wedge_facet_area (geometry s) w
                            * wedge_facet_normal (geometry s) w d) x))
      as [nv [E Hnv]].
    exists nv. split; [exact E |]. intros d Hd. rewrite (Hnv d Hd).
    now rewrite for_each_dim_below by assumption.
Qed.

Lemma normal_fold_none (s : hydro_state) (ws : list nat) :
  ws <> [] ->
  exists nv,
    fold_left (normal_step s) ws None = Some nv /\
    forall d, (d < num_dimensions)%nat ->
      sum1 (map (fun w =>
                   wedge_facet_area (geometry s) w
                   * wedge_facet_normal (geometry s) w d) ws) = Some (nv d).
Proof.
  destruct ws as [| w ws]; [congruence | intros _].
  cbn [fold_left map sum1]. unfold normal_step at 2.
  cbn [add_symmetry_normal].
  destruct (normal_fold_some s ws
              (for_each_dim num_dimensions
                 (fun d (_ : real_t) =>
                    wedge_facet_area (geometry s) w
                    * wedge_facet_normal (geometry s) w d) vzero))
    as [nv [E Hnv]].
  exists nv. split; [exact E |]. intros d Hd. rewrite (Hnv d Hd).
  now rewrite for_each_dim_below by assumption.
Qed.

(** The symmetry normals of a vertex: the keys are distinct, a tag is a
    key exactly when it takes the symmetry branch and a boundary wedge of
    the vertex has a face carrying it, and its normal is the sum over
    these wedges of [l_w * n_w]. *)
Lemma boundary_conditions_normals (m : mesh_topology) (bm : boundary_map_t)
  (s : hydro_state) (v : nat) (rhs rhs' : vector_t)
  (sn : list (tag_t * vector_t)) :
  (forall f, NoDup (face_tags m f)) ->
  boundary_conditions m bm s v rhs = Some (rhs', sn) ->
  NoDup (map fst sn) /\
  (forall tag,
     In tag (map fst sn) <->
     is_symmetry_tag bm tag = true /\ tagged_wedges m v tag <> []) /\
  forall tag nv d,
    smap_find tag sn = Some nv -> (d < num_dimensions)%nat ->
    sum1 (map (fun w =>
                 wedge_facet_area (geometry s) w
                 * wedge_facet_normal (geometry s) w d)
            (tagged_wedges m v tag)) = Some (nv d).
Proof.
  intros Hnd E. unfold boundary_conditions in E.
  destruct (@wedge_fold_normals m bm s _ rhs [] rhs' sn I E) as [Hs Hf].
  assert (Hfind : forall tag,
            smap_find tag sn =
            fold_left (normal_step s)
              (if is_symmetry_tag bm tag then tagged_wedges m v tag else [])
              None).
  { intro tag. rewrite (Hf tag), normal_wedges_tagged by assumption.
    reflexivity. }
  split; [now apply smap_sorted_NoDup |]. split.
  - intro tag. rewrite smap_find_keys, (Hfind tag).
    destruct (is_symmetry_tag bm tag).
    + destruct (tagged_wedges m v tag) as [| w ws] eqn:Ew.
      * cbn. split; [congruence | intros [_ H]; congruence].
      * destruct (@normal_fold_none s (w :: ws)) as [nv [En _]];
          [discriminate |].
        rewrite En. split; [intros _; split |]; congruence.
    + cbn. split; [congruence | intros [H _]; congruence].
  - intros tag nv d Efind Hd. rewrite (Hfind tag) in Efind.
    destruct (is_symmetry_tag bm tag); [| discriminate].
    destruct (tagged_wedges m v tag) as [| w ws] eqn:Ew; [discriminate |].
    destruct (@normal_fold_none s (w :: ws)) as [nv' [En Hsum]];
      [discriminate |].
    rewrite En in Efind. inversion Efind; subst nv'. now apply Hsum.
Qed.

(** ** The grown system *)

Lemma fill_fold_spec (f : nat -> real_t) (n : nat) (x : nat -> real_t)
  (d : nat) :
  fold_left (fun acc d0 => upd acc d0 (f d0)) (seq 0 n) x d =
  if (d <? n)%nat then f d else x d.
Proof. exact (for_each_dim_spec n (fun d0 (_ : real_t) => f d0) x d). Qed.

Lemma view_set_spec (A : nat -> nat -> real_t) (i j : nat) (x : real_t)
  (i' j' : nat) :
  view_set A i j x i' j' =
  if Nat.eqb i' i && Nat.eqb j' j then x else A i' j'.
Proof.
  unfold view_set, upd.
  destruct (Nat.eqb_spec i' i) as [-> | _]; cbn [andb]; reflexivity.
Qed.

(** One row written through the view. *)
Lemma row_fill_spec (f : nat -> real_t) (i n : nat)
  (A : nat -> nat -> real_t) (i' j' : nat) :
  fold_left (fun A j => view_set A i j (f j)) (seq 0 n) A i' j' =
  if Nat.eqb i' i && (j' <? n)%nat then f j' else A i' j'.
Proof.
  assert (H : forall l A,
            fold_left (fun A j => view_set A i j (f j)) l A i' j' =
            if Nat.eqb i' i
            then fold_left (fun r j => upd r j (f j)) l (A i) j'
            else A i' j').
  { induction l as [| j l IH]; intro A0; cbn [fold_left].
    - now destruct (Nat.eqb_spec i' i) as [-> | _].
    - rewrite IH. destruct (Nat.eqb_spec i' i) as [-> | Hne].
      + unfold view_set. now rewrite upd_same.
      + rewrite view_set_spec.
        destruct (Nat.eqb_spec i' i); [contradiction | reflexivity]. }
  rewrite H, fill_fold_spec.
  destruct (Nat.eqb_spec i' i) as [-> | _]; [| reflexivity].
  now destruct (j' <? n)%nat.
Qed.

(** The copy of [Mp] into the rows and columns below [num_dims]. *)
Lemma block_fill_spec (F : nat -> nat -> real_t) (n k a : nat)
  (A : nat -> nat -> real_t) (i' j' : nat) :
  fold_left
    (fun A i => fold_left (fun A j => view_set A i j (F i j)) (seq 0 n) A)
    (seq a k) A i' j' =
  if (a <=? i')%nat && (i' <? a + k)%nat && (j' <? n)%nat then F i' j'
  else A i' j'.
Proof.
  revert a A. induction k as [| k IH]; intros a A; cbn [seq fold_left].
  - replace (i' <? a + 0)%nat with (i' <? a)%nat by (f_equal; lia).
    destruct (Nat.leb_spec a i'), (Nat.ltb_spec i' a); cbn; trivial; lia.
  - rewrite IH, row_fill_spec.
    destruct (Nat.eqb_spec i' a) as [Heq | Hne];
      destruct (Nat.leb_spec (S a) i'), (Nat.leb_spec a i'),
        (Nat.ltb_spec i' (S a + k)), (Nat.ltb_spec i' (a + S k)),
        (Nat.ltb_spec j' n); cbn; try subst i'; trivial; lia.
Qed.

(** The constraint entries of one row, the column counter running. *)
Lemma constraint_row_spec (i : nat) (l : list (tag_t * vector_t)) (j0 : nat)
  (A : nat -> nat -> real_t) (i' j' : nat) :
  snd (fold_left
         (fun (jA : nat * (nat -> nat -> real_t)) n =>
            (S (fst jA), view_set (snd jA) i (fst jA) (snd n i)))
         l (j0, A)) i' j' =
  if Nat.eqb i' i && (j0 <=? j')%nat && (j' <? j0 + length l)%nat
  then snd (nth (j' - j0) l (0%nat, vzero)) i
  else A i' j'.
Proof.
  revert j0 A. induction l as [| n l IH]; intros j0 A;
    cbn [fold_left fst snd length].
  - replace (j' <? j0 + 0)%nat with (j' <? j0)%nat by (f_equal; lia).
    destruct (Nat.eqb i' i), (Nat.leb_spec j0 j'), (Nat.ltb_spec j' j0);
      cbn; trivial; lia.
  - rewrite IH, view_set_spec.
    destruct (Nat.eqb_spec i' i) as [-> | Hne]; cbn [andb]; [| reflexivity].
    destruct (Nat.eqb_spec j' j0) as [-> | Hj].
    + replace (S j0 <=? j0)%nat with false by (symmetry; apply Nat.leb_gt; lia).
      replace (j0 <=? j0)%nat with true by (symmetry; apply Nat.leb_le; lia).
      replace (j0 <? j0 + S (length l))%nat with true
        by (symmetry; apply Nat.ltb_lt; lia).
      cbn [andb]. now rewrite Nat.sub_diag.
    + destruct (Nat.leb_spec (S j0) j'), (Nat.leb_spec j0 j'),
        (Nat.ltb_spec j' (S j0 + length l)),
        (Nat.ltb_spec j' (j0 + S (length l))); cbn [andb]; trivial; try lia.
      replace (j' - j0)%nat with (S (j' - S j0)) by lia. reflexivity.
Qed.

(** The constraint columns: rows below [k], columns from [j0] on. *)
Lemma constraint_columns_spec (l : list (tag_t * vector_t)) (j0 k a : nat)
  (A : nat -> nat -> real_t) (i' j' : nat) :
  fold_left
    (fun A i =>
       snd (fold_left
              (fun (jA : nat * (nat -> nat -> real_t)) n =>
                 (S (fst jA), view_set (snd jA) i (fst jA) (snd n i)))
              l (j0, A)))
    (seq a k) A i' j' =
  if (a <=? i')%nat && (i' <? a + k)%nat && (j0 <=? j')%nat
     && (j' <? j0 + length l)%nat
  then snd (nth (j' - j0) l (0%nat, vzero)) i'
  else A i' j'.
Proof.
  revert a A. induction k as [| k IH]; intros a A; cbn [seq fold_left].
  - replace (i' <? a + 0)%nat with (i' <? a)%nat by (f_equal; lia).
    destruct (Nat.leb_spec a i'), (Nat.ltb_spec i' a); cbn; trivial; lia.
  - rewrite IH, constraint_row_spec.
    destruct (Nat.eqb_spec i' a) as [Heq | Hne];
      destruct (Nat.leb_spec (S a) i'), (Nat.leb_spec a i'),
        (Nat.ltb_spec i' (S a + k)), (Nat.ltb_spec i' (a + S k)),
        (Nat.leb_spec j0 j'), (Nat.ltb_spec j' (j0 + length l));
      cbn; try subst i'; trivial; lia.
Qed.

(** The constraint rows, the row counter running. *)
Lemma constraint_rows_spec (n : nat) (l : list (tag_t * vector_t)) (i0 : nat)
  (A : nat -> nat -> real_t) (i' j' : nat) :
  snd (fold_left
         (fun (iA : nat * (nat -> nat -> real_t)) c =>
            (S (fst iA),
             fold_left (fun A j => view_set A (fst iA) j (snd c j))
               (seq 0 n) (snd iA)))
         l (i0, A)) i' j' =
  if (i0 <=? i')%nat && (i' <? i0 + length l)%nat && (j' <? n)%nat
  then snd (nth (i' - i0) l (0%nat, vzero)) j'
  else A i' j'.
Proof.
  revert i0 A. induction l as [| c l IH]; intros i0 A;
    cbn [fold_left fst snd length].
  - replace (i' <? i0 + 0)%nat with (i' <? i0)%nat by (f_equal; lia).
    destruct (Nat.leb_spec i0 i'), (Nat.ltb_spec i' i0); cbn; trivial; lia.
  - rewrite IH, row_fill_spec.
    destruct (Nat.eqb_spec i' i0) as [-> | Hne].
    + replace (S i0 <=? i0)%nat with false by (symmetry; apply Nat.leb_gt; lia).
      replace (i0 <=? i0)%nat with true by (symmetry; apply Nat.leb_le; lia).
      replace (i0 <? i0 + S (length l))%nat with true
        by (symmetry; apply Nat.ltb_lt; lia).
      cbn [andb]. now rewrite Nat.sub_diag.
    + destruct (Nat.leb_spec (S i0) i'), (Nat.leb_spec i0 i'),
        (Nat.ltb_spec i' (S i0 + length l)),
        (Nat.ltb_spec i' (i0 + S (length l))), (Nat.ltb_spec j' n);
        cbn [andb]; trivial; try lia.
      replace (i' - i0)%nat with (S (i' - S i0)) by lia. reflexivity.
Qed.

(** The system handed to [qr] is the saddle-point system of the point
    matrix and the symmetry normals, with the right-hand side [rhs]
    followed by zeros. *)
Lemma symmetry_system_saddle (Mp : matrix_t) (rhs : vector_t)
  (sn : list (tag_t * vector_t)) :
  (forall i j,
     fst (symmetry_system Mp rhs sn) i j =
     saddle_point Mp (map snd sn) i j) /\
  forall i,
    snd (symmetry_system Mp rhs sn) i =
    if (i <? num_dimensions)%nat then rhs i else r0.
Proof.
  unfold symmetry_system. cbn [fst snd]. split.
  - intros i j. rewrite constraint_rows_spec, constraint_columns_spec,
      block_fill_spec. unfold saddle_point.
    change vzero with (snd (0%nat, vzero)).
    rewrite !map_nth. cbn [snd].
    destruct (Nat.ltb_spec i num_dimensions) as [Hi | Hi];
      destruct (Nat.ltb_spec j num_dimensions) as [Hj | Hj];
      destruct (Nat.leb_spec num_dimensions i),
        (Nat.leb_spec num_dimensions j), (Nat.leb_spec 0 i),
        (Nat.ltb_spec i (num_dimensions + length sn)),
        (Nat.ltb_spec j (num_dimensions + length sn)),
        (Nat.ltb_spec i (0 + num_dimensions));
      cbn [andb]; trivial; try lia.
    + rewrite nth_overflow by lia. reflexivity.
    + rewrite nth_overflow by lia. reflexivity.
  - intro i. apply fill_fold_spec.
Qed.

(** ** evaluate_nodal_state: symmetry constraints and the solve *)

Lemma point_system_inputs (m : mesh_topology) (s a : hydro_state) (v : nat) :
  nodal_inputs s a -> point_system m a v = point_system m s v.
Proof.
  intros [Hp [Hu [HM [HN _]]]]. unfold point_system.
  now rewrite Hp, Hu, HM, HN.
Qed.

Lemma boundary_conditions_inputs (m : mesh_topology) (bm : boundary_map_t)
  (s a : hydro_state) (v : nat) (rhs : vector_t) :
  nodal_inputs s a ->
  boundary_conditions m bm a v rhs = boundary_conditions m bm s v rhs.
Proof.
  intros [_ [_ [_ [_ [_ [Hg Ht]]]]]].
  unfold boundary_conditions, wedge_step, tag_step.
  now rewrite Hg, Ht.
Qed.

(** C2. At a boundary vertex [v] of the mesh none of whose tags carries a
    prescribed velocity (the boundary map holding a condition for every
    tag the loop looks up, the tags of a face being distinct),
    [evaluate_nodal_state] returns, and the symmetry normals [sn] it
    accumulates at [v] hold one entry per tag: the keys are distinct, a tag
    is a key exactly when its condition takes the symmetry branch and some
    boundary wedge of [v] has a face carrying it, and its normal is the sum
    of [l_w * n_w] over exactly these wedges. With no entry the velocity of
    [v] is [math::solve(Mp, rhs)], the solution of the D x D system; with
    [k > 0] entries it is the first D components of what [qr] leaves for
    the (D+k) x (D+k) saddle-point system [[Mp, S^T], [S, 0]] with the
    right-hand side [rhs] followed by zeros, each normal being one row of
    [S]. *)
Theorem symmetry_constraints_vertex (m : mesh_topology) (bm : boundary_map_t)
  (s : hydro_state) (v : nat) :
  boundary_map_covers m bm -> (forall f, NoDup (face_tags m f)) ->
  In v (vertices m) -> vertex_is_boundary m v = true ->
  (forall t b, In t (vertex_tags m v) -> bm t = Some b ->
               has_prescribed_velocity b = false) ->
  exists s' rhs sn,
    evaluate_nodal_state m bm s = Some s' /\
    boundary_conditions m bm s v (snd (point_system m s v)) = Some (rhs, sn) /\
    NoDup (map fst sn) /\
    (forall tag,
       In tag (map fst sn) <->
       is_symmetry_tag bm tag = true /\ tagged_wedges m v tag <> []) /\
    (forall tag nv d,
       smap_find tag sn = Some nv -> (d < num_dimensions)%nat ->
       sum1 (map (fun w =>
                    wedge_facet_area (geometry s) w
                    * wedge_facet_normal (geometry s) w d)
               (tagged_wedges m v tag)) = Some (nv d)) /\
    (sn = [] -> node_velocity s' v = solve (fst (point_system m s v)) rhs) /\
    (sn <> [] ->
     exists A b,
       (forall i j,
          A i j = saddle_point (fst (point_system m s v)) (map snd sn) i j) /\
       (forall i, b i = if (i <? num_dimensions)%nat then rhs i else r0) /\
       forall d, (d < num_dimensions)%nat ->
         node_velocity s' v d = qr (num_dimensions + length sn) A b d).
Proof.
  intros Hcov Hnd Hv Hbnd Hnovel.
  destruct (@evaluate_nodal_state_vertices m bm s Hcov) as [s' [E [_ Hq]]].
  destruct (Hq v Hv) as [a [Ha Hu]].
  destruct (@boundary_conditions_covered m bm s v
              (snd (point_system m s v)) Hcov Hv) as [rhs [sn Ebc]].
  destruct (@boundary_conditions_normals m bm s v _ rhs sn Hnd Ebc)
    as [Hkeys [Hdom Hsum]].
  exists s', rhs, sn.
  split; [exact E |]. split; [exact Ebc |]. split; [exact Hkeys |].
  split; [exact Hdom |]. split; [exact Hsum |].
  assert (Hfind : find_velocity_bc bm (vertex_tags m v) = Some None).
  { destruct (find_velocity_bc_covered bm (vertex_tags m v))
      as [[Hf _] | [pre [t [post [b [_ [Ht [Hb [Hvel _]]]]]]]]].
    - intros t Ht. destruct Hcov as [Hc _]. now apply (Hc v t).
    - exact Hf.
    - rewrite (Hnovel t b) in Hvel; [discriminate | | exact Hb].
      rewrite Ht. apply in_or_app. right. now left. }
  unfold nodal_velocity in Hu.
  rewrite Hbnd, Hfind, (@point_system_inputs m s a v Ha),
    (@boundary_conditions_inputs m bm s a v _ Ha), Ebc in Hu.
  cbn [fst snd] in Hu. split.
  - intros ->. now inversion Hu.
  - intro Hne. destruct sn as [| c sn0]; [contradiction |].
    inversion Hu as [Hnv]. clear Hu.
    destruct (symmetry_system_saddle (fst (point_system m s v)) rhs
                (c :: sn0)) as [HA Hb].
    eexists; eexists. split; [exact HA |]. split; [exact Hb |].
    intros d Hd. now rewrite for_each_dim_below by assumption.
Qed.

(** ** Edge length *)

(** In two dimensions [length()] is the Euclidean distance of the two
    vertices of the edge. *)
Lemma burton_2d_edge_length_euclidean (m : mesh_topology) (s : hydro_state)
  (e : nat) :
  burton_2d_edge_length m s e =
  euclidean_distance 2
    (coordinates s (nth 0 (vertices_of_edge m e) 0%nat))
    (coordinates s (nth 1 (vertices_of_edge m e) 0%nat)).
Proof. reflexivity. Qed.

(** In three dimensions [length()] is the distance of the projections of
    the two vertices on the plane of the first two coordinates. *)
Lemma burton_3d_edge_length_planar (m : mesh_topology) (s : hydro_state)
  (e : nat) :
  burton_3d_edge_length m s e =
  euclidean_distance 2
    (coordinates s (nth 0 (vertices_of_edge m e) 0%nat))
    (coordinates s (nth 1 (vertices_of_edge m e) 0%nat)).
Proof. reflexivity. Qed.

(** * Further properties of the tasks *)

(** An entity the loop does not visit keeps its entry. *)
Lemma entity_loop_skip (S V : Type) (step : S -> nat -> S)
  (get : S -> nat -> V) :
  (forall s e e', e' <> e -> get (step s e) e' = get s e') ->
  forall es s e, ~ In e es -> get (fold_left step es s) e = get s e.
Proof.
  intros Hother. induction es as [| a es IH]; intros s e Hn;
    cbn [fold_left].
  - reflexivity.
  - rewrite IH by (intro H; apply Hn; now right).
    apply Hother. intro Heq. apply Hn. now left.
Qed.

Lemma existsb_eqb_not_In (v : nat) (vs : list nat) :
  ~ In v vs -> existsb (Nat.eqb v) vs = false.
Proof.
  intro Hn. destruct (existsb (Nat.eqb v) vs) eqn:E; trivial.
  apply existsb_exists in E. destruct E as [x [Hx Hvx]].
  apply Nat.eqb_eq in Hvx. subst x. contradiction.
Qed.

(** ** The snapshot of the solution *)

(** X1. whatever runs between [save_solution] and [restore_solution], as
    long as it leaves version 1 of the two fields as [save_solution] wrote
    it, [restore_solution] gives every cell of the mesh the velocity and
    the internal energy it had when [save_solution] ran. *)
Theorem restore_solution_after_save (m : mesh_topology) (s s1 : hydro_state)
  (c : nat) :
  cell_velocity_1 s1 = cell_velocity_1 (save_solution m s) ->
  cell_internal_energy_1 s1 = cell_internal_energy_1 (save_solution m s) ->
  In c (cells m) ->
  cell_velocity (restore_solution m s1) c = cell_velocity s c /\
  cell_internal_energy (restore_solution m s1) c = cell_internal_energy s c.
Proof.
  intros Hv He Hc. unfold restore_solution.
  destruct (restore_solution_fold (cells m) s1) as [_ Hr].
  destruct (Hr c) as [Hrv Hre].
  rewrite Hrv, Hre, (existsb_eqb_In _ _ Hc), Hv, He.
  unfold save_solution.
  destruct (save_solution_fold (cells m) s) as [_ Hs].
  destruct (Hs c) as [Hsv Hse].
  now rewrite Hsv, Hse, (existsb_eqb_In _ _ Hc).
Qed.

(** ** move_mesh *)

Lemma move_vertex_fold (fact : real_t) (vs : list nat) (s : hydro_state) :
  NoDup vs ->
  node_velocity (fold_left (move_vertex_step fact) vs s) = node_velocity s /\
  forall v d,
    coordinates (fold_left (move_vertex_step fact) vs s) v d =
    if existsb (Nat.eqb v) vs && (d <? num_dimensions)%nat
    then coordinates s v d + fact * node_velocity s v d
    else coordinates s v d.
Proof.
  revert s. induction vs as [| a vs IH]; intros s Hnd; cbn [fold_left].
  - split; reflexivity.
  - inversion Hnd as [| ? ? Hnotin Hnd']; subst.
    destruct (IH (move_vertex_step fact s a) Hnd') as [Hv Hc].
    split; [exact Hv |]. intros v d. rewrite Hc. cbn [existsb].
    unfold move_vertex_step. cbn [coordinates node_velocity
      set_coordinates].
    destruct (Nat.eqb_spec v a) as [-> | Hne]; cbn [orb andb].
    + rewrite (existsb_eqb_not_In _ _ Hnotin). cbn [andb].
      rewrite upd_same. apply for_each_dim_spec.
    + now rewrite upd_other by assumption.
Qed.

(** X2. when the vertices of the mesh are listed once each, [move_mesh]
    adds [coef * time_step * u_v] to each of the [num_dimensions]
    coordinates of every vertex [v] of the mesh, [u_v] being its nodal
    velocity; it leaves the nodal velocities and the saved coordinates as
    they were. *)
Theorem move_mesh_displacement (m : mesh_topology) (coef : real_t)
  (s : hydro_state) :
  NoDup (vertices m) ->
  (forall v d, In v (vertices m) -> (d < num_dimensions)%nat ->
     coordinates (move_mesh m coef s) v d =
     coordinates s v d + coef * time_step s * node_velocity s v d) /\
  (forall v, ~ In v (vertices m) ->
     forall d, coordinates (move_mesh m coef s) v d = coordinates s v d) /\
  node_velocity (move_mesh m coef s) = node_velocity s /\
  node_coordinates (move_mesh m coef s) = node_coordinates s.
Proof.
  intro Hnd.
  assert (E : move_mesh m coef s =
              update_geometry m
                (fold_left (move_vertex_step (coef * time_step s))
                   (vertices m) s)) by reflexivity.
  destruct (move_vertex_fold (coef * time_step s) s Hnd) as [Hv Hc].
  split; [| split; [| split]].
  - intros v d Hin Hd. rewrite E. cbn [update_geometry coordinates
      set_geometry]. rewrite Hc, (existsb_eqb_In _ _ Hin).
    now replace (d <? num_dimensions)%nat with true
      by (symmetry; apply Nat.ltb_lt; lia).
  - intros v Hn d. rewrite E. cbn [update_geometry coordinates
      set_geometry]. now rewrite Hc, (existsb_eqb_not_In _ _ Hn).
  - rewrite E. exact Hv.
  - apply move_mesh_node_coordinates.
Qed.

(** ** What the loops leave alone *)

Ltac frame_refl := repeat split.

Ltac frame_compose H1 H2 :=
  repeat match type of H1 with
         | _ /\ _ => let E := fresh "E" in destruct H1 as [E H1]
         end;
  repeat match type of H2 with
         | _ /\ _ => let E := fresh "E" in destruct H2 as [E H2]
         end;
  repeat split; congruence.

Lemma estimate_cell_fold_frame (v : nat) (cs : list nat) (a : hydro_state) :
  same_but_node_velocity a (fold_left (estimate_cell_step v) cs a).
Proof.
  revert a. induction cs as [| c cs IH]; intro a; cbn [fold_left].
  - unfold same_but_node_velocity. frame_refl.
  - pose proof (IH (estimate_cell_step v a c)) as H.
    unfold same_but_node_velocity in *. frame_trans H.
Qed.

Lemma estimate_vertex_step_frame (m : mesh_topology) (s : hydro_state)
  (v : nat) : same_but_node_velocity s (estimate_vertex_step m s v).
Proof.
  unfold estimate_vertex_step.
  pose proof (estimate_cell_fold_frame v (cells_of_vertex m v)
                (set_node_velocity s (upd (node_velocity s) v vzero))) as H.
  unfold same_but_node_velocity in *. frame_trans H.
Qed.

(** X3. [estimate_nodal_state] writes the nodal velocity of the vertices
    of the mesh and nothing else; a vertex of the mesh without incident
    cell gets, in each component, the quotient of 0 by the count 0. *)
Theorem estimate_nodal_state_frame (m : mesh_topology) (s : hydro_state) :
  same_but_node_velocity s (estimate_nodal_state m s) /\
  (forall v, ~ In v (vertices m) ->
     node_velocity (estimate_nodal_state m s) v = node_velocity s v) /\
  (forall v d, In v (vertices m) -> cells_of_vertex m v = [] ->
     (d < num_dimensions)%nat ->
     node_velocity (estimate_nodal_state m s) v d = r0 / rsize 0).
Proof.
  unfold estimate_nodal_state.
  destruct (entity_loop (estimate_vertex_step m) node_velocity
              (same_but_node_velocity s)
              (fun e u =>
                 cells_of_vertex m e = [] ->
                 forall d, (d < num_dimensions)%nat -> u d = r0 / rsize 0))
    with (es := vertices m) (s := s) as [Hinv Hq].
  - intros a e Ha. pose proof (estimate_vertex_step_frame m a e) as Hb.
    unfold same_but_node_velocity in *. frame_compose Ha Hb.
  - intros a e _ Hnil d Hd.
    destruct (estimate_vertex_step_spec m a e) as [_ [_ Hw]].
    rewrite (Hw d Hd), Hnil. reflexivity.
  - intros a e e' Hne.
    destruct (estimate_vertex_step_spec m a e) as [_ [Ho _]]. now apply Ho.
  - unfold same_but_node_velocity. frame_refl.
  - split; [exact Hinv |]. split.
    + intros v Hn. apply entity_loop_skip; [| exact Hn].
      intros a e e' Hne.
      destruct (estimate_vertex_step_spec m a e) as [_ [Ho _]]. now apply Ho.
    + intros v d Hv Hnil Hd. now apply (Hq v Hv Hnil d Hd).
Qed.

Lemma corner_wedge_fold_frame (cn : nat) (zc : real_t) (ws : list nat)
  (a : hydro_state) :
  same_but_corner_fields a (fold_left (corner_wedge_step cn zc) ws a).
Proof.
  revert a. induction ws as [| w ws IH]; intro a; cbn [fold_left].
  - unfold same_but_corner_fields. frame_refl.
  - pose proof (IH (corner_wedge_step cn zc a w)) as H.
    unfold same_but_corner_fields in *. frame_trans H.
Qed.

Lemma corner_step_frame (m : mesh_topology) (s : hydro_state) (cn : nat) :
  same_but_corner_fields s (corner_step m s cn).
Proof.
  unfold corner_step.
  match goal with
  | |- context [fold_left (corner_wedge_step cn ?z) ?ws ?a] =>
      pose proof (corner_wedge_fold_frame cn z ws a) as H
  end.
  unfold same_but_corner_fields in *. frame_trans H.
Qed.

(** X4. [evaluate_corner_coef] writes the matrix and the normal of the
    corners of the mesh and nothing else; a corner of the mesh without
    wedges gets the zero matrix and the zero normal. *)
Theorem evaluate_corner_coef_frame (m : mesh_topology) (s : hydro_state) :
  same_but_corner_fields s (evaluate_corner_coef m s) /\
  (forall cn, ~ In cn (corners m) ->
     corner_matrix (evaluate_corner_coef m s) cn = corner_matrix s cn /\
     corner_normal (evaluate_corner_coef m s) cn = corner_normal s cn) /\
  (forall cn i j, In cn (corners m) -> wedges_of_corner m cn = [] ->
     (i < num_dimensions)%nat -> (j < num_dimensions)%nat ->
     corner_matrix (evaluate_corner_coef m s) cn i j = r0 /\
     corner_normal (evaluate_corner_coef m s) cn i = r0).
Proof.
  unfold evaluate_corner_coef.
  destruct (entity_loop (corner_step m)
              (fun a e => (corner_matrix a e, corner_normal a e))
              (same_but_corner_fields s)
              (fun e Mn =>
                 wedges_of_corner m e = [] ->
                 forall i j,
                   (i < num_dimensions)%nat -> (j < num_dimensions)%nat ->
                   fst Mn i j = r0 /\ snd Mn i = r0))
    with (es := corners m) (s := s) as [Hinv Hq].
  - intros a e Ha. pose proof (corner_step_frame m a e) as Hb.
    unfold same_but_corner_fields in *. frame_compose Ha Hb.
  - intros a e _ Hnil i j Hi Hj. cbn [fst snd].
    destruct (corner_step_spec m a e) as [_ [_ [Hm Hn]]].
    rewrite (Hm i j Hi Hj), (Hn i Hi), Hnil. split; reflexivity.
  - intros a e e' Hne. destruct (corner_step_spec m a e) as [_ [Ho _]].
    destruct (Ho e' Hne) as [H1 H2]. now rewrite H1, H2.
  - unfold same_but_corner_fields. frame_refl.
  - split; [exact Hinv |]. split.
    + intros cn Hn.
      assert (E : (corner_matrix (fold_left (corner_step m) (corners m) s) cn,
                   corner_normal (fold_left (corner_step m) (corners m) s) cn)
                  = (corner_matrix s cn, corner_normal s cn)).
      { apply (entity_loop_skip (corner_step m)
                 (fun a e => (corner_matrix a e, corner_normal a e)));
          [| exact Hn].
        intros a e e' Hne. destruct (corner_step_spec m a e) as [_ [Ho _]].
        destruct (Ho e' Hne) as [H1 H2]. now rewrite H1, H2. }
      now inversion E.
    + intros cn i j Hcn Hnil Hi Hj. exact (Hq cn Hcn Hnil i j Hi Hj).
Qed.

Lemma force_fold_frame (m : mesh_topology) (cl : nat) (cns : list nat)
  (a : hydro_state) :
  same_but_residual a (fold_left (force_step m cl) cns a).
Proof.
  revert a. induction cns as [| cn cns IH]; intro a; cbn [fold_left].
  - unfold same_but_residual. frame_refl.
  - pose proof (IH (force_step m cl a cn)) as H.
    unfold same_but_residual in *. frame_trans H.
Qed.

Lemma cell_force_step_frame (m : mesh_topology) (s : hydro_state) (cl : nat) :
  same_but_residual s (cell_force_step m s cl).
Proof.
  unfold cell_force_step.
  pose proof (force_fold_frame m cl (corners_of_cell m cl)
                (set_cell_residual s (upd (cell_residual s) cl flux_zero)))
    as H.
  unfold same_but_residual in *. frame_trans H.
Qed.

Lemma cell_force_step_other (m : mesh_topology) (s : hydro_state)
  (cl c' : nat) :
  c' <> cl -> cell_residual (cell_force_step m s cl) c' = cell_residual s c'.
Proof.
  intro Hne. unfold cell_force_step.
  set (acc0 := set_cell_residual s _).
  assert (H0 : force_inputs s acc0) by (unfold force_inputs; cbn; auto).
  destruct (force_fold m cl (corners_of_cell m cl) H0) as [_ [Ho _]].
  rewrite (Ho c' Hne). subst acc0. cbn. now apply upd_other.
Qed.

(** X5. [evaluate_forces] writes the residual of the cells of the mesh and
    nothing else; the residual of a cell of the mesh without corners is
    the zero residual. *)
Theorem evaluate_forces_frame (m : mesh_topology) (s : hydro_state) :
  same_but_residual s (evaluate_forces m s) /\
  (forall c, ~ In c (cells m) ->
     cell_residual (evaluate_forces m s) c = cell_residual s c) /\
  (forall c, In c (cells m) -> corners_of_cell m c = [] ->
     cell_residual (evaluate_forces m s) c = flux_zero).
Proof.
  unfold evaluate_forces.
  destruct (entity_loop (cell_force_step m) cell_residual
              (same_but_residual s)
              (fun e r => corners_of_cell m e = [] -> r = flux_zero))
    with (es := cells m) (s := s) as [Hinv Hq].
  - intros a e Ha. pose proof (cell_force_step_frame m a e) as Hb.
    unfold same_but_residual in *. frame_compose Ha Hb.
  - intros a e _ Hnil. unfold cell_force_step. rewrite Hnil.
    cbn. apply upd_same.
  - intros a e e' Hne. now apply cell_force_step_other.
  - unfold same_but_residual. frame_refl.
  - split; [exact Hinv |]. split.
    + intros c Hn. apply entity_loop_skip; [| exact Hn].
      intros a e e' Hne. now apply cell_force_step_other.
    + intros c Hc Hnil. exact (Hq c Hc Hnil).
Qed.

(** ** initial_conditions *)

Lemma initial_conditions_step_spec (xc : nat -> vector_t)
  (ics : vector_t -> real_t -> real_t * vector_t * real_t) (t : real_t)
  (a : hydro_state) (c : nat) :
  same_but_initial_fields a (initial_conditions_step xc ics t a c) /\
  cell_mass (initial_conditions_step xc ics t a c) c =
    fst (fst (ics (xc c) t)) * cell_volume (geometry a) c /\
  cell_velocity (initial_conditions_step xc ics t a c) c =
    snd (fst (ics (xc c) t)) /\
  cell_pressure (initial_conditions_step xc ics t a c) c =
    snd (ics (xc c) t) /\
  forall c', c' <> c ->
    cell_mass (initial_conditions_step xc ics t a c) c' = cell_mass a c' /\
    cell_velocity (initial_conditions_step xc ics t a c) c'
      = cell_velocity a c' /\
    cell_pressure (initial_conditions_step xc ics t a c) c'
      = cell_pressure a c'.
Proof.
  unfold initial_conditions_step. cbn. rewrite !upd_same.
  split; [unfold same_but_initial_fields; cbn; frame_refl |].
  repeat split; trivial; now apply upd_other.
Qed.

(** X6. for every cell [c] of the mesh, [initial_conditions] calls [ics]
    at the centroid of [c] and the solution time, stores the returned
    velocity and pressure, and sets the mass to the returned density times
    the cached volume of [c]; it writes neither the density nor any other
    field, nor the entries of cells outside the mesh. *)
Theorem initial_conditions_sets (m : mesh_topology) (xc : nat -> vector_t)
  (ics : vector_t -> real_t -> real_t * vector_t * real_t)
  (s : hydro_state) :
  same_but_initial_fields s (initial_conditions m xc ics s) /\
  (forall c, In c (cells m) ->
     cell_mass (initial_conditions m xc ics s) c =
       fst (fst (ics (xc c) (soln_time s))) * cell_volume (geometry s) c /\
     cell_velocity (initial_conditions m xc ics s) c =
       snd (fst (ics (xc c) (soln_time s))) /\
     cell_pressure (initial_conditions m xc ics s) c =
       snd (ics (xc c) (soln_time s))) /\
  (forall c, ~ In c (cells m) ->
     cell_mass (initial_conditions m xc ics s) c = cell_mass s c /\
     cell_velocity (initial_conditions m xc ics s) c = cell_velocity s c /\
     cell_pressure (initial_conditions m xc ics s) c = cell_pressure s c).
Proof.
  unfold initial_conditions.
  set (step := initial_conditions_step xc ics (soln_time s)).
  set (get := fun (a : hydro_state) (c : nat) =>
                (cell_mass a c, cell_velocity a c, cell_pressure a c)).
  assert (Hother : forall a e e', e' <> e -> get (step a e) e' = get a e').
  { intros a e e' Hne. unfold get, step.
    destruct (initial_conditions_step_spec xc ics (soln_time s) a e)
      as [_ [_ [_ [_ Ho]]]].
    destruct (Ho e' Hne) as [H1 [H2 H3]]. now rewrite H1, H2, H3. }
  destruct (entity_loop step get (same_but_initial_fields s)
              (fun c r =>
                 r = (fst (fst (ics (xc c) (soln_time s)))
                      * cell_volume (geometry s) c,
                      snd (fst (ics (xc c) (soln_time s))),
                      snd (ics (xc c) (soln_time s)))))
    with (es := cells m) (s := s) as [Hinv Hq].
  - intros a e Ha. unfold step.
    destruct (initial_conditions_step_spec xc ics (soln_time s) a e)
      as [Hb _].
    unfold same_but_initial_fields in *. frame_compose Ha Hb.
  - intros a e Ha. unfold get, step.
    destruct (initial_conditions_step_spec xc ics (soln_time s) a e)
      as [_ [H1 [H2 [H3 _]]]].
    rewrite H1, H2, H3.
    assert (Hg : geometry a = geometry s) by apply Ha.
    now rewrite Hg.
  - exact Hother.
  - unfold same_but_initial_fields. frame_refl.
  - split; [exact Hinv |]. split.
    + intros c Hc. specialize (Hq c Hc). unfold get in Hq.
      now inversion Hq.
    + intros c Hn.
      pose proof (@entity_loop_skip _ _ step get Hother (cells m) s c Hn) as E.
      unfold get in E. now inversion E.
Qed.

(** ** evaluate_nodal_state: what it leaves alone, and missing tags *)

Lemma fold_throw_inv (S : Type) (step : S -> nat -> option S)
  (inv : S -> Prop) (es : list nat) :
  (forall a e a', In e es -> inv a -> step a e = Some a' -> inv a') ->
  forall s s', inv s -> fold_throw step es (Some s) = Some s' -> inv s'.
Proof.
  induction es as [| e es IH]; intros Hstep s s' Hs E.
  - cbn in E. now inversion E; subst.
  - unfold fold_throw in E. cbn [fold_left] in E.
    destruct (step s e) as [a |] eqn:Ea.
    + apply (IH (fun a0 e0 a' H => Hstep a0 e0 a' (or_intror H)) a s').
      * exact (Hstep s e a (or_introl eq_refl) Hs Ea).
      * exact E.
    + change (fold_throw step es None = Some s') in E.
      rewrite fold_throw_none in E. discriminate.
Qed.

Lemma fold_throw_fails (S : Type) (step : S -> nat -> option S) (v : nat)
  (es : list nat) :
  (forall a, step a v = None) -> In v es ->
  forall s, fold_throw step es s = None.
Proof.
  intros Hv. induction es as [| e es IH]; intros Hin s; [destruct Hin |].
  unfold fold_throw. cbn [fold_left].
  destruct s as [a |].
  - destruct Hin as [-> | Hin].
    + rewrite Hv. apply fold_throw_none.
    + apply (IH Hin).
  - apply fold_throw_none.
Qed.

(** X7. when [evaluate_nodal_state] returns, it has written the nodal
    velocity of the vertices of the mesh and nothing else. *)
Theorem evaluate_nodal_state_frame (m : mesh_topology) (bm : boundary_map_t)
  (s s' : hydro_state) :
  evaluate_nodal_state m bm s = Some s' ->
  same_but_node_velocity s s' /\
  forall v, ~ In v (vertices m) -> node_velocity s' v = node_velocity s v.
Proof.
  intro E. unfold evaluate_nodal_state in E.
  apply (fold_throw_inv (vertex_step m bm)
           (fun a =>
              same_but_node_velocity s a /\
              forall v, ~ In v (vertices m) ->
                        node_velocity a v = node_velocity s v)
           (vertices m)) with (s := s); [| | exact E].
  - intros a e a' He [Ha Hout] Hstep. unfold vertex_step in Hstep.
    destruct (nodal_velocity m bm a e) as [u |]; [| discriminate].
    inversion Hstep; subst a'. split.
    + exact Ha.
    + intros v Hn. cbn. rewrite upd_other; [now apply Hout |].
      intro Heq. subst v. contradiction.
  - split; [unfold same_but_node_velocity; frame_refl | reflexivity].
Qed.

Lemma find_velocity_bc_missing (bm : boundary_map_t) (pre : list tag_t)
  (t : tag_t) (post : list tag_t) :
  (forall t' b, In t' pre -> bm t' = Some b ->
                has_prescribed_velocity b = false) ->
  bm t = None -> find_velocity_bc bm (pre ++ t :: post) = None.
Proof.
  intros Hpre Ht. induction pre as [| t0 pre IH]; cbn [app find_velocity_bc].
  - now rewrite Ht.
  - destruct (bm t0) as [b |] eqn:E0; [| reflexivity].
    rewrite (Hpre t0 b (or_introl eq_refl) E0).
    apply IH. intros t' b' H. apply Hpre. now right.
Qed.

(** X8. a tag of a boundary vertex of the mesh that is not a key of the
    boundary map makes [evaluate_nodal_state] throw, unless a tag standing
    before it on the vertex carries a prescribed velocity. *)
Theorem evaluate_nodal_state_missing_vertex_tag (m : mesh_topology)
  (bm : boundary_map_t) (s : hydro_state) (v : nat) (pre : list tag_t)
  (t : tag_t) (post : list tag_t) :
  In v (vertices m) -> vertex_is_boundary m v = true ->
  vertex_tags m v = pre ++ t :: post -> bm t = None ->
  (forall t' b, In t' pre -> bm t' = Some b ->
                has_prescribed_velocity b = false) ->
  evaluate_nodal_state m bm s = None.
Proof.
  intros Hv Hbnd Htags Ht Hpre. unfold evaluate_nodal_state.
  apply fold_throw_fails with (v := v); [| exact Hv].
  intro a. unfold vertex_step, nodal_velocity.
  now rewrite Hbnd, Htags, (@find_velocity_bc_missing bm pre t post Hpre Ht).
Qed.

Lemma tag_fold_missing (bm : boundary_map_t) (s : hydro_state) (w : nat)
  (ts : list tag_t) (t : tag_t)
  (acc : option (vector_t * list (tag_t * vector_t))) :
  In t ts -> bm t = None -> fold_left (tag_step bm s w) ts acc = None.
Proof.
  intros Hin Ht. revert acc. induction ts as [| t0 ts IH]; intro acc;
    [destruct Hin |]. cbn [fold_left].
  destruct Hin as [-> | Hin].
  - destruct acc as [[rhs sn] |]; cbn [tag_step].
    + rewrite Ht. apply tag_fold_none.
    + apply tag_fold_none.
  - now apply IH.
Qed.

Lemma wedge_fold_missing (m : mesh_topology) (bm : boundary_map_t)
  (s : hydro_state) (ws : list nat) (w : nat) (t : tag_t)
  (acc : option (vector_t * list (tag_t * vector_t))) :
  In w ws -> In t (face_tags m (front (faces_of_wedge m w))) ->
  bm t = None -> fold_left (wedge_step m bm s) ws acc = None.
Proof.
  intros Hw Hin Ht. revert acc. induction ws as [| w0 ws IH]; intro acc;
    [destruct Hw |]. cbn [fold_left].
  destruct Hw as [-> | Hw].
  - unfold wedge_step at 2.
    rewrite (@tag_fold_missing bm s w _ t acc Hin Ht).
    apply wedge_fold_none.
  - now apply IH.
Qed.

(** X9. at a boundary vertex of the mesh whose own tags are all keys of
    the boundary map and carry no prescribed velocity, a tag on the face of
    one of its boundary wedges that is not a key of the boundary map makes
    [evaluate_nodal_state] throw. *)
Theorem evaluate_nodal_state_missing_face_tag (m : mesh_topology)
  (bm : boundary_map_t) (s : hydro_state) (v w : nat) (t : tag_t) :
  In v (vertices m) -> vertex_is_boundary m v = true ->
  (forall t', In t' (vertex_tags m v) ->
     exists b, bm t' = Some b /\ has_prescribed_velocity b = false) ->
  In w (wedges_of_vertex m v) -> wedge_is_boundary m w = true ->
  In t (face_tags m (front (faces_of_wedge m w))) -> bm t = None ->
  evaluate_nodal_state m bm s = None.
Proof.
  intros Hv Hbnd Htags Hw Hwb Hin Ht. unfold evaluate_nodal_state.
  apply fold_throw_fails with (v := v); [| exact Hv].
  intro a. unfold vertex_step, nodal_velocity. rewrite Hbnd.
  destruct (find_velocity_bc_covered bm (vertex_tags m v))
    as [[Hf _] | [pre [t1 [post [b [_ [Hl [Hb [Hvel _]]]]]]]]].
  { intros t' Ht'. destruct (Htags t' Ht') as [b [Hb _]]. congruence. }
  - rewrite Hf. unfold boundary_conditions.
    rewrite (@wedge_fold_missing m bm a
               (filter_boundary m (wedges_of_vertex m v)) w t
               (Some (snd (point_system m a v), []))).
    + reflexivity.
    + unfold filter_boundary. apply filter_In. now split.
    + exact Hin.
    + exact Ht.
  - destruct (Htags t1) as [b' [Hb' Hv']].
    { rewrite Hl. apply in_or_app. right. now left. }
    congruence.
Qed.

(** ** Running maxima and minima *)

(** A running extremum for the comparison [lt]: the result is the start
    value or a listed value; with [lt] transitive and its negation
    transitive, it is below neither the start nor a listed value. *)
Lemma running_pick (lt : real_t -> real_t -> bool) (xs : list real_t)
  (m0 : real_t) :
  fold_left (fun m x => if lt x m then m else x) xs m0 = m0 \/
  In (fold_left (fun m x => if lt x m then m else x) xs m0) xs.
Proof.
  revert m0. induction xs as [| x xs IH]; intro m0; cbn [fold_left].
  - now left.
  - destruct (IH (if lt x m0 then m0 else x)) as [E | Hin].
    + rewrite E. destruct (lt x m0); [now left | right; now left].
    + right. now right.
Qed.

Lemma running_extremum (lt : real_t -> real_t -> bool) (xs : list real_t)
  (m0 : real_t) :
  (forall x, lt x x = false) ->
  (forall x y z, lt x y = true -> lt y z = true -> lt x z = true) ->
  (forall x y z, lt x y = false -> lt y z = false -> lt x z = false) ->
  lt (fold_left (fun m x => if lt x m then m else x) xs m0) m0 = false /\
  forall x, In x xs ->
    lt (fold_left (fun m x => if lt x m then m else x) xs m0) x = false.
Proof.
  intros Hirr Htr Hneg. revert m0.
  induction xs as [| x xs IH]; intro m0; cbn [fold_left].
  - split; [apply Hirr | intros x []].
  - destruct (IH (if lt x m0 then m0 else x)) as [H0 Hall].
    destruct (lt x m0) eqn:Ex.
    + split; [exact H0 |]. intros y [<- | Hy]; [| now apply Hall].
      destruct (lt (fold_left (fun m x0 => if lt x0 m then m else x0) xs m0) x)
        eqn:E; trivial.
      rewrite <- H0. symmetry. now apply Htr with x.
    + split.
      * now apply Hneg with x.
      * intros y [<- | Hy]; [exact H0 | now apply Hall].
Qed.

(** ** evaluate_time_step: the reduction and the report *)

Lemma inverse_time_scales_split (m : mesh_topology) (s : hydro_state) :
  fst (inverse_time_scales m s) =
    fold_left (fun mx x => if rlt x mx then mx else x)
      (map (inverse_acoustic_scale s) (cells m)) r0 /\
  snd (inverse_time_scales m s) =
    fold_left (fun mx x => if rlt x mx then mx else x)
      (map (inverse_volumetric_scale s) (cells m)) r0.
Proof.
  unfold inverse_time_scales.
  assert (H : forall cs a b,
            fold_left
              (fun (acc : real_t * real_t) c =>
                 let dti :=
                   cell_sound_speed s c / cell_min_length (geometry s) c
                   / accoustic (cfl s) in
                 let dt_acc_inv := std_max dti (fst acc) in
                 let dVdt := volumetric_rate_of_change (cell_residual s c) in
                 let dti :=
                   rabs dVdt / cell_volume (geometry s) c / volume (cfl s) in
                 (dt_acc_inv, std_max dti (snd acc))) cs (a, b) =
            (fold_left (fun mx x => if rlt x mx then mx else x)
               (map (inverse_acoustic_scale s) cs) a,
             fold_left (fun mx x => if rlt x mx then mx else x)
               (map (inverse_volumetric_scale s) cs) b)).
  { induction cs as [| c cs IH]; intros a b; cbn [fold_left map fst snd].
    - reflexivity.
    - now rewrite IH. }
  rewrite H. split; reflexivity.
Qed.

(** X10. [evaluate_time_step] returns only if some cell of the mesh has a
    positive inverse acoustic scale and some cell a positive inverse
    volumetric scale (0 not being below itself); on a mesh without cells
    the assertion fails. *)
Theorem evaluate_time_step_needs_scales (m : mesh_topology)
  (s : hydro_state) :
  rlt r0 r0 = false ->
  (evaluate_time_step m s <> None ->
   (exists c, In c (cells m) /\ rlt r0 (inverse_acoustic_scale s c) = true) /\
   (exists c, In c (cells m) /\
              rlt r0 (inverse_volumetric_scale s c) = true)) /\
  (cells m = [] -> evaluate_time_step m s = None).
Proof.
  intro H00.
  destruct (inverse_time_scales_split m s) as [Ea Ev].
  split.
  - intro Hret. unfold evaluate_time_step in Hret.
    destruct (rlt r0 (fst (inverse_time_scales m s))) eqn:Ha;
      [| now contradiction Hret].
    destruct (rlt r0 (snd (inverse_time_scales m s))) eqn:Hv;
      [| now contradiction Hret].
    clear Hret. split.
    + rewrite Ea in Ha.
      destruct (running_pick rlt (map (inverse_acoustic_scale s) (cells m)) r0)
        as [E | Hin].
      * rewrite E in Ha. congruence.
      * apply in_map_iff in Hin. destruct Hin as [c [Ec Hc]].
        exists c. split; [exact Hc |]. now rewrite Ec.
    + rewrite Ev in Hv.
      destruct (running_pick rlt (map (inverse_volumetric_scale s) (cells m))
                  r0) as [E | Hin].
      * rewrite E in Hv. congruence.
      * apply in_map_iff in Hin. destruct Hin as [c [Ec Hc]].
        exists c. split; [exact Hc |]. now rewrite Ec.
  - intro Hnil. unfold evaluate_time_step.
    rewrite Ea, Hnil. cbn [map fold_left]. now rewrite H00.
Qed.

(** X11. when [evaluate_time_step] passes its assertion ([<] irreflexive,
    transitive and with a transitive negation), the acoustic limit is
    [cfl.accoustic] divided by the inverse acoustic scale
    [a_c / L_c / cfl.accoustic] of a cell [c] of the mesh that no cell
    exceeds, and the volumetric limit is [cfl.volume] divided by the
    inverse volumetric scale [|dV_c/dt| / V_c / cfl.volume] of a cell that
    no cell exceeds: each constant divides twice. *)
Theorem time_step_limits_extremal (m : mesh_topology) (s : hydro_state) :
  (forall x, rlt x x = false) ->
  (forall x y z, rlt x y = true -> rlt y z = true -> rlt x z = true) ->
  (forall x y z, rlt x y = false -> rlt y z = false -> rlt x z = false) ->
  rlt r0 (fst (inverse_time_scales m s)) = true ->
  rlt r0 (snd (inverse_time_scales m s)) = true ->
  (exists c, In c (cells m) /\
     dt_acc m s =
       accoustic (cfl s)
       / (cell_sound_speed s c / cell_min_length (geometry s) c
          / accoustic (cfl s)) /\
     forall c', In c' (cells m) ->
       rlt (inverse_acoustic_scale s c) (inverse_acoustic_scale s c')
         = false) /\
  (exists c, In c (cells m) /\
     dt_vol m s =
       volume (cfl s)
       / (rabs (volumetric_rate_of_change (cell_residual s c))
          / cell_volume (geometry s) c / volume (cfl s)) /\
     forall c', In c' (cells m) ->
       rlt (inverse_volumetric_scale s c) (inverse_volumetric_scale s c')
         = false).
Proof.
  intros Hirr Htr Hneg Ha Hv.
  destruct (inverse_time_scales_split m s) as [Ea Ev].
  split.
  - destruct (running_pick rlt (map (inverse_acoustic_scale s) (cells m)) r0)
      as [E | Hin].
    { rewrite Ea, E, Hirr in Ha. discriminate. }
    apply in_map_iff in Hin. destruct Hin as [c [Ec Hc]].
    exists c. split; [exact Hc |]. split.
    + unfold dt_acc. rewrite Ea, <- Ec. reflexivity.
    + intros c' Hc'.
      destruct (running_extremum rlt (map (inverse_acoustic_scale s) (cells m))
                  r0 Hirr Htr Hneg) as [_ Hall].
      rewrite Ec. apply Hall. now apply in_map.
  - destruct (running_pick rlt (map (inverse_volumetric_scale s) (cells m))
                r0) as [E | Hin].
    { rewrite Ev, E, Hirr in Hv. discriminate. }
    apply in_map_iff in Hin. destruct Hin as [c [Ec Hc]].
    exists c. split; [exact Hc |]. split.
    + unfold dt_vol. rewrite Ev, <- Ec. reflexivity.
    + intros c' Hc'.
      destruct (running_extremum rlt
                  (map (inverse_volumetric_scale s) (cells m))
                  r0 Hirr Htr Hneg) as [_ Hall].
      rewrite Ec. apply Hall. now apply in_map.
Qed.

(** X12. the report of [evaluate_time_step] when its assertion holds: the
    acoustic limit is selected and reported as "accoustic" unless another
    limit is strictly below it; the volumetric limit is selected as
    "volume" when it is strictly below the acoustic one and the growth
    limit is not strictly below it; otherwise the growth limit is selected
    as "growth". Only the time step is written. *)
Theorem evaluate_time_step_report (m : mesh_topology) (s : hydro_state) :
  rlt r0 (fst (inverse_time_scales m s)) = true ->
  rlt r0 (snd (inverse_time_scales m s)) = true ->
  evaluate_time_step m s =
  if rlt (dt_vol m s) (dt_acc m s) then
    if rlt (dt_growth s) (dt_vol m s)
    then Some (set_time_step s (dt_growth s), "growth"%string)
    else Some (set_time_step s (dt_vol m s), "volume"%string)
  else
    if rlt (dt_growth s) (dt_acc m s)
    then Some (set_time_step s (dt_growth s), "growth"%string)
    else Some (set_time_step s (dt_acc m s), "accoustic"%string).
Proof.
  intros Ha Hv. unfold evaluate_time_step. rewrite Ha, Hv. cbn [andb].
  unfold min_element. cbn [min_element_from].
  destruct (rlt (dt_vol m s) (dt_acc m s));
    [destruct (rlt (dt_growth s) (dt_vol m s))
    | destruct (rlt (dt_growth s) (dt_acc m s))]; reflexivity.
Qed.

(** ** evaluate_time_step: cells without a volume change *)

Lemma evaluate_time_step_ndebug_agrees (m : mesh_topology)
  (s : hydro_state) :
  rlt r0 (fst (inverse_time_scales m s)) = true ->
  rlt r0 (snd (inverse_time_scales m s)) = true ->
  evaluate_time_step m s = evaluate_time_step_ndebug m s.
Proof.
  intros Ha Hv. unfold evaluate_time_step, evaluate_time_step_ndebug.
  now rewrite Ha, Hv.
Qed.




(** ** min_length *)

Lemma min_length_inner_fold (s : hydro_state) (vi : nat) (vs : list nat)
  (init : real_t) :
  fold_left
    (fun ml vj =>
       if Nat.eqb vi vj then ml
       else
         std_min (vector_abs (vector_sub (coordinates s vi) (coordinates s vj)))
           ml)
    vs init =
  fold_left (fun ml x => if rlt ml x then ml else x)
    (flat_map
       (fun vj => if Nat.eqb vi vj then [] else [vertex_distance s vi vj]) vs)
    init.
Proof.
  revert init. induction vs as [| vj vs IH]; intro init;
    cbn [fold_left flat_map].
  - reflexivity.
  - rewrite fold_left_app, IH. f_equal.
    destruct (Nat.eqb vi vj); reflexivity.
Qed.

Lemma min_length_pairs_fold (s : hydro_state) (vs : list nat)
  (init : real_t) :
  min_length_pairs s vs init =
  fold_left (fun ml x => if rlt ml x then ml else x) (pair_distances s vs)
    init.
Proof.
  unfold min_length_pairs, pair_distances.
  assert (H : forall us init0,
            fold_left
              (fun ml vi =>
                 fold_left
                   (fun ml vj =>
                      if Nat.eqb vi vj then ml
                      else
                        std_min
                          (vector_abs
                             (vector_sub (coordinates s vi) (coordinates s vj)))
                          ml)
                   vs ml)
              us init0 =
            fold_left (fun ml x => if rlt ml x then ml else x)
              (flat_map
                 (fun vi =>
                    flat_map
                      (fun vj =>
                         if Nat.eqb vi vj then []
                         else [vertex_distance s vi vj])
                      vs)
                 us)
              init0).
  { induction us as [| vi us IH]; intro init0; cbn [fold_left flat_map].
    - reflexivity.
    - rewrite fold_left_app, IH. f_equal. apply min_length_inner_fold. }
  apply H.
Qed.

Lemma pair_distances_In (s : hydro_state) (vs : list nat) (x : real_t) :
  In x (pair_distances s vs) <->
  exists vi vj, In vi vs /\ In vj vs /\ vi <> vj /\
                x = vertex_distance s vi vj.
Proof.
  unfold pair_distances. rewrite in_flat_map. split.
  - intros [vi [Hi Hx]]. apply in_flat_map in Hx.
    destruct Hx as [vj [Hj Hx]].
    destruct (Nat.eqb_spec vi vj) as [_ | Hne]; [destruct Hx |].
    destruct Hx as [<- | []]. exists vi, vj. auto.
  - intros [vi [vj [Hi [Hj [Hne ->]]]]]. exists vi. split; [exact Hi |].
    apply in_flat_map. exists vj. split; [exact Hj |].
    destruct (Nat.eqb_spec vi vj); [contradiction | now left].
Qed.

Lemma min_length_pairs_minimum (s : hydro_state) (vs : list nat)
  (init : real_t) :
  (forall x, rlt x x = false) ->
  (forall x y z, rlt x y = true -> rlt y z = true -> rlt x z = true) ->
  (forall x y z, rlt x y = false -> rlt y z = false -> rlt x z = false) ->
  (min_length_pairs s vs init = init \/
   exists vi vj, In vi vs /\ In vj vs /\ vi <> vj /\
                 min_length_pairs s vs init = vertex_distance s vi vj) /\
  rlt init (min_length_pairs s vs init) = false /\
  forall vi vj, In vi vs -> In vj vs -> vi <> vj ->
    rlt (vertex_distance s vi vj) (min_length_pairs s vs init) = false.
Proof.
  intros Hirr Htr Hneg. rewrite min_length_pairs_fold.
  set (gt := fun a b : real_t => rlt b a).
  change (fun ml x => if rlt ml x then ml else x)
    with (fun ml x => if gt x ml then ml else x).
  split; [| split].
  - destruct (running_pick gt (pair_distances s vs) init) as [E | Hin].
    + now left.
    + right. now apply pair_distances_In in Hin.
  - destruct (running_extremum gt (pair_distances s vs) init) as [H0 _];
      unfold gt; eauto.
  - intros vi vj Hi Hj Hne.
    destruct (running_extremum gt (pair_distances s vs) init) as [_ Hall];
      unfold gt; eauto.
    apply (Hall (vertex_distance s vi vj)).
    apply pair_distances_In. exists vi, vj. auto.
Qed.

(** X13. with [<] irreflexive, transitive and with a transitive negation,
    [burton_2d_cell_t::min_length] returns a length that is the length of
    the reference edge [es.front()] or the distance [abs(pi - pj)] of two
    distinct vertices of the cell, and that neither the length of the
    reference edge nor the distance of any two distinct vertices of the
    cell is below. *)
Theorem burton_2d_cell_min_length_minimum (m : mesh_topology)
  (s : hydro_state) (vs es : list nat) :
  (forall x, rlt x x = false) ->
  (forall x y z, rlt x y = true -> rlt y z = true -> rlt x z = true) ->
  (forall x y z, rlt x y = false -> rlt y z = false -> rlt x z = false) ->
  (burton_2d_cell_min_length m s vs es = burton_2d_edge_length m s (front es) \/
   exists vi vj, In vi vs /\ In vj vs /\ vi <> vj /\
                 burton_2d_cell_min_length m s vs es =
                 vector_abs (vector_sub (coordinates s vi) (coordinates s vj)))
  /\
  rlt (burton_2d_edge_length m s (front es))
      (burton_2d_cell_min_length m s vs es) = false /\
  forall vi vj, In vi vs -> In vj vs -> vi <> vj ->
    rlt (vector_abs (vector_sub (coordinates s vi) (coordinates s vj)))
        (burton_2d_cell_min_length m s vs es) = false.
Proof.
  intros Hirr Htr Hneg.
  exact (min_length_pairs_minimum s vs
           (burton_2d_edge_length m s (front es)) Hirr Htr Hneg).
Qed.


(** ** evaluate_nodal_state: the point system and the branches *)

Lemma point_system_fold (s : hydro_state) (cl : nat -> nat) (cs : list nat)
  (sys : matrix_t * vector_t) :
  let r :=
    fold_left
      (fun (sys : matrix_t * vector_t) cn =>
         let pc := cell_pressure s (cl cn) in
         let uc := cell_velocity s (cl cn) in
         let Mp := matrix_add (fst sys) (corner_matrix s cn) in
         let rhs :=
           for_each_dim num_dimensions
             (fun d x => x + pc * corner_normal s cn d) (snd sys) in
         (Mp, ax_plus_y (corner_matrix s cn) uc rhs))
      cs sys in
  (forall i j, (i < num_dimensions)%nat -> (j < num_dimensions)%nat ->
     fst r i j =
     fold_left (fun x cn => x + corner_matrix s cn i j) cs (fst sys i j)) /\
  (forall d, (d < num_dimensions)%nat ->
     snd r d =
     fold_left
       (fun x cn =>
          x + cell_pressure s (cl cn) * corner_normal s cn d
          + mat_vec (corner_matrix s cn) (cell_velocity s (cl cn)) d)
       cs (snd sys d)).
Proof.
  revert sys. induction cs as [| cn cs IH]; intro sys; cbv zeta;
    cbn [fold_left].
  - split; reflexivity.
  - pose proof (IH (matrix_add (fst sys) (corner_matrix s cn),
                    ax_plus_y (corner_matrix s cn) (cell_velocity s (cl cn))
                      (for_each_dim num_dimensions
                         (fun d x =>
                            x + cell_pressure s (cl cn) * corner_normal s cn d)
                         (snd sys)))) as H.
    cbv zeta in H. destruct H as [HM Hr].
    split.
    + intros i j Hi Hj. rewrite (HM i j Hi Hj). cbn [fst]. f_equal.
      unfold matrix_add. rewrite for_each_dim_below by assumption.
      now rewrite for_each_dim_below by assumption.
    + intros d Hd. rewrite (Hr d Hd). cbn [snd]. f_equal.
      unfold ax_plus_y. rewrite for_each_dim_below by assumption.
      now rewrite for_each_dim_below by assumption.
Qed.

Lemma point_system_entries (m : mesh_topology) (s : hydro_state)
  (vt : nat) :
  (forall i j, (i < num_dimensions)%nat -> (j < num_dimensions)%nat ->
     fst (point_system m s vt) i j = point_matrix_entry m s vt i j) /\
  (forall d, (d < num_dimensions)%nat ->
     snd (point_system m s vt) d = point_rhs_entry m s vt d).
Proof.
  exact (point_system_fold s (fun cn => front (cells_of_corner m cn))
           (corners_of_vertex m vt) (mzero, vzero)).
Qed.

Lemma entity_loop_returns (S V : Type) (step : S -> nat -> option S)
  (get : S -> nat -> V) (inv : S -> Prop) (Q : nat -> V -> Prop) :
  (forall a e a', inv a -> step a e = Some a' ->
     inv a' /\ Q e (get a' e) /\
     forall e', e' <> e -> get a' e' = get a e') ->
  forall es s s', inv s -> fold_throw step es (Some s) = Some s' ->
    inv s' /\ (forall e, In e es -> Q e (get s' e)) /\
    forall e, ~ In e es -> get s' e = get s e.
Proof.
  intros Hstep. induction es as [| a es IH]; intros s s' Hs E.
  - cbn in E. inversion E; subst s'. repeat split; trivial. intros e [].
  - unfold fold_throw in E. cbn [fold_left] in E.
    destruct (step s a) as [s1 |] eqn:E1.
    2:{ change (fold_throw step es None = Some s') in E.
        rewrite fold_throw_none in E. discriminate. }
    destruct (Hstep s a s1 Hs E1) as [I1 [Q1 O1]].
    destruct (IH s1 s' I1 E) as [I' [Q' O']].
    split; [exact I' |]. split.
    + intros e Hin. destruct (in_dec Nat.eq_dec e es) as [Hes | Hnes].
      * now apply Q'.
      * destruct Hin as [-> | Hin]; [| contradiction].
        rewrite (O' e Hnes). exact Q1.
    + intros e Hn. rewrite O'.
      * apply O1. intro Heq. apply Hn. now left.
      * intro H. apply Hn. now right.
Qed.

Lemma evaluate_nodal_state_returned (m : mesh_topology)
  (bm : boundary_map_t) (s s' : hydro_state) :
  evaluate_nodal_state m bm s = Some s' ->
  forall v, In v (vertices m) ->
    exists a, nodal_inputs s a /\
              nodal_velocity m bm a v = Some (node_velocity s' v).
Proof.
  intro E. unfold evaluate_nodal_state in E.
  destruct (@entity_loop_returns _ _ (vertex_step m bm) node_velocity
              (nodal_inputs s)
              (fun v u => exists a, nodal_inputs s a /\
                                    nodal_velocity m bm a v = Some u))
    with (es := vertices m) (s := s) (s' := s') as [_ [Q _]].
  - intros a e a' Ha Hstep. unfold vertex_step in Hstep.
    destruct (nodal_velocity m bm a e) as [u |] eqn:Eu; [| discriminate].
    inversion Hstep; subst a'. split; [exact Ha |]. split.
    + exists a. cbn. rewrite upd_same. now split.
    + intros e' Hne. cbn. now apply upd_other.
  - unfold nodal_inputs. repeat split.
  - exact E.
  - exact Q.
Qed.

(** X15. when [evaluate_nodal_state] returns, the velocity of a vertex of
    the mesh that is not flagged as a boundary vertex is
    [math::solve(Mp, rhs)], where [Mp] is the sum of the corner matrices of
    the corners of the vertex and [rhs] the sum of [p_c N_cn + M_cn u_c]
    over them, both from 0 in the order of [mesh.corners(vt)], [c] being
    the first cell of the corner, all read in the state the task started
    from: no tag is looked up, no boundary term and no constraint
    enters. *)
Theorem internal_vertex_velocity (m : mesh_topology) (bm : boundary_map_t)
  (s s' : hydro_state) (v : nat) :
  evaluate_nodal_state m bm s = Some s' -> In v (vertices m) ->
  vertex_is_boundary m v = false ->
  exists Mp rhs,
    node_velocity s' v = solve Mp rhs /\
    (forall i j, (i < num_dimensions)%nat -> (j < num_dimensions)%nat ->
       Mp i j =
       fold_left (fun x cn => x + corner_matrix s cn i j)
         (corners_of_vertex m v) r0) /\
    forall d, (d < num_dimensions)%nat ->
      rhs d =
      fold_left
        (fun x cn =>
           x
           + cell_pressure s (front (cells_of_corner m cn))
             * corner_normal s cn d
           + mat_vec (corner_matrix s cn)
               (cell_velocity s (front (cells_of_corner m cn))) d)
        (corners_of_vertex m v) r0.
Proof.
  intros E Hv Hint.
  destruct (@evaluate_nodal_state_returned m bm s s' E v Hv) as [a [Ha Hu]].
  unfold nodal_velocity in Hu. rewrite Hint in Hu.
  rewrite (@point_system_inputs m s a v Ha) in Hu.
  exists (fst (point_system m s v)), (snd (point_system m s v)).
  split; [now inversion Hu |].
  exact (point_system_entries m s v).
Qed.

Lemma tag_fold_rhs (bm : boundary_map_t)
  (s : hydro_state) (w : nat) (ts : list tag_t) (rhs : vector_t)
  (sn : list (tag_t * vector_t)) (rhs' : vector_t)
  (sn' : list (tag_t * vector_t)) :
  fold_left (tag_step bm s w) ts (Some (rhs, sn)) = Some (rhs', sn') ->
  (forall d, (d < num_dimensions)%nat ->
     rhs' d =
     fold_left (pressure_term s d)
       (flat_map
          (fun tag =>
             match bm tag with
             | Some b => if has_prescribed_pressure b then [(w, b)] else []
             | None => []
             end) ts)
       (rhs d)) /\
  ((forall t, In t ts -> is_symmetry_tag bm t = false) -> sn' = sn).
Proof.
  revert rhs sn. induction ts as [| t ts IH]; intros rhs sn E.
  - cbn in E. inversion E; subst. split; [reflexivity | trivial].
  - cbn [fold_left] in E. unfold tag_step at 2 in E.
    cbn [flat_map]. unfold is_symmetry_tag.
    destruct (bm t) as [b |] eqn:Et.
    2:{ rewrite tag_fold_none in E. discriminate. }
    destruct (has_prescribed_pressure b) eqn:Ep;
      [| destruct (has_symmetry b) eqn:Ey].
    + destruct (IH _ _ E) as [Hr Hs]. split.
      * intros d Hd. rewrite (Hr d Hd). cbn [app fold_left]. f_equal.
        rewrite for_each_dim_below by assumption. reflexivity.
      * intro Hno. apply Hs. intros t' Ht'. apply Hno. now right.
    + destruct (IH _ _ E) as [Hr _]. split.
      * intros d Hd. now rewrite (Hr d Hd).
      * intro Hno. specialize (Hno t (or_introl eq_refl)).
        unfold is_symmetry_tag in Hno. rewrite Et, Ep, Ey in Hno.
        discriminate.
    + destruct (IH _ _ E) as [Hr Hs]. split.
      * intros d Hd. now rewrite (Hr d Hd).
      * intro Hno. apply Hs. intros t' Ht'. apply Hno. now right.
Qed.

Lemma wedge_fold_rhs (m : mesh_topology) (bm : boundary_map_t)
  (s : hydro_state) (ws : list nat) (rhs : vector_t)
  (sn : list (tag_t * vector_t)) (rhs' : vector_t)
  (sn' : list (tag_t * vector_t)) :
  fold_left (wedge_step m bm s) ws (Some (rhs, sn)) = Some (rhs', sn') ->
  (forall d, (d < num_dimensions)%nat ->
     rhs' d = fold_left (pressure_term s d) (pressure_hits m bm ws) (rhs d)) /\
  ((forall w t, In w ws -> In t (face_tags m (front (faces_of_wedge m w))) ->
                is_symmetry_tag bm t = false) -> sn' = sn).
Proof.
  revert rhs sn. induction ws as [| w ws IH]; intros rhs sn E.
  - cbn in E. inversion E; subst. split; [reflexivity | trivial].
  - cbn [fold_left] in E. unfold wedge_step at 2 in E.
    destruct (fold_left (tag_step bm s w)
                (face_tags m (front (faces_of_wedge m w))) (Some (rhs, sn)))
      as [[rhs1 sn1] |] eqn:E1.
    2:{ rewrite wedge_fold_none in E. discriminate. }
    destruct (@tag_fold_rhs bm s w _ rhs sn rhs1 sn1 E1) as [Hr1 Hs1].
    destruct (IH _ _ E) as [Hr Hs]. split.
    + intros d Hd. rewrite (Hr d Hd), (Hr1 d Hd).
      unfold pressure_hits. cbn [flat_map]. now rewrite fold_left_app.
    + intro Hno. rewrite Hs.
      * apply Hs1. intros t Ht. apply (Hno w t); [now left | exact Ht].
      * intros w' t Hw' Ht. apply (Hno w' t); [now right | exact Ht].
Qed.

(** X16. when [evaluate_nodal_state] returns, at a boundary vertex of the
    mesh for which [std::find_if] finds no prescribed velocity, the
    right-hand side the system is solved with is the one of the point
    system less [l_w * pressure(x_w, t) * n_w] for every tag with a
    prescribed pressure on the face of every boundary wedge of the vertex,
    in the order of the two loops; and when no such tag takes the symmetry
    branch, the velocity of the vertex is [math::solve(Mp, rhs)] with this
    right-hand side. *)
Theorem prescribed_pressure_rhs (m : mesh_topology) (bm : boundary_map_t)
  (s s' : hydro_state) (v : nat) :
  evaluate_nodal_state m bm s = Some s' -> In v (vertices m) ->
  vertex_is_boundary m v = true ->
  find_velocity_bc bm (vertex_tags m v) = Some None ->
  exists rhs sn,
    boundary_conditions m bm s v (snd (point_system m s v)) = Some (rhs, sn) /\
    (forall d, (d < num_dimensions)%nat ->
       rhs d =
       fold_left (pressure_term s d)
         (pressure_hits m bm (filter_boundary m (wedges_of_vertex m v)))
         (snd (point_system m s v) d)) /\
    ((forall w t,
        In w (filter_boundary m (wedges_of_vertex m v)) ->
        In t (face_tags m (front (faces_of_wedge m w))) ->
        is_symmetry_tag bm t = false) ->
     node_velocity s' v = solve (fst (point_system m s v)) rhs).
Proof.
  intros E Hv Hbnd Hf.
  destruct (@evaluate_nodal_state_returned m bm s s' E v Hv) as [a [Ha Hu]].
  unfold nodal_velocity in Hu. rewrite Hbnd, Hf in Hu.
  rewrite (@point_system_inputs m s a v Ha) in Hu.
  rewrite (@boundary_conditions_inputs m bm s a v _ Ha) in Hu.
  destruct (boundary_conditions m bm s v (snd (point_system m s v)))
    as [[rhs sn] |] eqn:Eb; [| discriminate].
  exists rhs, sn. split; [reflexivity |].
  unfold boundary_conditions in Eb.
  destruct (@wedge_fold_rhs m bm s _ _ [] rhs sn Eb) as [Hr Hs].
  split; [exact Hr |].
  intro Hno. rewrite (Hs Hno) in Hu. cbn [fst snd] in Hu.
  now inversion Hu.
Qed.

(** ** The systems of evaluate_nodal_state after evaluate_corner_coef *)

Lemma fold_add_ext (f g : nat -> real_t) (l : list nat) (a : real_t) :
  (forall e, In e l -> f e = g e) ->
  fold_left (fun x e => x + f e) l a = fold_left (fun x e => x + g e) l a.
Proof.
  revert a. induction l as [| e l IH]; intros a H; cbn [fold_left].
  - reflexivity.
  - rewrite (H e (or_introl eq_refl)). apply IH.
    intros e' He'. apply H. now right.
Qed.

Lemma corner_matrix_symmetric (m : mesh_topology) (s : hydro_state) :
  (forall x y : real_t, x * y = y * x) ->
  forall cn, In cn (corners m) ->
    forall i j, (i < num_dimensions)%nat -> (j < num_dimensions)%nat ->
      corner_matrix (evaluate_corner_coef m s) cn i j =
      corner_matrix (evaluate_corner_coef m s) cn j i.
Proof.
  intro Hcomm. unfold evaluate_corner_coef.
  destruct (entity_loop (corner_step m) corner_matrix (fun _ => True)
              (fun (_ : nat) (M : matrix_t) =>
                 forall i j,
                   (i < num_dimensions)%nat -> (j < num_dimensions)%nat ->
                   M i j = M j i))
    with (es := corners m) (s := s) as [_ Hq].
  - trivial.
  - intros a e _ i j Hi Hj.
    destruct (corner_step_spec m a e) as [_ [_ [Hm _]]].
    rewrite (Hm i j Hi Hj), (Hm j i Hj Hi). apply sum_list_map_ext.
    intros w _. f_equal. apply Hcomm.
  - intros a e e' Hne. destruct (corner_step_spec m a e) as [_ [Ho _]].
    now destruct (Ho e' Hne).
  - exact I.
  - exact Hq.
Qed.

(** X17. with a commutative product, the matrices [evaluate_nodal_state]
    solves with after [evaluate_corner_coef] has filled the corner matrices
    are symmetric: the D x D matrix [Mp] of a vertex whose corners are
    corners of the mesh, and the system grown by the symmetry constraints
    that is handed to [qr], whatever the constraints are. *)
Theorem nodal_systems_symmetric (m : mesh_topology) (s : hydro_state)
  (v : nat) :
  (forall x y : real_t, x * y = y * x) ->
  (forall cn, In cn (corners_of_vertex m v) -> In cn (corners m)) ->
  (forall i j, (i < num_dimensions)%nat -> (j < num_dimensions)%nat ->
     fst (point_system m (evaluate_corner_coef m s) v) i j =
     fst (point_system m (evaluate_corner_coef m s) v) j i) /\
  forall rhs sn i j,
    fst (symmetry_system
           (fst (point_system m (evaluate_corner_coef m s) v)) rhs sn) i j =
    fst (symmetry_system
           (fst (point_system m (evaluate_corner_coef m s) v)) rhs sn) j i.
Proof.
  intros Hcomm Hcn.
  assert (HM : forall i j,
            (i < num_dimensions)%nat -> (j < num_dimensions)%nat ->
            fst (point_system m (evaluate_corner_coef m s) v) i j =
            fst (point_system m (evaluate_corner_coef m s) v) j i).
  { intros i j Hi Hj.
    destruct (point_system_entries m (evaluate_corner_coef m s) v)
      as [He _].
    rewrite (He i j Hi Hj), (He j i Hj Hi). unfold point_matrix_entry.
    apply fold_add_ext. intros cn Hin.
    apply (@corner_matrix_symmetric m s Hcomm cn (Hcn cn Hin) i j Hi Hj). }
  split; [exact HM |].
  intros rhs sn i j.
  destruct (symmetry_system_saddle
              (fst (point_system m (evaluate_corner_coef m s) v)) rhs sn)
    as [HA _].
  rewrite (HA i j), (HA j i). unfold saddle_point.
  destruct (Nat.ltb_spec i num_dimensions) as [Hi | Hi];
    destruct (Nat.ltb_spec j num_dimensions) as [Hj | Hj]; trivial.
  now apply HM.
Qed.

(** ** The balance of the corner forces around a vertex *)

Section Balance.

(** The arithmetic is a commutative ring here; [rone] and [ropp] are its
    unit and its opposite. *)
Variable rone : real_t.
Variable ropp : real_t -> real_t.
Hypothesis real_ring : ring_theory r0 rone radd rmul rsub ropp (@eq real_t).

Add Ring RealRing : real_ring.

Lemma sum_list_from (xs : list real_t) (a : real_t) :
  fold_left radd xs a = a + sum_list xs.
Proof using real_ring.
  unfold sum_list. revert a. induction xs as [| x xs IH]; intro a;
    cbn [fold_left].
  - ring.
  - rewrite (IH (a + x)), (IH (r0 + x)). ring.
Qed.

Lemma sum_list_plus (f g : nat -> real_t) (l : list nat) :
  sum_list (map (fun j => f j + g j) l) =
  sum_list (map f l) + sum_list (map g l).
Proof using real_ring.
  induction l as [| j l IH]; unfold sum_list in *; cbn [map fold_left].
  - ring.
  - rewrite (sum_list_from _ (r0 + (f j + g j))),
      (sum_list_from _ (r0 + f j)), (sum_list_from _ (r0 + g j)).
    unfold sum_list. rewrite IH. ring.
Qed.

Lemma sum_list_minus (f g : nat -> real_t) (l : list nat) :
  sum_list (map (fun j => f j - g j) l) =
  sum_list (map f l) - sum_list (map g l).
Proof using real_ring.
  induction l as [| j l IH]; unfold sum_list in *; cbn [map fold_left].
  - ring.
  - rewrite (sum_list_from _ (r0 + (f j - g j))),
      (sum_list_from _ (r0 + f j)), (sum_list_from _ (r0 + g j)).
    unfold sum_list. rewrite IH. ring.
Qed.

Lemma sum_list_zero (u : nat -> real_t) (l : list nat) :
  sum_list (map (fun j => r0 * u j) l) = r0.
Proof using real_ring.
  induction l as [| j l IH]; unfold sum_list in *; cbn [map fold_left].
  - reflexivity.
  - rewrite (sum_list_from _ (r0 + r0 * u j)). unfold sum_list.
    rewrite IH. ring.
Qed.

Lemma corner_forces_fold (m : mesh_topology) (s : hydro_state) (v d : nat)
  (cs : list nat) (accF accR : real_t) (accM : nat -> real_t) :
  (forall cn, In cn cs -> front (vertices_of_corner m cn) = v) ->
  accF =
  accR - sum_list (map (fun j => accM j * node_velocity s v j)
                     (seq 0 num_dimensions)) ->
  fold_left
    (fun x cn => x + subcell_force m s (front (cells_of_corner m cn)) cn d)
    cs accF =
  fold_left
    (fun x cn =>
       x + cell_pressure s (front (cells_of_corner m cn)) * corner_normal s cn d
       + mat_vec (corner_matrix s cn)
           (cell_velocity s (front (cells_of_corner m cn))) d)
    cs accR
  - sum_list
      (map (fun j =>
              fold_left (fun x cn => x + corner_matrix s cn d j) cs (accM j)
              * node_velocity s v j)
         (seq 0 num_dimensions)).
Proof using real_ring.
  revert accF accR accM.
  induction cs as [| cn cs IH]; intros accF accR accM Hv Hacc;
    cbn [fold_left].
  - exact Hacc.
  - apply (IH _ _ (fun j => accM j + corner_matrix s cn d j)).
    + intros cn' Hin. apply Hv. now right.
    + unfold subcell_force. rewrite (Hv cn (or_introl eq_refl)).
      unfold mat_vec.
      rewrite (sum_list_map_ext
                 (fun j =>
                    corner_matrix s cn d j
                    * (cell_velocity s (front (cells_of_corner m cn)) j
                       - node_velocity s v j))
                 (fun j =>
                    corner_matrix s cn d j
                    * cell_velocity s (front (cells_of_corner m cn)) j
                    - corner_matrix s cn d j * node_velocity s v j))
        by (intros; ring).
      rewrite sum_list_minus.
      rewrite (sum_list_map_ext
                 (fun j =>
                    (accM j + corner_matrix s cn d j) * node_velocity s v j)
                 (fun j =>
                    accM j * node_velocity s v j
                    + corner_matrix s cn d j * node_velocity s v j))
        by (intros; ring).
      rewrite sum_list_plus, Hacc. ring.
Qed.

(** X18. around a vertex [v] all of whose corners have [v] as their
    vertex, the forces [corner_force] computes for [evaluate_forces], one
    per corner with the first cell of the corner, add up to the right-hand
    side of the point system of [v] less [Mp u_v]; they add up to 0 when
    the nodal velocity solves the point system, [Mp u_v = rhs]. The
    arithmetic is a commutative ring. *)
Theorem corner_forces_balance (m : mesh_topology) (s : hydro_state)
  (v d : nat) :
  (forall cn, In cn (corners_of_vertex m v) ->
              front (vertices_of_corner m cn) = v) ->
  (d < num_dimensions)%nat ->
  fold_left
    (fun x cn => x + corner_force m s (front (cells_of_corner m cn)) cn d)
    (corners_of_vertex m v) r0 =
  snd (point_system m s v) d
  - mat_vec (fst (point_system m s v)) (node_velocity s v) d /\
  (mat_vec (fst (point_system m s v)) (node_velocity s v) d =
   snd (point_system m s v) d ->
   fold_left
     (fun x cn => x + corner_force m s (front (cells_of_corner m cn)) cn d)
     (corners_of_vertex m v) r0 = r0).
Proof using real_ring.
  intros Hv Hd.
  assert (E : fold_left
                (fun x cn =>
                   x + corner_force m s (front (cells_of_corner m cn)) cn d)
                (corners_of_vertex m v) r0 =
              snd (point_system m s v) d
              - mat_vec (fst (point_system m s v)) (node_velocity s v) d).
  { rewrite (fold_add_ext
               (fun cn =>
                  corner_force m s (front (cells_of_corner m cn)) cn d)
               (fun cn =>
                  subcell_force m s (front (cells_of_corner m cn)) cn d))
      by (intros; now apply corner_force_spec).
    rewrite (@corner_forces_fold m s v d (corners_of_vertex m v) r0 r0
               (fun _ => r0) Hv)
      by (rewrite sum_list_zero; ring).
    destruct (point_system_entries m s v) as [HM Hr].
    rewrite (Hr d Hd). unfold point_rhs_entry. f_equal.
    unfold mat_vec. apply sum_list_map_ext. intros j Hj.
    apply in_seq in Hj. rewrite (HM d j Hd) by lia.
    reflexivity. }
  split; [exact E |].
  intro Hsol. rewrite E, Hsol. ring.
Qed.

End Balance.

(** ** output: when a file is written, and under which name *)

Lemma string_length_append (a b : string) :
  String.length (a ++ b) = (String.length a + String.length b)%nat.
Proof.
  induction a as [| c a IH]; cbn [String.append String.length].
  - reflexivity.
  - now rewrite IH.
Qed.

Lemma fill_string_length (n : nat) (fill : ascii) :
  String.length (fill_string n fill) = n.
Proof.
  unfold fill_string. induction n as [| n IH];
    cbn [repeat string_of_list_ascii String.length].
  - reflexivity.
  - now rewrite IH.
Qed.

Lemma string_append_cancel_l (a b c : string) :
  (a ++ b)%string = (a ++ c)%string -> b = c.
Proof.
  induction a as [| x a IH]; cbn [String.append]; intro H.
  - exact H.
  - inversion H. now apply IH.
Qed.

Lemma string_append_same_length (a b c d : string) :
  String.length a = String.length b ->
  (a ++ c)%string = (b ++ d)%string -> a = b.
Proof.
  revert b. induction a as [| x a IH]; intros [| y b] Hl H;
    cbn [String.length] in Hl; try discriminate.
  - reflexivity.
  - cbn [String.append] in H. inversion H. f_equal.
    apply IH; [now inversion Hl | assumption].
Qed.

Lemma read_decimal_padded (k cnt : nat) :
  read_decimal (fill_string k "0"%char ++ decimal_digits cnt) = Some cnt.
Proof.
  unfold read_decimal, decimal_digits, fill_string.
  induction k as [| k IH]; cbn [repeat string_of_list_ascii String.append].
  - rewrite NilEmpty.usu. cbn [option_map]. now rewrite Unsigned.of_to.
  - cbn [NilEmpty.uint_of_string].
    destruct (NilEmpty.uint_of_string
                (string_of_list_ascii (repeat "0"%char k)
                 ++ NilEmpty.string_of_uint (Nat.to_uint cnt)))
      as [d |]; [| discriminate].
    cbn [option_map] in IH. inversion IH as [E].
    cbn [uint_of_char option_map]. reflexivity.
Qed.

(** X19. [output] writes a file exactly when the output frequency is at
    least 1 and divides the time step counter (a frequency of 0 never
    writes), and then the name of the file is the prefix, a field, a dot
    and the postfix, where the field is the counter in decimal digits
    padded with zeros on the left to 7 characters, and longer when the
    counter has more than 7 digits: read back as a decimal number the
    field is the counter. *)
Theorem output_file_name (cnt : nat) (prefix postfix : string)
  (output_freq : nat) :
  (output cnt prefix postfix output_freq <> None <->
   (1 <= output_freq)%nat /\ cnt mod output_freq = 0%nat) /\
  forall name, output cnt prefix postfix output_freq = Some name ->
    exists field,
      name = (prefix ++ field ++ "." ++ postfix)%string /\
      String.length field =
        Nat.max 7 (String.length (decimal_digits cnt)) /\
      read_decimal field = Some cnt.
Proof.
  unfold output. split.
  - destruct (Nat.ltb_spec output_freq 1) as [Hf | Hf].
    + split; [intro H; now contradiction H | intros [H _]; lia].
    + destruct (Nat.eqb_spec (cnt mod output_freq) 0) as [Hm | Hm];
        cbn [negb].
      * split; [intros _; now split | intros _; discriminate].
      * split; [intro H; now contradiction H | intros [_ H]; contradiction].
  - intros name H.
    destruct (output_freq <? 1)%nat; [discriminate |].
    destruct (negb (Nat.eqb (cnt mod output_freq) 0)); [discriminate |].
    inversion H as [E].
    exists (setw_setfill 7 "0"%char (decimal_digits cnt)).
    split; [reflexivity |]. split.
    + unfold setw_setfill.
      rewrite string_length_append, fill_string_length. lia.
    + apply read_decimal_padded.
Qed.

(** X20. two time step counters for which [output] writes a file of the
    same name, with the same prefix and postfix, are the same counter:
    distinct time steps never write to the same file, also beyond 7
    digits. *)
Theorem output_names_distinct (cnt cnt' : nat) (prefix postfix : string)
  (output_freq output_freq' : nat) (name : string) :
  output cnt prefix postfix output_freq = Some name ->
  output cnt' prefix postfix output_freq' = Some name ->
  cnt = cnt'.
Proof.
  unfold output. intros H H'.
  destruct (output_freq <? 1)%nat; [discriminate |].
  destruct (negb (Nat.eqb (cnt mod output_freq) 0)); [discriminate |].
  destruct (output_freq' <? 1)%nat; [discriminate |].
  destruct (negb (Nat.eqb (cnt' mod output_freq') 0)); [discriminate |].
  inversion H as [E]. rewrite <- E in H'. inversion H' as [E'].
  apply string_append_cancel_l in E'.
  assert (Hl : String.length (setw_setfill 7 "0"%char (decimal_digits cnt')) =
               String.length (setw_setfill 7 "0"%char (decimal_digits cnt))).
  { apply (f_equal String.length) in E'.
    rewrite !string_length_append in E'. lia. }
  apply (string_append_same_length _ _ _ _ Hl) in E'.
  pose proof (read_decimal_padded
                (7 - String.length (decimal_digits cnt)) cnt) as R.
  pose proof (read_decimal_padded
                (7 - String.length (decimal_digits cnt')) cnt') as R'.
  unfold setw_setfill in E'. rewrite E' in R'. congruence.
Qed.

(** ** burton_quadrilateral_t: edges and corners *)

(** X21. [create_entities] of the quadrilateral returns exactly for
    [dim = 1] and four vertices, and then writes four edges of two vertices
    each that form a closed ring: edge [k] runs from vertex [k] to vertex
    [k + 1], the last one back to vertex 0. *)
Theorem quad_create_entities_ring (dim : nat) (v : list nat) :
  (quad_create_entities dim v <> None <->
   dim = 1%nat /\ length v = 4%nat) /\
  forall e counts, quad_create_entities dim v = Some (e, counts) ->
    length counts = 4%nat /\ length e = list_sum counts /\
    forall k, (k < 4)%nat ->
      nth k counts 0%nat = 2%nat /\
      edge_ends e k = (nth k v 0%nat, nth ((k + 1) mod 4) v 0%nat).
Proof.
  unfold quad_create_entities. split.
  - destruct (Nat.eqb_spec dim 1) as [Hd | Hd]; cbn [negb].
    + destruct (Nat.eqb_spec (length v) 4) as [Hv | Hv]; cbn [negb].
      * split; [intros _; now split | intros _; discriminate].
      * split; [intro H; now contradiction H | intros [_ H]; contradiction].
    + split; [intro H; now contradiction H | intros [H _]; contradiction].
  - intros e counts H.
    destruct (negb (Nat.eqb dim 1)); [discriminate |].
    destruct (negb (Nat.eqb (length v) 4)); [discriminate |].
    inversion H; subst e counts. split; [reflexivity |].
    split; [reflexivity |].
    intros k Hk.
    destruct k as [| [| [| [| k]]]]; [| | | | lia];
      split; reflexivity.
Qed.

(** X22. the corners [create_bound_entities] of the quadrilateral writes
    for [dim = 1], from the vertices and the ids of the edges in the order
    [create_entities] made them: corner [k] is vertex [k] with edge [k] and
    then edge [k - 1] (edge 3 for corner 0), and both edges abut the
    vertex, the first one starting there and the second one ending
    there. *)
Theorem quad_corner_edges_abut_vertex (v es e ec c cc : list nat) :
  quad_create_entities 1 v = Some (e, ec) ->
  quad_create_bound_entities 1 [v; es] = Some (c, cc) ->
  length c = list_sum cc /\
  forall k, (k < 4)%nat ->
    nth k cc 0%nat = 3%nat /\
    nth (3 * k) c 0%nat = nth k v 0%nat /\
    nth (3 * k + 1) c 0%nat = nth k es 0%nat /\
    nth (3 * k + 2) c 0%nat = nth ((k + 3) mod 4) es 0%nat /\
    fst (edge_ends e k) = nth k v 0%nat /\
    snd (edge_ends e ((k + 3) mod 4)) = nth k v 0%nat.
Proof.
  unfold quad_create_entities, quad_create_bound_entities.
  cbn [Nat.eqb negb nth]. intros He Hc.
  destruct (negb (Nat.eqb (length v) 4)); [discriminate |].
  inversion He; subst e ec. inversion Hc; subst c cc.
  split; [reflexivity |].
  intros k Hk.
  destruct k as [| [| [| [| k]]]]; [| | | | lia];
    repeat split; reflexivity.
Qed.

End Hydro.

(** * Two unit squares over the rationals

    The operations are instantiated with exact rational arithmetic and the
    tasks are run on a mesh of two quadrilateral cells:
<<
      v3 ---f4--- v4 ---f3--- v5
      |           |           |
      f5    c0    f6    c1    f2
      |           |           |
      v0 ---f0--- v1 ---f1--- v2
>>
    Corner [4 c + k] is the [k]-th corner of the cell [c], wedges [2 cn] and
    [2 cn + 1] are the wedges of the corner [cn]. The bottom carries tag 1,
    the right side tag 2, the top tag 3 and the left side tag 4. *)

From Stdlib Require Import ZArith QArith Qcanon Qcabs.

Close Scope Qc_scope.
Close Scope Q_scope.

(** The square root of a rational that is the square of a rational. *)
Definition Qc_sqrt (q : Qc) : Qc :=
  Q2Qc (Z.sqrt (Qnum q) # Pos.sqrt (Qden q))%Q.

#[export] Instance Qc_ops : real_ops Qc := {|
  r0 := Q2Qc 0;
  radd := Qcplus;
  rsub := Qcminus;
  rmul := Qcmult;
  rdiv := Qcdiv;
  rabs := Qcabs;
  rsqrt := Qc_sqrt;
  rlt := fun x y => negb (Qle_bool y x);
  rsize := fun n => Q2Qc (inject_Z (Z.of_nat n))
|}.

Definition qc (n : Z) (d : positive) : Qc := Q2Qc (n # d)%Q.

Definition vec2 (x y : Qc) : nat -> Qc :=
  fun d => match d with 0%nat => x | 1%nat => y | _ => Q2Qc 0 end.

Definition vec3 (x y z : Qc) : nat -> Qc :=
  fun d =>
    match d with 0%nat => x | 1%nat => y | 2%nat => z | _ => Q2Qc 0 end.

Definition ex_mesh : mesh_topology := {|
  cells := [0; 1]%nat;
  vertices := [0; 1; 2; 3; 4; 5]%nat;
  corners := [0; 1; 2; 3; 4; 5; 6; 7]%nat;
  cells_of_vertex :=
    fun v => nth v [[0]; [0; 1]; [1]; [0]; [0; 1]; [1]]%nat [];
  corners_of_vertex :=
    fun v => nth v [[0]; [1; 4]; [5]; [3]; [2; 7]; [6]]%nat [];
  wedges_of_vertex :=
    fun v =>
      nth v [[0; 1]; [2; 3; 8; 9]; [10; 11]; [6; 7]; [4; 5; 14; 15];
             [12; 13]]%nat [];
  corners_of_cell := fun c => nth c [[0; 1; 2; 3]; [4; 5; 6; 7]]%nat [];
  cells_of_corner := fun cn => [Nat.div cn 4];
  vertices_of_corner := fun cn => [nth cn [0; 1; 4; 3; 1; 2; 5; 4]%nat 0%nat];
  wedges_of_corner := fun cn => [2 * cn; 2 * cn + 1]%nat;
  faces_of_wedge :=
    fun w =>
      [nth w [0; 5; 6; 0; 4; 6; 5; 4; 1; 6; 2; 1; 3; 2; 6; 3]%nat 0%nat];
  cells_of_wedge := fun w => [Nat.div w 8];
  vertices_of_edge :=
    fun e =>
      nth e [[0; 1]; [1; 2]; [2; 5]; [5; 4]; [4; 3]; [3; 0]; [1; 4]]%nat [];
  vertex_is_boundary := fun v => (v <? 6)%nat;
  wedge_is_boundary :=
    fun w =>
      negb (Nat.eqb
              (nth w [0; 5; 6; 0; 4; 6; 5; 4; 1; 6; 2; 1; 3; 2; 6; 3]%nat
                 0%nat) 6);
  vertex_tags :=
    fun v => nth v [[1; 4]; [1]; [1; 2]; [3; 4]; [3]; [2; 3]]%nat [];
  face_tags := fun f => nth f [[1]; [1]; [2]; [3]; [3]; [4]; []]%nat []
|}.

(** Tags 1 and 2: the defaults of [boundary_condition_t], a symmetry
    plane. Tag 3: a prescribed velocity. Tag 4: a prescribed pressure, with
    [has_symmetry] left at its default. *)
Definition ex_symmetry : boundary_condition_t (real_t := Qc) := {|
  has_prescribed_velocity := false;
  has_prescribed_pressure := false;
  has_symmetry := true;
  velocity := fun _ _ => vec2 (Q2Qc 0) (Q2Qc 0);
  pressure := fun _ _ => Q2Qc 0
|}.

Definition ex_inflow : boundary_condition_t (real_t := Qc) := {|
  has_prescribed_velocity := true;
  has_prescribed_pressure := false;
  has_symmetry := true;
  velocity := fun x t => vec2 (Q2Qc 0) (Qcminus t (x 0%nat));
  pressure := fun _ _ => Q2Qc 0
|}.

Definition ex_outflow : boundary_condition_t (real_t := Qc) := {|
  has_prescribed_velocity := false;
  has_prescribed_pressure := true;
  has_symmetry := true;
  velocity := fun _ _ => vec2 (Q2Qc 0) (Q2Qc 0);
  pressure := fun _ _ => qc 1 10
|}.

Definition ex_boundary_map : boundary_map_t (real_t := Qc) :=
  fun tag =>
    match tag with
    | 1%nat | 2%nat => Some ex_symmetry
    | 3%nat => Some ex_inflow
    | 4%nat => Some ex_outflow
    | _ => None
    end.

Definition ex_geometry : geometry_t (real_t := Qc) := {|
  cell_volume := fun _ => qc 1 1;
  cell_min_length := fun _ => qc 1 1;
  wedge_facet_normal :=
    fun w =>
      nth w
        [vec2 (qc 0 1) (qc (-1) 1); vec2 (qc (-1) 1) (qc 0 1);
         vec2 (qc 1 1) (qc 0 1); vec2 (qc 0 1) (qc (-1) 1);
         vec2 (qc 0 1) (qc 1 1); vec2 (qc 1 1) (qc 0 1);
         vec2 (qc (-1) 1) (qc 0 1); vec2 (qc 0 1) (qc 1 1);
         vec2 (qc 0 1) (qc (-1) 1); vec2 (qc (-1) 1) (qc 0 1);
         vec2 (qc 1 1) (qc 0 1); vec2 (qc 0 1) (qc (-1) 1);
         vec2 (qc 0 1) (qc 1 1); vec2 (qc 1 1) (qc 0 1);
         vec2 (qc (-1) 1) (qc 0 1); vec2 (qc 0 1) (qc 1 1)]
        (vec2 (qc 0 1) (qc 0 1));
  wedge_facet_area := fun _ => qc 1 2;
  wedge_facet_centroid := fun _ => vec2 (qc 1 1) (qc 1 2)
|}.

Definition ex_coordinates : nat -> nat -> Qc :=
  fun v =>
    nth v
      [vec2 (qc 0 1) (qc 0 1); vec2 (qc 1 1) (qc 0 1);
       vec2 (qc 2 1) (qc 0 1); vec2 (qc 0 1) (qc 1 1);
       vec2 (qc 1 1) (qc 1 1); vec2 (qc 2 1) (qc 1 1)]
      (vec2 (qc 0 1) (qc 0 1)).

(** The state before the corner assembly: density 1 and 1/8, pressure 1
    and 1/10, the left cell moving to the right, dV/dt = 1/4 in both
    cells, the previous step 1/4 and the growth constant 2. *)
Definition ex_state : hydro_state (real_t := Qc) := {|
  cell_mass := fun c => nth c [qc 1 1; qc 1 8] (qc 0 1);
  cell_pressure := fun c => nth c [qc 1 1; qc 1 10] (qc 0 1);
  cell_velocity :=
    fun c =>
      nth c [vec2 (qc 1 1) (qc 0 1); vec2 (qc 0 1) (qc 0 1)]
        (vec2 (qc 0 1) (qc 0 1));
  cell_density := fun c => nth c [qc 1 1; qc 1 8] (qc 0 1);
  cell_internal_energy := fun c => nth c [qc 5 2; qc 2 1] (qc 0 1);
  cell_temperature := fun _ => qc 1 1;
  cell_sound_speed := fun _ => qc 1 1;
  cell_velocity_1 := fun _ => vec2 (qc 0 1) (qc 0 1);
  cell_internal_energy_1 := fun _ => qc 0 1;
  cell_residual :=
    fun _ =>
      {| dmass_dt := qc 0 1; dmomentum_dt := vec2 (qc 0 1) (qc 0 1);
         denergy_dt := qc 0 1; dvolume_dt := qc 1 4 |};
  node_velocity := fun _ => vec2 (qc 1 2) (qc 0 1);
  node_coordinates := fun _ => vec2 (qc 0 1) (qc 0 1);
  corner_matrix := fun _ _ _ => qc 0 1;
  corner_normal := fun _ => vec2 (qc 0 1) (qc 0 1);
  coordinates := ex_coordinates;
  geometry := ex_geometry;
  time_step := qc 1 4;
  cfl := {| accoustic := qc 1 1; volume := qc 1 1; growth := qc 2 1 |};
  soln_time := qc 3 1
|}.

(** The same state with the residual of every cell at rest. *)
Definition ex_state_at_rest : hydro_state (real_t := Qc) :=
  set_cell_residual ex_state (fun _ => flux_zero).

(** An edge along the third axis: vertex 0 at the origin, vertex 1 at
    (0, 0, 1). *)
Definition ex_state_3d : hydro_state (real_t := Qc) :=
  set_coordinates ex_state
    (fun v =>
       match v with
       | 0%nat => vec3 (qc 0 1) (qc 0 1) (qc 0 1)
       | _ => vec3 (qc 0 1) (qc 0 1) (qc 1 1)
       end).

(** [mesh.update_geometry()] on the squares: the cache is the one of the
    unit squares whatever the coordinates are. *)
Definition ex_compute_geometry (_ : mesh_topology) (_ : nat -> nat -> Qc)
  : geometry_t (real_t := Qc) := ex_geometry.

(** A linear solver for the example: Gauss-Jordan elimination on the rows
    of the augmented system, exact over the rationals. It stands for
    [math::solve] and for what [qr] leaves in the right-hand side. *)
Fixpoint find_pivot (col : nat) (rows : list (list Qc))
  : option (list Qc * list (list Qc)) :=
  match rows with
  | [] => None
  | r :: rest =>
      if Qeq_bool (this (nth col r (Q2Qc 0))) 0 then
        match find_pivot col rest with
        | None => None
        | Some (p, others) => Some (p, r :: others)
        end
      else Some (r, rest)
  end.

Fixpoint eliminate (fuel col : nat) (done pending : list (list Qc))
  : list (list Qc) :=
  match fuel with
  | O => done ++ pending
  | S fuel' =>
      match find_pivot col pending with
      | None => done ++ pending
      | Some (p, rest) =>
          let p' := map (fun x => Qcdiv x (nth col p (Q2Qc 0))) p in
          let sub r :=
            map (fun xy => Qcminus (fst xy)
                             (Qcmult (nth col r (Q2Qc 0)) (snd xy)))
              (combine r p') in
          eliminate fuel' (S col) (map sub done ++ [p']) (map sub rest)
      end
  end.

Definition linear_solve (n : nat) (A : nat -> nat -> Qc) (b : nat -> Qc)
  : nat -> Qc :=
  let rows := map (fun i => map (A i) (seq 0 n) ++ [b i]) (seq 0 n) in
  fun d => nth n (nth d (eliminate n 0 [] rows) []) (Q2Qc 0).

Definition ex_solve : (nat -> nat -> Qc) -> (nat -> Qc) -> nat -> Qc :=
  linear_solve 2.

Definition ex_qr : nat -> (nat -> nat -> Qc) -> (nat -> Qc) -> nat -> Qc :=
  linear_solve.

(** The state after the corner assembly. *)
Definition ex_state_assembled : hydro_state (real_t := Qc) :=
  evaluate_corner_coef 2 ex_mesh ex_state.

(** ** The order and the zero of the rationals *)

Lemma Qc_rlt_spec (x y : Qc) : rlt x y = true <-> (x < y)%Q.
Proof.
  cbn. rewrite negb_true_iff. split.
  - intro H. apply Qnot_le_lt. intro Hle.
    apply Qle_bool_iff in Hle. congruence.
  - intro H. destruct (Qle_bool y x) eqn:E; trivial.
    apply Qle_bool_iff in E. exfalso. exact (Qlt_not_le _ _ H E).
Qed.

Lemma Qc_rlt_irrefl (x : Qc) : rlt x x = false.
Proof.
  destruct (rlt x x) eqn:E; trivial.
  apply Qc_rlt_spec in E. exfalso. exact (Qlt_irrefl _ E).
Qed.

Lemma Qc_rlt_trans (x y z : Qc) :
  rlt x y = true -> rlt y z = true -> rlt x z = true.
Proof.
  rewrite !Qc_rlt_spec. apply Qlt_trans.
Qed.

Lemma Qc_abs_zero : rabs (r0 : Qc) = r0.
Proof. apply Qc_is_canon. reflexivity. Qed.

Lemma Qc_zero_div (x : Qc) : x <> r0 -> rdiv r0 x = r0.
Proof.
  intros _. cbn. unfold Qcdiv. apply Qcmult_0_l.
Qed.

Lemma qc_nonzero (n : Z) (d : positive) :
  Qeq_bool (n # d) 0 = false -> qc n d <> r0.
Proof.
  intros H E.
  assert (Hq : (qc n d == Q2Qc 0)%Q) by (rewrite E; reflexivity).
  unfold qc, Q2Qc in Hq. cbn [this] in Hq.
  rewrite !Qred_correct in Hq. apply Qeq_bool_iff in Hq. congruence.
Qed.

Lemma ex_boundary_map_covers : boundary_map_covers ex_mesh ex_boundary_map.
Proof.
  split.
  - intros v t Hv Ht. cbn in Hv.
    repeat (destruct Hv as [<- | Hv];
            [cbn in Ht;
             repeat (destruct Ht as [<- | Ht]; [discriminate |]);
             destruct Ht |]).
    destruct Hv.
  - intros v w t Hv Hw Ht. cbn in Hv.
    repeat (destruct Hv as [<- | Hv];
            [cbn in Hw;
             repeat (destruct Hw as [<- | Hw];
                     [cbn in Ht;
                      repeat (destruct Ht as [<- | Ht]; [discriminate |]);
                      destruct Ht |]);
             destruct Hw |]).
    destruct Hv.
Qed.

Lemma ex_face_tags_NoDup (f : nat) : NoDup (face_tags ex_mesh f).
Proof.
  do 7 (destruct f as [| f];
        [cbn; repeat constructor; cbn; intros [] |]).
  destruct f; constructor.
Qed.

(** ** The tasks run on the two squares *)

(** The corner assembly: every corner of the left cell gets the matrix
    1/2 I, every corner of the right cell 1/16 I. *)
Example ex_corner_matrices :
  map (fun cn =>
         map (fun ij => this (corner_matrix ex_state_assembled cn
                                (fst ij) (snd ij)))
           [(0, 0); (0, 1); (1, 0); (1, 1)]%nat)
    [0; 4]%nat
  = [[1 # 2; 0; 0; 1 # 2]; [1 # 16; 0; 0; 1 # 16]]%Q.
Proof. vm_compute. reflexivity. Qed.

(** At [v1] both boundary wedges lie on faces of tag 1: one normal, the
    sum (0, -1/2) + (0, -1/2). At [v2] the tags 1 and 2 keep a normal
    each. *)
Example ex_symmetry_normals :
  map (fun v =>
         option_map
           (fun r =>
              map (fun kv => (fst kv, map (fun d => this (snd kv d))
                                        [0; 1]%nat)) (snd r))
           (boundary_conditions 2 ex_mesh ex_boundary_map ex_state_assembled
              v (snd (point_system 2 ex_mesh ex_state_assembled v))))
    [1; 2]%nat
  = [Some [(1%nat, [0; -1])];
     Some [(1%nat, [0; -1 # 2]); (2%nat, [1 # 2; 0])]]%Q.
Proof. vm_compute. reflexivity. Qed.

(** The nodal velocities: no normal velocity on the bottom ([v0], [v1]),
    none at all in the corner of the two symmetry planes ([v2]), the
    prescribed velocity (0, t - x) on the top ([v3], [v4], [v5]). *)
Example ex_nodal_velocities :
  option_map
    (fun s' =>
       map (fun v => map (fun d => this (node_velocity s' v d)) [0; 1]%nat)
         (vertices ex_mesh))
    (evaluate_nodal_state 2 ex_solve ex_qr ex_mesh ex_boundary_map
       ex_state_assembled)
  = Some [[1 # 10; 0]; [76 # 45; 0]; [0; 0]; [0; 3]; [0; 2]; [0; 1]]%Q.
Proof. vm_compute. reflexivity. Qed.

(** The inverse time scales 1 and 1/4 and the three limits 1, 4 and 1/2. *)
Example ex_time_step_limits :
  (this (fst (inverse_time_scales ex_mesh ex_state)),
   this (snd (inverse_time_scales ex_mesh ex_state)),
   this (dt_acc ex_mesh ex_state), this (dt_vol ex_mesh ex_state),
   this (dt_growth ex_state))
  = (1, 1 # 4, 1, 4, 1 # 2)%Q.
Proof. vm_compute. reflexivity. Qed.

(** ** The properties on the two squares *)

(** Corner 4 is the corner of the right cell at [v1]: z = 1/8, its wedges
    lie on [f1] and [f6]. *)
Lemma evaluate_corner_coef_sums_witness :
  In 4%nat (corners ex_mesh) /\
  this (corner_matrix (evaluate_corner_coef 2 ex_mesh ex_state) 4 0 0)
    = (1 # 16)%Q /\
  this (corner_matrix (evaluate_corner_coef 2 ex_mesh ex_state) 4 0 1)
    = 0%Q /\
  this (corner_normal (evaluate_corner_coef 2 ex_mesh ex_state) 4 1)
    = (-1 # 2)%Q.
Proof.
  assert (H : In 4%nat (corners ex_mesh)) by (cbn; auto 10).
  split; [exact H |].
  destruct (evaluate_corner_coef_sums 2 ex_mesh ex_state 4 H) as [HM HN].
  rewrite (HM 0%nat 0%nat), (HM 0%nat 1%nat), (HN 1%nat) by lia.
  repeat split; vm_compute; reflexivity.
Defined.

(** [v2] lies on the bottom (tag 1) and on the right side (tag 2): two
    symmetry normals, a 4 x 4 system. *)
Lemma symmetry_constraints_vertex_witness :
  exists s' rhs sn,
    evaluate_nodal_state 2 ex_solve ex_qr ex_mesh ex_boundary_map
      ex_state_assembled = Some s' /\
    boundary_conditions 2 ex_mesh ex_boundary_map ex_state_assembled 2
      (snd (point_system 2 ex_mesh ex_state_assembled 2)) = Some (rhs, sn) /\
    NoDup (map fst sn) /\
    (forall tag,
       In tag (map fst sn) <->
       is_symmetry_tag ex_boundary_map tag = true /\
       tagged_wedges ex_mesh 2 tag <> []) /\
    (forall tag nv d,
       smap_find tag sn = Some nv -> (d < 2)%nat ->
       sum1 (map (fun w =>
                    rmul (wedge_facet_area (geometry ex_state_assembled) w)
                      (wedge_facet_normal (geometry ex_state_assembled) w d))
               (tagged_wedges ex_mesh 2 tag)) = Some (nv d)) /\
    (sn = [] ->
     node_velocity s' 2 =
     ex_solve (fst (point_system 2 ex_mesh ex_state_assembled 2)) rhs) /\
    (sn <> [] ->
     exists A b,
       (forall i j,
          A i j =
          saddle_point 2 (fst (point_system 2 ex_mesh ex_state_assembled 2))
            (map snd sn) i j) /\
       (forall i, b i = if (i <? 2)%nat then rhs i else r0) /\
       forall d, (d < 2)%nat ->
         node_velocity s' 2 d = ex_qr (2 + length sn) A b d).
Proof.
  apply symmetry_constraints_vertex.
  - exact ex_boundary_map_covers.
  - exact ex_face_tags_NoDup.
  - cbn. auto 10.
  - reflexivity.
  - intros t b Ht Hb. cbn in Ht.
    destruct Ht as [<- | [<- | []]]; cbn in Hb; inversion Hb; reflexivity.
Defined.

(** Cell 0 on the assembled state. *)
Lemma evaluate_forces_subcell_witness :
  In 0%nat (cells ex_mesh) /\
  this (dmomentum_dt
          (cell_residual (evaluate_forces 2 ex_mesh ex_state_assembled) 0) 0)
    = (-1)%Q /\
  this (denergy_dt
          (cell_residual (evaluate_forces 2 ex_mesh ex_state_assembled) 0))
    = (-1 # 2)%Q.
Proof.
  assert (H : In 0%nat (cells ex_mesh)) by (cbn; auto).
  split; [exact H |].
  destruct (evaluate_forces_subcell 2 ex_mesh ex_state_assembled 0 H)
    as [_ [Hm He]].
  rewrite (Hm 0%nat) by lia. rewrite He.
  split; vm_compute; reflexivity.
Defined.

(** On the example the acoustic limit is 1, the volumetric limit 4 and the
    growth limit 2 * 1/4. *)
Lemma evaluate_time_step_minimum_witness :
  dt_growth ex_state = rmul (growth (cfl ex_state)) (time_step ex_state) /\
  exists dt name,
    evaluate_time_step ex_mesh ex_state
      = Some (set_time_step ex_state dt, name) /\
    In dt [dt_acc ex_mesh ex_state; dt_vol ex_mesh ex_state;
           dt_growth ex_state] /\
    rlt (dt_acc ex_mesh ex_state) dt = false /\
    rlt (dt_vol ex_mesh ex_state) dt = false /\
    rlt (dt_growth ex_state) dt = false.
Proof.
  apply evaluate_time_step_minimum.
  - exact Qc_rlt_irrefl.
  - exact Qc_rlt_trans.
  - vm_compute. reflexivity.
  - vm_compute. reflexivity.
Defined.

(** C4, as stated, fails on the example: with the growth constant 2 and the
    previous step 1/4 the growth limit of the code is 2 * 1/4 = 1/2, not
    (1 + 2) * 1/4 = 3/4; the acoustic limit being 1 and the volumetric
    limit 4, the new step is 1/2 where the form (1 + CFL_g) gives 3/4. *)
Lemma growth_limit_counterexample :
  this (dt_growth ex_state) = (1 # 2)%Q /\
  this (rmul (radd (qc 1 1) (growth (cfl ex_state))) (time_step ex_state))
    = (3 # 4)%Q /\
  dt_growth ex_state
    <> rmul (radd (qc 1 1) (growth (cfl ex_state))) (time_step ex_state) /\
  option_map (fun r => (this (time_step (fst r)), snd r))
    (evaluate_time_step ex_mesh ex_state)
    = Some ((1 # 2)%Q, "growth"%string).
Proof.
  split; [vm_compute; reflexivity |].
  split; [vm_compute; reflexivity |].
  split; [| vm_compute; reflexivity].
  intro E. apply (f_equal this) in E. vm_compute in E. discriminate.
Qed.

(** Both cells at rest. *)
Lemma evaluate_time_step_zero_volume_rate_witness :
  snd (inverse_time_scales ex_mesh ex_state_at_rest) = r0 /\
  evaluate_time_step ex_mesh ex_state_at_rest = None.
Proof.
  apply evaluate_time_step_zero_volume_rate.
  - exact Qc_abs_zero.
  - exact Qc_zero_div.
  - reflexivity.
  - intros c Hc. split; [reflexivity |].
    apply qc_nonzero. reflexivity.
  - apply qc_nonzero. reflexivity.
Defined.

(** Both cells at rest, the build with assertions: the acoustic scale is
    positive, the volumetric one 0, and the assertion stops the run. *)
Example ex_time_step_at_rest_assert :
  Forall
    (fun c =>
       volumetric_rate_of_change (cell_residual ex_state_at_rest c) = r0)
    (cells ex_mesh) /\
  rlt r0 (fst (inverse_time_scales ex_mesh ex_state_at_rest)) = true /\
  evaluate_time_step ex_mesh ex_state_at_rest = None.
Proof.
  split; [repeat constructor |].
  split; vm_compute; reflexivity.
Qed.

(** [v5] carries the tags 2 (symmetry) and 3 (prescribed velocity). *)
Lemma prescribed_velocity_vertex_witness :
  exists s' pre t post b,
    evaluate_nodal_state 2 ex_solve ex_qr ex_mesh ex_boundary_map
      ex_state_assembled = Some s' /\
    vertex_tags ex_mesh 5 = pre ++ t :: post /\
    ex_boundary_map t = Some b /\
    has_prescribed_velocity b = true /\
    (forall t' b', In t' pre -> ex_boundary_map t' = Some b' ->
                   has_prescribed_velocity b' = false) /\
    node_velocity s' 5 =
    velocity b (coordinates ex_state_assembled 5)
      (soln_time ex_state_assembled).
Proof.
  apply prescribed_velocity_vertex.
  - exact ex_boundary_map_covers.
  - cbn. auto 10.
  - reflexivity.
  - exists 3%nat, ex_inflow. cbn. auto.
Defined.

(** [v1] after a half step. *)
Lemma save_move_restore_coordinates_witness :
  In 1%nat (vertices ex_mesh) /\
  coordinates
    (restore_coordinates ex_mesh
       (move_mesh 2 ex_compute_geometry ex_mesh (qc 1 2)
          (save_coordinates ex_mesh ex_state))) 1 =
  coordinates ex_state 1.
Proof.
  assert (H : In 1%nat (vertices ex_mesh)) by (cbn; auto).
  split; [exact H |].
  exact (save_move_restore_coordinates 2 ex_compute_geometry ex_mesh
           (qc 1 2) ex_state 1 H).
Defined.

(** [v1] touches both cells, of velocities (1, 0) and (0, 0). *)
Lemma estimate_nodal_state_mean_witness :
  In 1%nat (vertices ex_mesh) /\ cells_of_vertex ex_mesh 1 <> [] /\
  this (node_velocity (estimate_nodal_state 2 ex_mesh ex_state) 1 0)
    = (1 # 2)%Q.
Proof.
  assert (H : In 1%nat (vertices ex_mesh)) by (cbn; auto).
  assert (Hc : cells_of_vertex ex_mesh 1 <> []) by discriminate.
  assert (Hd : (0 < 2)%nat) by lia.
  split; [exact H |]. split; [exact Hc |].
  destruct (estimate_nodal_state_mean ex_mesh ex_state 1 H Hc Hd) as [Hm _].
  rewrite Hm. vm_compute. reflexivity.
Defined.

(** C7. In two dimensions [length()] is the Euclidean distance of the two
    vertices of the edge; in three dimensions it is not: the edge from
    (0, 0, 0) to (0, 0, 1) has the Euclidean length 1, and
    [burton_3d_edge_t::length] returns 0, the third coordinate being left
    out of the sum. *)
Theorem burton_3d_edge_length_drops_z :
  vertices_of_edge ex_mesh 0 = [0; 1]%nat /\
  this (burton_3d_edge_length ex_mesh ex_state_3d 0) = 0%Q /\
  this (euclidean_distance 3 (coordinates ex_state_3d 0)
          (coordinates ex_state_3d 1)) = 1%Q /\
  this (burton_2d_edge_length ex_mesh ex_state 0)
    = this (euclidean_distance 2 (coordinates ex_state 0)
              (coordinates ex_state 1)).
Proof.
  repeat split; vm_compute; reflexivity.
Qed.

(** ** Further inputs on the two squares *)

Lemma Qc_rlt_neg_trans (x y z : Qc) :
  rlt x y = false -> rlt y z = false -> rlt x z = false.
Proof.
  cbn. rewrite !negb_false_iff, !Qle_bool_iff.
  intros Hyx Hzy. exact (Qle_trans _ _ _ Hzy Hyx).
Qed.

(** The boundary map without a condition for tag 3. *)
Definition ex_boundary_map_partial : boundary_map_t (real_t := Qc) :=
  fun tag =>
    match tag with
    | 1%nat | 2%nat => Some ex_symmetry
    | 4%nat => Some ex_outflow
    | _ => None
    end.

(** The two squares with one more tag, 5, on the face [f0]; no vertex
    carries it and the boundary map has no condition for it. *)
Definition ex_mesh_face_tagged : mesh_topology := {|
  cells := cells ex_mesh;
  vertices := vertices ex_mesh;
  corners := corners ex_mesh;
  cells_of_vertex := cells_of_vertex ex_mesh;
  corners_of_vertex := corners_of_vertex ex_mesh;
  wedges_of_vertex := wedges_of_vertex ex_mesh;
  corners_of_cell := corners_of_cell ex_mesh;
  cells_of_corner := cells_of_corner ex_mesh;
  vertices_of_corner := vertices_of_corner ex_mesh;
  wedges_of_corner := wedges_of_corner ex_mesh;
  faces_of_wedge := faces_of_wedge ex_mesh;
  cells_of_wedge := cells_of_wedge ex_mesh;
  vertices_of_edge := vertices_of_edge ex_mesh;
  vertex_is_boundary := vertex_is_boundary ex_mesh;
  wedge_is_boundary := wedge_is_boundary ex_mesh;
  vertex_tags := vertex_tags ex_mesh;
  face_tags :=
    fun f => match f with 0%nat => [1; 5]%nat | _ => face_tags ex_mesh f end
|}.

(** The two squares with the boundary flag of the vertices [v1] and [v4]
    of the common edge cleared: they take the branch of the internal
    points. *)
Definition ex_mesh_open : mesh_topology := {|
  cells := cells ex_mesh;
  vertices := vertices ex_mesh;
  corners := corners ex_mesh;
  cells_of_vertex := cells_of_vertex ex_mesh;
  corners_of_vertex := corners_of_vertex ex_mesh;
  wedges_of_vertex := wedges_of_vertex ex_mesh;
  corners_of_cell := corners_of_cell ex_mesh;
  cells_of_corner := cells_of_corner ex_mesh;
  vertices_of_corner := vertices_of_corner ex_mesh;
  wedges_of_corner := wedges_of_corner ex_mesh;
  faces_of_wedge := faces_of_wedge ex_mesh;
  cells_of_wedge := cells_of_wedge ex_mesh;
  vertices_of_edge := vertices_of_edge ex_mesh;
  vertex_is_boundary :=
    fun v => negb (Nat.eqb v 1 || Nat.eqb v 4) && vertex_is_boundary ex_mesh v;
  wedge_is_boundary := wedge_is_boundary ex_mesh;
  vertex_tags := vertex_tags ex_mesh;
  face_tags := face_tags ex_mesh
|}.

(** The squares stretched to 3 by 4 rectangles: sides 3 and 4, diagonals
    5. *)
Definition ex_state_rect : hydro_state (real_t := Qc) :=
  set_coordinates ex_state
    (fun v =>
       nth v
         [vec2 (qc 0 1) (qc 0 1); vec2 (qc 3 1) (qc 0 1);
          vec2 (qc 6 1) (qc 0 1); vec2 (qc 0 1) (qc 4 1);
          vec2 (qc 3 1) (qc 4 1); vec2 (qc 6 1) (qc 4 1)]
         (vec2 (qc 0 1) (qc 0 1))).

(** [math::abs] of a vector on the example: the Euclidean norm. *)
Definition ex_vector_abs (dims : nat) (x : nat -> Qc) : Qc :=
  Qc_sqrt (sum_list (map (fun d => sqr (x d)) (seq 0 dims))).

(** The state a step works on after [save_solution]: velocity and energy
    overwritten. *)
Definition ex_state_overwritten : hydro_state (real_t := Qc) :=
  set_cell_velocity
    (set_cell_internal_energy (save_solution ex_mesh ex_state)
       (fun _ => qc 7 1))
    (fun _ => vec2 (qc 9 1) (qc 9 1)).

Lemma ex_nodal_state_returns (m : mesh_topology)
  (bm : boundary_map_t (real_t := Qc)) (s : hydro_state) :
  option_map (fun _ => tt) (evaluate_nodal_state 2 ex_solve ex_qr m bm s)
    = Some tt ->
  exists s', evaluate_nodal_state 2 ex_solve ex_qr m bm s = Some s'.
Proof.
  intro H. destruct (evaluate_nodal_state 2 ex_solve ex_qr m bm s) as [s' |].
  - now exists s'.
  - discriminate.
Qed.

(** ** The further properties on the two squares *)

(** Cell 1, whose velocity and energy the step overwrote. *)
Lemma restore_solution_after_save_witness :
  In 1%nat (cells ex_mesh) /\
  cell_velocity ex_state_overwritten 1 <> cell_velocity ex_state 1 /\
  cell_velocity (restore_solution ex_mesh ex_state_overwritten) 1
    = cell_velocity ex_state 1 /\
  cell_internal_energy (restore_solution ex_mesh ex_state_overwritten) 1
    = cell_internal_energy ex_state 1.
Proof.
  assert (H : In 1%nat (cells ex_mesh)) by (cbn; auto).
  split; [exact H |]. split.
  - intro E. apply (f_equal (fun u => this (u 0%nat))) in E.
    vm_compute in E. discriminate.
  - exact (restore_solution_after_save ex_mesh ex_state ex_state_overwritten
             1 eq_refl eq_refl H).
Defined.

(** [v1] moves from (1, 0) by 1/2 * 1/4 * (1/2, 0). *)
Lemma move_mesh_displacement_witness :
  NoDup (vertices ex_mesh) /\
  map (fun d =>
         this (coordinates
                 (move_mesh 2 ex_compute_geometry ex_mesh (qc 1 2) ex_state)
                 1 d))
    [0; 1]%nat = [17 # 16; 0]%Q.
Proof.
  assert (H : NoDup (vertices ex_mesh)).
  { cbn. repeat constructor; cbn; intros H;
      repeat (destruct H as [H | H]; [discriminate |]); exact H. }
  split; [exact H |].
  destruct (move_mesh_displacement 2 ex_compute_geometry ex_mesh (qc 1 2)
              ex_state H) as [Hm _].
  cbn [map]. rewrite (Hm 1%nat 0%nat), (Hm 1%nat 1%nat) by (cbn; auto; lia).
  vm_compute. reflexivity.
Defined.

(** The vertex 6 is no vertex of the two squares. *)
Lemma evaluate_nodal_state_frame_witness :
  exists s',
    evaluate_nodal_state 2 ex_solve ex_qr ex_mesh ex_boundary_map
      ex_state_assembled = Some s' /\
    corner_matrix s' = corner_matrix ex_state_assembled /\
    node_velocity s' 6 = node_velocity ex_state_assembled 6.
Proof.
  destruct (@ex_nodal_state_returns ex_mesh ex_boundary_map
              ex_state_assembled) as [s' E]; [vm_compute; reflexivity |].
  exists s'. split; [exact E |].
  destruct (evaluate_nodal_state_frame 2 ex_solve ex_qr ex_mesh
              ex_boundary_map ex_state_assembled E) as [Hf Ho].
  split.
  - unfold same_but_node_velocity in Hf. tauto.
  - apply Ho. cbn. intro H.
    repeat (destruct H as [H | H]; [discriminate |]). exact H.
Defined.

(** [v3] carries the tags 3 and 4, and tag 3 is the first one looked
    up. *)
Lemma evaluate_nodal_state_missing_vertex_tag_witness :
  vertex_tags ex_mesh 3 = [3; 4]%nat /\
  ex_boundary_map_partial 3 = None /\
  evaluate_nodal_state 2 ex_solve ex_qr ex_mesh ex_boundary_map_partial
    ex_state_assembled = None.
Proof.
  split; [reflexivity |]. split; [reflexivity |].
  apply (evaluate_nodal_state_missing_vertex_tag 2 ex_solve ex_qr ex_mesh
           ex_boundary_map_partial ex_state_assembled 3 [] 3%nat [4%nat]).
  - cbn. auto 10.
  - reflexivity.
  - reflexivity.
  - reflexivity.
  - intros t' b [].
Defined.

(** [v1] carries tag 1 only; its boundary wedge 3 lies on [f0], which
    also carries tag 5. *)
Lemma evaluate_nodal_state_missing_face_tag_witness :
  vertex_tags ex_mesh_face_tagged 1 = [1]%nat /\
  face_tags ex_mesh_face_tagged
    (front (faces_of_wedge ex_mesh_face_tagged 3)) = [1; 5]%nat /\
  ex_boundary_map 5 = None /\
  evaluate_nodal_state 2 ex_solve ex_qr ex_mesh_face_tagged ex_boundary_map
    ex_state_assembled = None.
Proof.
  split; [reflexivity |]. split; [reflexivity |]. split; [reflexivity |].
  apply (evaluate_nodal_state_missing_face_tag 2 ex_solve ex_qr
           ex_mesh_face_tagged ex_boundary_map ex_state_assembled 1 3 5%nat).
  - cbn. auto 10.
  - reflexivity.
  - intros t' [<- | []]. exists ex_symmetry. split; reflexivity.
  - cbn. auto 10.
  - reflexivity.
  - cbn. auto.
  - reflexivity.
Defined.

(** Both cells of the example have positive inverse scales. *)
Lemma evaluate_time_step_needs_scales_witness :
  rlt (r0 : Qc) r0 = false /\
  (evaluate_time_step ex_mesh ex_state <> None ->
   (exists c, In c (cells ex_mesh) /\
              rlt r0 (inverse_acoustic_scale ex_state c) = true) /\
   (exists c, In c (cells ex_mesh) /\
              rlt r0 (inverse_volumetric_scale ex_state c) = true)) /\
  (cells ex_mesh = [] -> evaluate_time_step ex_mesh ex_state = None).
Proof.
  split; [exact (Qc_rlt_irrefl r0) |].
  exact (evaluate_time_step_needs_scales ex_mesh ex_state (Qc_rlt_irrefl r0)).
Defined.

(** The inverse scales of the example are 1 and 1/4 in both cells. *)
Lemma time_step_limits_extremal_witness :
  (exists c, In c (cells ex_mesh) /\
     dt_acc ex_mesh ex_state =
       rdiv (accoustic (cfl ex_state))
         (rdiv (rdiv (cell_sound_speed ex_state c)
                  (cell_min_length (geometry ex_state) c))
            (accoustic (cfl ex_state))) /\
     forall c', In c' (cells ex_mesh) ->
       rlt (inverse_acoustic_scale ex_state c)
         (inverse_acoustic_scale ex_state c') = false) /\
  (exists c, In c (cells ex_mesh) /\
     dt_vol ex_mesh ex_state =
       rdiv (volume (cfl ex_state))
         (rdiv (rdiv (rabs (volumetric_rate_of_change
                              (cell_residual ex_state c)))
                  (cell_volume (geometry ex_state) c))
            (volume (cfl ex_state))) /\
     forall c', In c' (cells ex_mesh) ->
       rlt (inverse_volumetric_scale ex_state c)
         (inverse_volumetric_scale ex_state c') = false).
Proof.
  apply time_step_limits_extremal.
  - exact Qc_rlt_irrefl.
  - exact Qc_rlt_trans.
  - exact Qc_rlt_neg_trans.
  - vm_compute. reflexivity.
  - vm_compute. reflexivity.
Defined.

(** On the example the growth limit 1/2 is below the acoustic limit 1,
    which is below the volumetric limit 4. *)
Lemma evaluate_time_step_report_witness :
  rlt (dt_vol ex_mesh ex_state) (dt_acc ex_mesh ex_state) = false /\
  rlt (dt_growth ex_state) (dt_acc ex_mesh ex_state) = true /\
  evaluate_time_step ex_mesh ex_state
    = Some (set_time_step ex_state (dt_growth ex_state), "growth"%string).
Proof.
  assert (H1 : rlt (dt_vol ex_mesh ex_state) (dt_acc ex_mesh ex_state)
               = false) by (vm_compute; reflexivity).
  assert (H2 : rlt (dt_growth ex_state) (dt_acc ex_mesh ex_state) = true)
    by (vm_compute; reflexivity).
  split; [exact H1 |]. split; [exact H2 |].
  rewrite (evaluate_time_step_report ex_mesh ex_state)
    by (vm_compute; reflexivity).
  rewrite H1, H2. reflexivity.
Defined.

(** The left rectangle: vertices 0, 1, 4, 3 and edges 0, 6, 4, 5; the
    reference edge has the length 3, the diagonal from [v0] to [v4] the
    length 5. *)
Lemma burton_2d_cell_min_length_minimum_witness :
  this (burton_2d_cell_min_length 2 (ex_vector_abs 2) ex_mesh ex_state_rect
          [0; 1; 4; 3]%nat [0; 6; 4; 5]%nat) = 3%Q /\
  rlt (burton_2d_edge_length ex_mesh ex_state_rect 0)
    (burton_2d_cell_min_length 2 (ex_vector_abs 2) ex_mesh ex_state_rect
       [0; 1; 4; 3]%nat [0; 6; 4; 5]%nat) = false /\
  this (ex_vector_abs 2
          (vector_sub 2 (coordinates ex_state_rect 0)
             (coordinates ex_state_rect 4))) = 5%Q /\
  rlt (ex_vector_abs 2
         (vector_sub 2 (coordinates ex_state_rect 0)
            (coordinates ex_state_rect 4)))
    (burton_2d_cell_min_length 2 (ex_vector_abs 2) ex_mesh ex_state_rect
       [0; 1; 4; 3]%nat [0; 6; 4; 5]%nat) = false.
Proof.
  destruct (burton_2d_cell_min_length_minimum 2 (ex_vector_abs 2) ex_mesh
              ex_state_rect [0; 1; 4; 3]%nat [0; 6; 4; 5]%nat
              Qc_rlt_irrefl Qc_rlt_trans Qc_rlt_neg_trans)
    as [_ [Href Hall]].
  split; [vm_compute; reflexivity |]. split; [exact Href |].
  split; [vm_compute; reflexivity |].
  apply Hall; [cbn; auto | cbn; auto | discriminate].
Defined.


(** [v1] with its boundary flag cleared: the corners 1 and 4, of the
    matrices 1/2 I and 1/16 I. *)
Lemma internal_vertex_velocity_witness :
  vertex_is_boundary ex_mesh_open 1 = false /\
  exists s' Mp rhs,
    evaluate_nodal_state 2 ex_solve ex_qr ex_mesh_open ex_boundary_map
      ex_state_assembled = Some s' /\
    node_velocity s' 1 = ex_solve Mp rhs /\
    this (Mp 0%nat 0%nat) = (9 # 16)%Q /\ this (Mp 0%nat 1%nat) = 0%Q.
Proof.
  split; [reflexivity |].
  destruct (@ex_nodal_state_returns ex_mesh_open ex_boundary_map
              ex_state_assembled) as [s' E]; [vm_compute; reflexivity |].
  destruct (internal_vertex_velocity 2 ex_solve ex_qr ex_mesh_open
              ex_boundary_map ex_state_assembled 1 E)
    as [Mp [rhs [Hu [HM _]]]].
  - cbn. auto 10.
  - reflexivity.
  - exists s', Mp, rhs. split; [exact E |]. split; [exact Hu |].
    rewrite (HM 0%nat 0%nat), (HM 0%nat 1%nat) by lia.
    split; vm_compute; reflexivity.
Defined.

(** [v0] lies on the bottom (tag 1, symmetry) and on the left side
    (tag 4, the pressure 1/10): its wedge 1 on [f5] takes the pressure
    term. *)
Lemma prescribed_pressure_rhs_witness :
  find_velocity_bc ex_boundary_map (vertex_tags ex_mesh 0) = Some None /\
  map (fun wb => fst wb)
    (pressure_hits ex_mesh ex_boundary_map
       (filter_boundary ex_mesh (wedges_of_vertex ex_mesh 0))) = [1]%nat /\
  exists s' rhs sn,
    evaluate_nodal_state 2 ex_solve ex_qr ex_mesh ex_boundary_map
      ex_state_assembled = Some s' /\
    boundary_conditions 2 ex_mesh ex_boundary_map ex_state_assembled 0
      (snd (point_system 2 ex_mesh ex_state_assembled 0)) = Some (rhs, sn) /\
    this (snd (point_system 2 ex_mesh ex_state_assembled 0) 0%nat)
      = (0)%Q /\
    this (rhs 0%nat) = (1 # 20)%Q.
Proof.
  assert (Hf : find_velocity_bc ex_boundary_map (vertex_tags ex_mesh 0)
               = Some None) by reflexivity.
  split; [exact Hf |]. split; [reflexivity |].
  destruct (@ex_nodal_state_returns ex_mesh ex_boundary_map
              ex_state_assembled) as [s' E]; [vm_compute; reflexivity |].
  destruct (prescribed_pressure_rhs 2 ex_solve ex_qr ex_mesh ex_boundary_map
              ex_state_assembled 0 E)
    as [rhs [sn [Eb [Hr _]]]].
  - cbn. auto 10.
  - reflexivity.
  - exact Hf.
  - exists s', rhs, sn. split; [exact E |]. split; [exact Eb |].
    rewrite (Hr 0%nat) by lia.
    split; vm_compute; reflexivity.
Defined.

(** The state after the nodal solve on the squares whose common edge is
    internal. *)
Definition ex_state_solved : hydro_state (real_t := Qc) :=
  match
    evaluate_nodal_state 2 ex_solve ex_qr ex_mesh_open ex_boundary_map
      ex_state_assembled
  with
  | Some s' => s'
  | None => ex_state_assembled
  end.

(** [v1], between the two cells. *)
Lemma nodal_systems_symmetric_witness :
  (forall cn, In cn (corners_of_vertex ex_mesh 1) -> In cn (corners ex_mesh))
  /\
  (forall i j, (i < 2)%nat -> (j < 2)%nat ->
     fst (point_system 2 ex_mesh (evaluate_corner_coef 2 ex_mesh ex_state) 1)
       i j =
     fst (point_system 2 ex_mesh (evaluate_corner_coef 2 ex_mesh ex_state) 1)
       j i) /\
  forall rhs sn i j,
    fst (symmetry_system 2
           (fst (point_system 2 ex_mesh
                   (evaluate_corner_coef 2 ex_mesh ex_state) 1)) rhs sn) i j =
    fst (symmetry_system 2
           (fst (point_system 2 ex_mesh
                   (evaluate_corner_coef 2 ex_mesh ex_state) 1)) rhs sn) j i.
Proof.
  assert (H : forall cn, In cn (corners_of_vertex ex_mesh 1) ->
                         In cn (corners ex_mesh)).
  { intros cn [<- | [<- | []]]; cbn; auto 10. }
  split; [exact H |].
  exact (nodal_systems_symmetric 2 ex_mesh ex_state 1 Qcmult_comm H).
Defined.

(** Around the internal vertex [v1], whose velocity (76/45, -44/45) solves
    the point system, the forces of the corners 1 and 4 cancel. *)
Lemma corner_forces_balance_witness :
  map (fun d => this (node_velocity ex_state_solved 1 d)) [0; 1]%nat
    = [76 # 45; -44 # 45]%Q /\
  map (fun cn =>
         this (corner_force 2 ex_mesh_open ex_state_solved
                 (front (cells_of_corner ex_mesh_open cn)) cn 0))
    (corners_of_vertex ex_mesh_open 1) = [7 # 45; -7 # 45]%Q /\
  fold_left
    (fun x cn =>
       radd x
         (corner_force 2 ex_mesh_open ex_state_solved
            (front (cells_of_corner ex_mesh_open cn)) cn 0))
    (corners_of_vertex ex_mesh_open 1) r0 = r0.
Proof.
  split; [vm_compute; reflexivity |]. split; [vm_compute; reflexivity |].
  assert (Hv : forall cn, In cn (corners_of_vertex ex_mesh_open 1) ->
                          front (vertices_of_corner ex_mesh_open cn) = 1%nat).
  { intros cn [<- | [<- | []]]; reflexivity. }
  assert (Hd : (0 < 2)%nat) by lia.
  destruct (@corner_forces_balance Qc Qc_ops 2 _ _ Qcrt ex_mesh_open
              ex_state_solved 1 0 Hv Hd) as [_ Hz].
  apply Hz. apply Qc_is_canon. vm_compute. reflexivity.
Defined.

(** The steps 20 of a run writing every step 10 and of a run writing
    every step 5. *)
Lemma output_names_distinct_witness :
  output 20 "out" "dat" 10 = Some "out0000020.dat"%string /\
  output 20 "out" "dat" 5 = Some "out0000020.dat"%string /\
  output 21 "out" "dat" 5 = None /\
  20%nat = 20%nat.
Proof.
  assert (H1 : output 20 "out" "dat" 10 = Some "out0000020.dat"%string)
    by reflexivity.
  assert (H2 : output 20 "out" "dat" 5 = Some "out0000020.dat"%string)
    by reflexivity.
  split; [exact H1 |]. split; [exact H2 |]. split; [reflexivity |].
  exact (output_names_distinct 20 20 "out" "dat" 10 5 H1 H2).
Defined.

(** A quadrilateral of the vertices 10 to 13 and the edges 20 to 23. *)
Lemma quad_corner_edges_abut_vertex_witness :
  quad_create_entities 1 [10; 11; 12; 13]%nat
    = Some ([10; 11; 11; 12; 12; 13; 13; 10]%nat, [2; 2; 2; 2]%nat) /\
  quad_create_bound_entities 1 [[10; 11; 12; 13]; [20; 21; 22; 23]]%nat
    = Some ([10; 20; 23; 11; 21; 20; 12; 22; 21; 13; 23; 22]%nat,
            [3; 3; 3; 3]%nat) /\
  forall k, (k < 4)%nat ->
    fst (edge_ends [10; 11; 11; 12; 12; 13; 13; 10]%nat k)
      = nth k [10; 11; 12; 13]%nat 0%nat /\
    snd (edge_ends [10; 11; 11; 12; 12; 13; 13; 10]%nat ((k + 3) mod 4))
      = nth k [10; 11; 12; 13]%nat 0%nat.
Proof.
  assert (H1 : quad_create_entities 1 [10; 11; 12; 13]%nat
               = Some ([10; 11; 11; 12; 12; 13; 13; 10]%nat, [2; 2; 2; 2]%nat))
    by reflexivity.
  assert (H2 : quad_create_bound_entities 1
                 [[10; 11; 12; 13]; [20; 21; 22; 23]]%nat
               = Some ([10; 20; 23; 11; 21; 20; 12; 22; 21; 13; 23; 22]%nat,
                       [3; 3; 3; 3]%nat))
    by reflexivity.
  split; [exact H1 |]. split; [exact H2 |].
  intros k Hk.
  destruct (quad_corner_edges_abut_vertex [10; 11; 12; 13]%nat
              [20; 21; 22; 23]%nat H1 H2) as [_ H].
  destruct (H k Hk) as [_ [_ [_ [_ [Hf Hs]]]]].
  split; [exact Hf | exact Hs].
Defined.

(** ** Doubles without rounding *)

(** The rationals with the two infinities and NaN, divided and compared
    as IEEE 754 does for doubles: a quotient by zero is an infinity, or
    NaN for 0 / 0, and no comparison with NaN holds. *)
Inductive xreal : Type :=
| Fin (q : Qc)
| PInf
| NInf
| NaN.

Definition xsign (x : xreal) : comparison :=
  match x with
  | Fin q => Qcompare (this q) 0
  | PInf => Gt
  | NInf => Lt
  | NaN => Eq
  end.

Definition signed_inf (c : comparison) : xreal :=
  match c with Gt => PInf | Lt => NInf | Eq => NaN end.

Definition sign_mul (a b : comparison) : comparison :=
  match a, b with
  | Eq, _ | _, Eq => Eq
  | Gt, Gt | Lt, Lt => Gt
  | _, _ => Lt
  end.

Definition xopp (x : xreal) : xreal :=
  match x with
  | Fin q => Fin (Qcopp q)
  | PInf => NInf
  | NInf => PInf
  | NaN => NaN
  end.

Definition xadd (x y : xreal) : xreal :=
  match x, y with
  | NaN, _ | _, NaN => NaN
  | Fin a, Fin b => Fin (Qcplus a b)
  | PInf, NInf | NInf, PInf => NaN
  | PInf, _ | _, PInf => PInf
  | NInf, _ | _, NInf => NInf
  end.

Definition xmul (x y : xreal) : xreal :=
  match x, y with
  | NaN, _ | _, NaN => NaN
  | Fin a, Fin b => Fin (Qcmult a b)
  | _, _ => signed_inf (sign_mul (xsign x) (xsign y))
  end.

Definition xdiv (x y : xreal) : xreal :=
  match x, y with
  | NaN, _ | _, NaN => NaN
  | Fin a, Fin b =>
      if Qeq_bool (this b) 0 then signed_inf (Qcompare (this a) 0)
      else Fin (Qcdiv a b)
  | Fin _, _ => Fin (Q2Qc 0)
  | _, Fin b => match Qcompare (this b) 0 with Lt => xopp x | _ => x end
  | _, _ => NaN
  end.

Definition xabs (x : xreal) : xreal :=
  match x with
  | Fin q => Fin (Qcabs q)
  | NaN => NaN
  | _ => PInf
  end.

Definition xsqrt (x : xreal) : xreal :=
  match x with
  | Fin q =>
      match Qcompare (this q) 0 with Lt => NaN | _ => Fin (Qc_sqrt q) end
  | PInf => PInf
  | _ => NaN
  end.

Definition xlt (x y : xreal) : bool :=
  match x, y with
  | Fin a, Fin b => negb (Qle_bool b a)
  | NInf, Fin _ | NInf, PInf | Fin _, PInf => true
  | _, _ => false
  end.

#[export] Instance xreal_ops : real_ops xreal := {|
  r0 := Fin (Q2Qc 0);
  radd := xadd;
  rsub := fun x y => xadd x (xopp y);
  rmul := xmul;
  rdiv := xdiv;
  rabs := xabs;
  rsqrt := xsqrt;
  rlt := xlt;
  rsize := fun n => Fin (Q2Qc (inject_Z (Z.of_nat n)))
|}.







(** The left cell at rest and the right one not: the cell at rest is
    skipped, the inverse volumetric scale is the 1/4 of the right cell, the
    assertion holds and both builds return the step 1/2. *)
Definition ex_state_left_at_rest : hydro_state (real_t := Qc) :=
  set_cell_residual ex_state
    (fun c => if Nat.eqb c 0 then flux_zero else cell_residual ex_state c).

Example ex_time_step_left_at_rest :
  this (snd (inverse_time_scales ex_mesh ex_state_left_at_rest)) = (1 # 4)%Q /\
  snd (inverse_time_scales ex_mesh ex_state_left_at_rest) =
  dt_vol_inv_over ex_state_left_at_rest
    (filter (fun c => negb (Nat.eqb c 0)) (cells ex_mesh)) /\
  evaluate_time_step ex_mesh ex_state_left_at_rest =
  evaluate_time_step_ndebug ex_mesh ex_state_left_at_rest /\
  option_map (fun r => (this (time_step (fst r)), snd r))
    (evaluate_time_step ex_mesh ex_state_left_at_rest)
    = Some ((1 # 2)%Q, "growth"%string).
Proof.
  split; [vm_compute; reflexivity |].
  split; [apply Qc_is_canon; vm_compute; reflexivity |].
  split; [| vm_compute; reflexivity].
  apply evaluate_time_step_ndebug_agrees; vm_compute; reflexivity.
Qed.
